(** * Vertex welding of glTF primitives: a shallow embedding of
      [packages/functions/src/weld.ts]

    JavaScript numbers are IEEE 754 binary64 values, so they are embedded as
    Rocq's primitive floats, whose operations are the same binary64 operations
    with round-to-nearest-even.  Typed arrays of unsigned integers are lists
    of naturals read with [!!] and written with [<[_:=_]>]: a read past the
    end yields [None] (JavaScript's [undefined]) and a write past the end is
    dropped, as for a typed array. *)

From Stdlib Require Import ZArith List Bool String Ascii Uint63 Floats Lia.
From stdpp Require Import base list.
Import ListNotations.

Set Warnings "-inexact-float,-clear-no-such-hyp".

(** ** JavaScript numbers *)

Abbreviation number := float.

Module Js.
Local Open Scope float_scope.

(** [Math.round]: the closest integral number, ties towards +∞; the results
    in [-0.5, 0) are [-0]. *)
Definition Math_round (x : number) : number :=
  match Prim2SF x with
  | S754_finite s m e =>
      if (0 <=? e)%Z then x
      else
        let k := (- e)%Z in
        let v := if s then Z.neg m else Z.pos m in
        let r := ((2 * v + 2 ^ k) / 2 ^ (k + 1))%Z in
        match r with
        | Z0 => if s then neg_zero else zero
        | Zpos _ => of_uint63 (Uint63.of_Z r)
        | Zneg _ => - of_uint63 (Uint63.of_Z (- r))
        end
  | _ => x
  end.

(** [Math.fround]: rounding to binary32 (24 bits of precision, exponents up
    to 128), returned as a binary64 value. *)
Definition Math_fround (x : number) : number :=
  match Prim2SF x with
  | S754_finite s m e => SF2Prim (binary_round 24 128 s m e)
  | _ => x
  end.

Definition Math_abs (x : number) : number := abs x.

(** The integral part of a number, rounded towards zero; [0] for [NaN] and
    the infinities, as the conversions to integers have it. *)
Definition truncate (x : number) : Z :=
  match Prim2SF x with
  | S754_finite s m e =>
      let a := if (0 <=? e)%Z then (Z.pos m * 2 ^ e)%Z else (Z.pos m / 2 ^ (- e))%Z in
      if s then (- a)%Z else a
  | _ => 0%Z
  end.

(** The number of an integer below [2^53] in absolute value. *)
Definition ofInteger (k : Z) : number :=
  match k with
  | Z0 => zero
  | Zpos _ => of_uint63 (Uint63.of_Z k)
  | Zneg _ => - of_uint63 (Uint63.of_Z (- k))
  end.

(** [ToUint8], [ToUint16] and [ToUint32]: the integral part modulo
    [2^bits]. *)
Definition ToUint (bits : Z) (x : number) : number :=
  ofInteger (truncate x mod 2 ^ bits).

(** [ToInt8] and [ToInt16]: the integral part modulo [2^bits], taken in
    [[-2^(bits-1), 2^(bits-1))]. *)
Definition ToInt (bits : Z) (x : number) : number :=
  let k := (truncate x mod 2 ^ bits)%Z in
  ofInteger (if (2 ^ (bits - 1) <=? k)%Z then k - 2 ^ bits else k).

(** [Math.max] and [Math.min] of two numbers: [NaN] when either is. *)
Definition Math_max (x y : number) : number :=
  if is_nan x || is_nan y then nan
  else if x <? y then y
  else if y <? x then x
  else if get_sign x then y else x.

Definition Math_min (x y : number) : number :=
  if is_nan x || is_nan y then nan
  else if x <? y then x
  else if y <? x then y
  else if get_sign x then x else y.

(** [Math.max(...l)] and [Math.min(...l)]; on no argument they are -∞, +∞. *)
Definition Math_max_list (l : list number) : number :=
  fold_left Math_max l neg_infinity.

Definition Math_min_list (l : list number) : number :=
  fold_left Math_min l infinity.

(** [x > y] on numbers; it is false when either is [NaN], and [undefined]
    converts to [NaN] in every numeric position of this file. *)
Definition gt (x y : number) : bool := y <? x.
Definition lt (x y : number) : bool := x <? y.

(** Truthiness of a number: [0], [-0] and [NaN] are falsy. *)
Definition truthy (x : number) : bool := negb (is_nan x || is_zero x).

(** [x || y] on numbers. *)
Definition or_else (x y : number) : number := if truthy x then x else y.

Definition EPSILON : number := 0x1p-52.

(** Equality of the strings [String(x)] and [String(y)]: number-to-string
    conversion is injective apart from [String(-0) = String(0) = "0"] and
    the single spelling ["NaN"]. *)
Definition same_string (x y : number) : bool :=
  (is_nan x && is_nan y) || (x =? y).
End Js.

(** ** Data model *)

(** The constructors of the typed arrays that hold the data of accessors. *)
Inductive ArrayType :=
  | Float32Array | Uint32Array | Uint16Array | Uint8Array | Int16Array | Int8Array.

(** An accessor: [elementSize] components per element over a flat typed
    array, [arrayType] being the constructor of the array.  The components
    are held as the numbers that [getElement] returns, which are numbers
    that an array of this type holds. *)
Record Accessor := mkAccessor {
  elementSize : nat;
  arrayType : ArrayType;
  array : list number
}.

Inductive Mode :=
  | POINTS | LINES | LINE_LOOP | LINE_STRIP
  | TRIANGLES | TRIANGLE_STRIP | TRIANGLE_FAN.

Definition Mode_eqb (m1 m2 : Mode) : bool :=
  match m1, m2 with
  | POINTS, POINTS | LINES, LINES | LINE_LOOP, LINE_LOOP
  | LINE_STRIP, LINE_STRIP | TRIANGLES, TRIANGLES
  | TRIANGLE_STRIP, TRIANGLE_STRIP | TRIANGLE_FAN, TRIANGLE_FAN => true
  | _, _ => false
  end.

(** Attributes in definition order, as [listSemantics] and [listAttributes]
    enumerate them. *)
Definition Attributes := list (string * Accessor).

Record PrimitiveTarget := mkTarget {
  targetAttributes : Attributes
}.

Record Primitive := mkPrimitive {
  indices : option (list nat);
  mode : Mode;
  attributes : Attributes;
  targets : list PrimitiveTarget
}.

(** The primitives of a document are objects, mutated in place: they are
    held in [primitiveStore], and a mesh lists references to them, which are
    positions in the store.  Two meshes can list the same primitive.  A
    primitive holds its accessors and its morph targets by value: an accessor
    is never written to, only replaced by a new one, so that sharing one makes
    no difference, and a morph target is taken to belong to one primitive. *)
Record Mesh := mkMesh { primitives : list nat }.

Record Document := mkDocument {
  primitiveStore : list Primitive;
  meshes : list Mesh
}.

(** Options with every field present ([Required<WeldOptions>]), and the
    caller's options, where a field may be absent. *)
Record WeldOptions := mkOptions {
  tolerance : number;
  overwrite : bool
}.

Record PartialWeldOptions := mkPartial {
  tolerance_opt : option number;
  overwrite_opt : option bool
}.

Module Tolerance.
Local Open Scope float_scope.
Definition DEFAULT : number := 0.0001.
Definition TEXCOORD : number := 0.0001.
Definition COLOR : number := 0.01.
Definition NORMAL : number := 0.5.
Definition JOINTS : number := 0.0.
Definition WEIGHTS : number := 0.01.
End Tolerance.

Definition WELD_DEFAULTS : WeldOptions :=
  {| tolerance := Tolerance.DEFAULT; overwrite := true |}.

(** What a call can throw. *)
Inductive Exn :=
  | ConfigError (message : string)
  | TypeError.

Inductive Result (A : Type) :=
  | Returned (a : A)
  | Thrown (e : Exn).
Arguments Returned {A} a.
Arguments Thrown {A} e.

(** ** The geometry model's accessors and helpers *)

(** Modelled from the spec: [createIndices] of [./utils] is not part of the
    sources at hand; the spec describes its result as the trivial identity
    index [[0..count)]. *)
Definition createIndices (count : nat) : list nat := seq 0 count.

(** Modelled from the spec: [Accessor.getCount] of the geometry model, the
    element count of a buffer of [elementSize] components per element. *)
Definition getCount (acc : Accessor) : nat :=
  length (array acc) / elementSize acc.

(** Modelled from the spec: [Accessor.getElement(index, target)] of the
    geometry model.  Component [i] is [array[index * elementSize + i]]; a read
    past the end of the array, or at an [undefined] index, is [undefined],
    which every later use converts to [NaN]. *)
Definition readComponent (acc : Accessor) (index : option nat) (i : nat) : number :=
  match index with
  | Some ix => nth (ix * elementSize acc + i) (array acc) nan
  | None => nan
  end.

Definition getElement (acc : Accessor) (index : option nat) : list number :=
  map (readComponent acc index) (seq 0 (elementSize acc)).

(** [getElement] into a buffer that already has entries: the first
    [elementSize] entries are overwritten, later ones keep their value. *)
Definition getElementInto (acc : Accessor) (index : option nat)
    (target : list number) : list number :=
  getElement acc index ++ drop (elementSize acc) target.

(** A store of a component into a typed array: the number is converted to
    the element type of the array.  [undefined] converts to [NaN], which an
    array of integers stores as [0] and an array of floats as [NaN]; a number
    read from an array of the same type is stored as it is. *)
Definition storeComponent (t : ArrayType) (v : number) : number :=
  match t with
  | Float32Array => Js.Math_fround v
  | Uint32Array => Js.ToUint 32 v
  | Uint16Array => Js.ToUint 16 v
  | Uint8Array => Js.ToUint 8 v
  | Int16Array => Js.ToInt 16 v
  | Int8Array => Js.ToInt 8 v
  end.

(** Modelled from the spec: [Accessor.setElement(index, value)], which writes
    [elementSize] components at [index * elementSize]; a write past the end
    is dropped. *)
Definition setElement (acc : Accessor) (index : nat) (value : list number) : Accessor :=
  {| elementSize := elementSize acc;
     arrayType := arrayType acc;
     array := fold_left
                (fun arr i =>
                   <[index * elementSize acc + i
                     := storeComponent (arrayType acc) (nth i value nan)]> arr)
                (seq 0 (elementSize acc)) (array acc) |}.

(** Modelled from the spec: [getMinNormalized] and [getMaxNormalized], the
    per-component minimum and maximum over all elements. *)
Definition componentColumn (acc : Accessor) (i : nat) : list number :=
  map (fun ix => readComponent acc (Some ix) i) (seq 0 (getCount acc)).

Definition getMinNormalized (acc : Accessor) : list number :=
  map (fun i => fold_left (fun m v => if Js.lt v m then v else m)
                  (componentColumn acc i) infinity)
      (seq 0 (elementSize acc)).

Definition getMaxNormalized (acc : Accessor) : list number :=
  map (fun i => fold_left (fun m v => if Js.gt v m then v else m)
                  (componentColumn acc i) neg_infinity)
      (seq 0 (elementSize acc)).

Definition listSemantics (attrs : Attributes) : list string := map fst attrs.
Definition listAttributes (attrs : Attributes) : list Accessor := map snd attrs.

Fixpoint getAttribute (attrs : Attributes) (semantic : string) : option Accessor :=
  match attrs with
  | [] => None
  | (s, acc) :: rest =>
      if String.eqb s semantic then Some acc else getAttribute rest semantic
  end.

(** ** Tolerance resolver *)

Definition startsWith (s p : string) : bool := String.prefix p s.

(** [getAttributeTolerance]. *)
Definition getAttributeTolerance (semantic : string) (attribute : Accessor)
    (tolerance : number) : number :=
  if String.eqb semantic "NORMAL" || String.eqb semantic "TANGENT"
  then Tolerance.NORMAL
  else if startsWith semantic "COLOR_" then Tolerance.COLOR
  else if startsWith semantic "TEXCOORD_" then Tolerance.TEXCOORD
  else if startsWith semantic "JOINTS_" then Tolerance.JOINTS
  else if startsWith semantic "WEIGHTS_" then Tolerance.WEIGHTS
  else
    let _a := getMinNormalized attribute in
    let _b := getMaxNormalized attribute in
    let range := Js.or_else (Js.Math_max_list _b - Js.Math_min_list _a)%float 1%float in
    (tolerance * range)%float.

(** The table [attributeTolerance], one entry per semantic of the primitive;
    an assignment to a semantic that is already there replaces its value. *)
Definition ToleranceTable := list (string * number).

Fixpoint tableSet (table : ToleranceTable) (semantic : string) (v : number)
    : ToleranceTable :=
  match table with
  | [] => [(semantic, v)]
  | (s, w) :: rest =>
      if String.eqb s semantic then (s, v) :: rest
      else (s, w) :: tableSet rest semantic v
  end.

(** [attributeTolerance[semantic]]; a missing entry is [undefined], which the
    comparison of [compareAttributes] converts to [NaN]. *)
Fixpoint tableGet (table : ToleranceTable) (semantic : string) : number :=
  match table with
  | [] => nan
  | (s, w) :: rest => if String.eqb s semantic then w else tableGet rest semantic
  end.

Definition attributeToleranceOf (prim : Primitive) (tolerance : number)
    : ToleranceTable :=
  fold_left
    (fun table semantic =>
       match getAttribute (attributes prim) semantic with
       | Some attribute =>
           tableSet table semantic (getAttributeTolerance semantic attribute tolerance)
       | None => table
       end)
    (listSemantics (attributes prim)) [].

(** [compareAttributes]: every component within [tolerance]. *)
Definition compareAttributes (attribute : Accessor) (a : nat) (b : option nat)
    (tolerance : number) : bool :=
  let _a := getElement attribute (Some a) in
  let _b := getElement attribute b in
  forallb
    (fun i => negb (Js.gt (Js.Math_abs (nth i _a nan - nth i _b nan)%float) tolerance))
    (seq 0 (elementSize attribute)).

(** ** Spatial grid *)

(** The key [cellX + ':' + cellY + ':' + cellZ], kept as the three numbers;
    two keys are the same string when their parts print alike. *)
Definition GridKey := (number * number * number)%type.

Definition key_eqb (k1 k2 : GridKey) : bool :=
  let '(x1, y1, z1) := k1 in
  let '(x2, y2, z2) := k2 in
  Js.same_string x1 x2 && Js.same_string y1 y2 && Js.same_string z1 z2.

(** [getGridKey]. *)
Definition getGridKey (x y z cellSize : number) : GridKey :=
  let cellX := Js.Math_fround (x * Js.Math_round (x / cellSize))%float in
  let cellY := Js.Math_fround (y * Js.Math_round (y / cellSize))%float in
  let cellZ := Js.Math_fround (z * Js.Math_round (z / cellSize))%float in
  (cellX, cellY, cellZ).

(** The loop counters [-1, 0, 1] of [getGridNeighborhoodKeys]. *)
Definition offsets : list number := [(-1)%float; 0%float; 1%float].

(** [getGridNeighborhoodKeys]: three nested loops, each key pushed at the end
    of [keys]. *)
Definition getGridNeighborhoodKeys (x y z cellSize : number) : list GridKey :=
  let hc := (cellSize / 2)%float in
  fold_left (fun keys i =>
    fold_left (fun keys j =>
      fold_left (fun keys k =>
        keys ++ [getGridKey (x + i * hc) (y + j * hc) (z + k * hc) cellSize]%float)
        offsets keys)
      offsets keys)
    offsets [].

(** The object [grid], from key to the cell's vertex indices, in insertion
    order. *)
Definition Grid := list (GridKey * list nat).

Fixpoint gridGet (grid : Grid) (key : GridKey) : option (list nat) :=
  match grid with
  | [] => None
  | (k, cell) :: rest => if key_eqb k key then Some cell else gridGet rest key
  end.

(** [grid[key] = grid[key] || []; grid[key].push(v)]. *)
Fixpoint gridPush (grid : Grid) (key : GridKey) (v : nat) : Grid :=
  match grid with
  | [] => [(key, [v])]
  | (k, cell) :: rest =>
      if key_eqb k key then (k, cell ++ [v]) :: rest
      else (k, cell) :: gridPush rest key v
  end.

(** The position of vertex [a], read into a three-entry buffer that starts
    as [[0, 0, 0]]. *)
Definition positionOf (srcPosition : Accessor) (a : nat) : number * number * number :=
  let pos := getElementInto srcPosition (Some a) [0%float; 0%float; 0%float] in
  (nth 0 pos nan, nth 1 pos nan, nth 2 pos nan).

Definition keyOf (srcPosition : Accessor) (cellSize : number) (a : nat) : GridKey :=
  let '(x, y, z) := positionOf srcPosition a in getGridKey x y z cellSize.

Definition neighborhoodOf (srcPosition : Accessor) (cellSize : number) (a : nat)
    : list GridKey :=
  let '(x, y, z) := positionOf srcPosition a in
  getGridNeighborhoodKeys x y z cellSize.

Definition buildGrid (srcPosition : Accessor) (cellSize : number)
    (uniqueIndices : list nat) : Grid :=
  fold_left (fun grid a => gridPush grid (keyOf srcPosition cellSize a) a)
    uniqueIndices [].

(** [new Set(array)] keeps each value once, in order of first insertion. *)
Fixpoint setAddAll (seen : list nat) (l : list nat) : list nat :=
  match l with
  | [] => seen
  | x :: rest =>
      setAddAll (if bool_decide (x ∈ seen) then seen else seen ++ [x]) rest
  end.

Definition uniqueIndicesOf (srcIndices : list nat) : list nat :=
  setAddAll [] srcIndices.

(** ** Weld matcher *)

(** The working state of the matching loop of [_weldPrimitive].  [accessed]
    is not a variable of the source: it records, in order, every position at
    which an element of [weldMap] or [writeMap] is read or written, so that
    statements about the bounds of these accesses can be made. *)
Record MatchState := mkState {
  weldMap : list nat;
  writeMap : list nat;
  dstVertexCount : nat;
  searchIters : nat;
  accessed : list nat
}.

(** An element store into a typed array of unsigned integers: [undefined] is
    stored as [0], and a store past the end is dropped.  The values stored
    into [weldMap], [writeMap] and the new index array are entries of these
    arrays, the counter [dstVertexCount] or [0], all below the element limit
    of the array type that [createIndices] chooses, so no store wraps. *)
Definition store (arr : list nat) (i : nat) (v : option nat) : list nat :=
  <[i := default 0 v]> arr.

(** [weldMap] and [writeMap] as [createIndices(uniqueIndices.length)] leaves
    them, and the counters at zero. *)
Definition initialState (count : nat) : MatchState :=
  {| weldMap := createIndices count;
     writeMap := createIndices count;
     dstVertexCount := 0;
     searchIters := 0;
     accessed := [] |}.

Section Matcher.
Variable prim : Primitive.
Variable attributeTolerance : ToleranceTable.
Variable srcPosition : Accessor.
Variable grid : Grid.

(** The test of the inner loop: base attributes and morph target attributes
    of [a] and [b] all match. *)
Definition isBaseMatch (a : nat) (b : option nat) : bool :=
  forallb
    (fun semantic =>
       match getAttribute (attributes prim) semantic with
       | Some attribute =>
           compareAttributes attribute a b (tableGet attributeTolerance semantic)
       | None => true
       end)
    (listSemantics (attributes prim)).

Definition isTargetMatch (a : nat) (b : option nat) : bool :=
  forallb
    (fun target =>
       forallb
         (fun semantic =>
            match getAttribute (targetAttributes target) semantic with
            | Some attribute =>
                compareAttributes attribute a b (tableGet attributeTolerance semantic)
            | None => true
            end)
         (listSemantics (targetAttributes target)))
    (targets prim).

Definition isMatch (a : nat) (b : option nat) : bool :=
  isBaseMatch a b && isTargetMatch a b.

(** [for (const j of grid[cellKey])]: the candidates of one cell, left at
    the first match by [break]. *)
Fixpoint scanCell (a : nat) (cell : list nat) (st : MatchState) : MatchState :=
  match cell with
  | [] => st
  | j :: rest =>
      let b := weldMap st !! j in
      let st1 := {| weldMap := weldMap st;
                    writeMap := writeMap st;
                    dstVertexCount := dstVertexCount st;
                    searchIters := S (searchIters st);
                    accessed := accessed st ++ [j] |} in
      if isMatch a b then
        {| weldMap := store (weldMap st1) a b;
           writeMap := writeMap st1;
           dstVertexCount := dstVertexCount st1;
           searchIters := searchIters st1;
           accessed := accessed st1 ++ [a] |}
      else scanCell a rest st1
  end.

(** [grid[cellKey]], the candidates under a key; a key without a cell has
    none, which is what [if (!grid[cellKey]) continue] amounts to. *)
Definition cellAt (cellKey : GridKey) : list nat :=
  default [] (gridGet grid cellKey).

(** [for (const cellKey of getGridNeighborhoodKeys(...))]: every key is
    visited, also after a match in an earlier cell. *)
Definition scanCells (a : nat) (keys : list GridKey) (st : MatchState) : MatchState :=
  fold_left (fun st cellKey => scanCell a (cellAt cellKey) st) keys st.

(** The end of an iteration: output the vertex when [weldMap[a] === a],
    else record the slot of the match. *)
Definition outputVertex (a : nat) (st : MatchState) : MatchState :=
  if bool_decide (weldMap st !! a = Some a) then
    {| weldMap := weldMap st;
       writeMap := store (writeMap st) a (Some (dstVertexCount st));
       dstVertexCount := S (dstVertexCount st);
       searchIters := searchIters st;
       accessed := accessed st ++ [a; a] |}
  else
    let w := weldMap st !! a in
    {| weldMap := weldMap st;
       writeMap := store (writeMap st) a (w ≫= (fun c => writeMap st !! c));
       dstVertexCount := dstVertexCount st;
       searchIters := searchIters st;
       accessed := accessed st ++ [a; a] ++ option_list w ++ [a] |}.

(** One iteration of the loop over [uniqueIndices]. *)
Definition weldVertex (cellSize : number) (st : MatchState) (a : nat) : MatchState :=
  outputVertex a (scanCells a (neighborhoodOf srcPosition cellSize a) st).

(** The loop over [uniqueIndices], from the state in which both maps are
    the identity on [uniqueIndices.length] entries. *)
Definition matchVertices (cellSize : number) (uniqueIndices : list nat) : MatchState :=
  fold_left (weldVertex cellSize) uniqueIndices
    (initialState (length uniqueIndices)).
End Matcher.

(** ** Compactor *)

(** The loop of step (3): [dstIndicesArray[i] = writeMap[srcIndices.getScalar(i)]]. *)
Definition remapIndices (writeMap : list nat) (srcIndices : list nat) : list nat :=
  map (fun ix => default 0 (writeMap !! ix)) srcIndices.

(** A typed array: its constructor and its elements. *)
Definition TypedArray := (ArrayType * list number)%type.

(** Modelled from the spec: [Accessor.getArray] and [Accessor.setArray], the
    typed array of an accessor and its replacement. *)
Definition getArray (acc : Accessor) : TypedArray := (arrayType acc, array acc).

Definition setArray (acc : Accessor) (a : TypedArray) : Accessor :=
  {| elementSize := elementSize acc; arrayType := a.1; array := a.2 |}.

(** [createArrayOfType]: a new typed array of the type of [array] and of the
    given length, filled with zeros. *)
Definition createArrayOfType (array : TypedArray) (length : nat) : TypedArray :=
  (array.1, replicate length 0%float).

(** The working state of the loop of [swapAttributes]; [reads] records the
    positions at which [reorder] is read. *)
Record SwapState := mkSwap {
  dstAttr : Accessor;
  done : list bool;
  reads : list nat
}.

(** One iteration: [if (!done[reorder[i]])], the element [i] of [srcAttr] is
    written at [reorder[i]] and the slot is marked.  A slot past the end of
    [done] reads as [undefined], so it counts as not done, and the two
    writes are dropped. *)
Definition swapStep (srcAttr : Accessor) (reorder : list nat) (st : SwapState)
    (i : nat) : SwapState :=
  let r := default 0 (reorder !! i) in
  if negb (default false (done st !! r)) then
    {| dstAttr := setElement (dstAttr st) r (getElement srcAttr (Some i));
       done := <[r := true]> (done st);
       reads := reads st ++ [i; i; i] |}
  else
    {| dstAttr := dstAttr st; done := done st; reads := reads st ++ [i] |}.

Definition swapLoop (srcAttr : Accessor) (reorder : list nat) (dstCount : nat)
    : SwapState :=
  fold_left (swapStep srcAttr reorder) (seq 0 (length reorder))
    {| dstAttr := setArray srcAttr
                    (createArrayOfType (getArray srcAttr)
                       (dstCount * elementSize srcAttr));
       done := replicate dstCount false;
       reads := [] |}.

(** [swapAttributes]: the attribute that replaces [srcAttr] in its parent.
    The replaced accessor is disposed of when the parent was its only owner;
    ownership is not part of the values of this model. *)
Definition swapAttributes (srcAttr : Accessor) (reorder : list nat) (dstCount : nat)
    : Accessor :=
  dstAttr (swapLoop srcAttr reorder dstCount).

(** [for (const srcAttr of parent.listAttributes()) swapAttributes(...)]. *)
Definition swapAll (attrs : Attributes) (reorder : list nat) (dstCount : nat)
    : Attributes :=
  map (fun '(semantic, srcAttr) => (semantic, swapAttributes srcAttr reorder dstCount))
    attrs.

(** ** Welding one primitive *)

(** What steps (1) and (2) of [_weldPrimitive] compute. *)
Record WeldRun := mkRun {
  srcIndices : list nat;
  uniqueIndices : list nat;
  attributeTolerance : ToleranceTable;
  cellSize : number;
  grid : Grid;
  srcVertexCount : nat;
  matched : MatchState
}.

(** Steps (1) and (2).  Without a [POSITION] attribute [srcPosition] is
    [null], and [srcPosition.getCount()] throws before anything is replaced. *)
Definition weldRun (prim : Primitive) (options : WeldOptions) : option WeldRun :=
  match getAttribute (attributes prim) "POSITION" with
  | None => None
  | Some srcPosition =>
      let srcIndices :=
        match indices prim with
        | Some ix => ix
        | None => createIndices (getCount srcPosition)
        end in
      let uniqueIndices := uniqueIndicesOf srcIndices in
      let tolerance := Js.Math_max (tolerance options) Js.EPSILON in
      let attributeTolerance := attributeToleranceOf prim tolerance in
      let cellSize := tableGet attributeTolerance "POSITION" in
      let grid := buildGrid srcPosition cellSize uniqueIndices in
      Some {| srcIndices := srcIndices;
              uniqueIndices := uniqueIndices;
              attributeTolerance := attributeTolerance;
              cellSize := cellSize;
              grid := grid;
              srcVertexCount := getCount srcPosition;
              matched := matchVertices prim attributeTolerance srcPosition grid
                           cellSize uniqueIndices |}
  end.

(** Steps (3) and (4): the index buffer and every attribute are replaced. *)
Definition compact (prim : Primitive) (run : WeldRun) : Primitive :=
  let reorder := writeMap (matched run) in
  let dstCount := dstVertexCount (matched run) in
  {| indices := Some (remapIndices reorder (srcIndices run));
     mode := mode prim;
     attributes := swapAll (attributes prim) reorder dstCount;
     targets := map (fun target =>
                       {| targetAttributes :=
                            swapAll (targetAttributes target) reorder dstCount |})
                    (targets prim) |}.

Definition _weldPrimitive (prim : Primitive) (options : WeldOptions)
    : Result Primitive :=
  match weldRun prim options with
  | None => Thrown TypeError
  | Some run => Returned (compact prim run)
  end.

(** [_indexPrimitive]: adds indices, if missing.  On a primitive without
    attributes [attr] is [undefined] and [attr.getCount()] throws. *)
Definition _indexPrimitive (prim : Primitive) : Result Primitive :=
  match indices prim with
  | Some _ => Returned prim
  | None =>
      match listAttributes (attributes prim) with
      | [] => Thrown TypeError
      | attr :: _ =>
          let numVertices := getCount attr in
          Returned {| indices := Some (createIndices numVertices);
                      mode := mode prim;
                      attributes := attributes prim;
                      targets := targets prim |}
      end
  end.

(** [weldPrimitive]. *)
Definition weldPrimitive (prim : Primitive) (options : WeldOptions)
    : Result Primitive :=
  if bool_decide (is_Some (indices prim)) && negb (overwrite options) then Returned prim
  else if Mode_eqb (mode prim) POINTS then Returned prim
  else if (tolerance options =? 0)%float then _indexPrimitive prim
  else _weldPrimitive prim options.

(** ** Welding a document *)

Definition NAME : string := "weld".

(** [{ ...WELD_DEFAULTS, ..._options }]. *)
Definition withDefaults (_options : PartialWeldOptions) : WeldOptions :=
  {| tolerance := default (tolerance WELD_DEFAULTS) (tolerance_opt _options);
     overwrite := default (overwrite WELD_DEFAULTS) (overwrite_opt _options) |}.

(** A transform runs on a document and leaves it in a new state; it may end
    by throwing. *)
Definition Transform := Document -> Document * option Exn.

(** [for (const prim of mesh.listPrimitives()) weldPrimitive(doc, prim, options)]:
    the primitives that a mesh lists are welded in place, one after the
    other, each as the calls before left it; a throw ends the loop and leaves
    the store as it is.  A reference names a primitive of the document; the
    case of one that does not only makes the function total. *)
Fixpoint weldPrimitives (store : list Primitive) (refs : list nat)
    (options : WeldOptions) : list Primitive * option Exn :=
  match refs with
  | [] => (store, None)
  | ref :: rest =>
      match store !! ref with
      | None => weldPrimitives store rest options
      | Some prim =>
          match weldPrimitive prim options with
          | Thrown e => (store, Some e)
          | Returned prim' => weldPrimitives (<[ref := prim']> store) rest options
          end
      end
  end.

(** [for (const mesh of doc.getRoot().listMeshes())]. *)
Fixpoint weldMeshes (store : list Primitive) (ms : list Mesh)
    (options : WeldOptions) : list Primitive * option Exn :=
  match ms with
  | [] => (store, None)
  | mesh :: rest =>
      match weldPrimitives store (primitives mesh) options with
      | (store', Some e) => (store', Some e)
      | (store', None) => weldMeshes store' rest options
      end
  end.

Section Orchestrator.
(** The [dedup] transform on accessors and the outcome of
    [isTransformPending(context, NAME, 'dedup')] come from outside this
    file. *)
Variable dedup : Document -> Document.
Variable dedupPending : bool.

(** [weld]: the options are checked before the transform is created. *)
Definition weld (_options : PartialWeldOptions) : Result Transform :=
  let options := withDefaults _options in
  if Js.gt (tolerance options) 0.1%float || Js.lt (tolerance options) 0%float
  then Thrown (ConfigError (NAME ++ ": Requires 0 ≤ tolerance ≤ 0.1"))
  else Returned (fun doc =>
    match weldMeshes (primitiveStore doc) (meshes doc) options with
    | (store, Some e) => ({| primitiveStore := store; meshes := meshes doc |}, Some e)
    | (store, None) =>
        let doc' := {| primitiveStore := store; meshes := meshes doc |} in
        (if dedupPending then doc' else dedup doc', None)
    end).

(** A caller's [document.transform(weld(options))]: the document afterwards
    and what was thrown, if anything. *)
Definition transformWith (_options : PartialWeldOptions) (doc : Document)
    : Document * option Exn :=
  match weld _options with
  | Thrown e => (doc, Some e)
  | Returned transform => transform doc
  end.
End Orchestrator.

(** * Notions used in the statements *)

(** The values of [l], each kept at its first occurrence: order of first
    occurrence, written without an accumulator. *)
Fixpoint firstOccurrences (l : list nat) : list nat :=
  match l with
  | [] => []
  | x :: rest => x :: filter (fun y => y <> x) (firstOccurrences rest)
  end.

(** The distinct index values are exactly [0, ..., uniqueCount - 1]. *)
Definition dense (uniqueIndices : list nat) : Prop :=
  forall k, k ∈ uniqueIndices <-> k < length uniqueIndices.

(** Two components differ as [compareAttributes] measures it at the
    tolerance of [JOINTS_*]: the absolute difference exceeds [0]. *)
Definition differ (x y : number) : bool :=
  Js.gt (Js.Math_abs (x - y)%float) Tolerance.JOINTS.

(** The number that holds an unsigned integer component. *)
Definition ofNat (n : nat) : number := of_uint63 (Uint63.of_Z (Z.of_nat n)).

(** Every vertex index in every cell of a grid satisfies [P]. *)
Definition cellsAll (P : nat -> Prop) (g : Grid) : Prop :=
  Forall (fun kc => Forall P kc.2) g.

(** Both maps have [u] entries. *)
Definition sized (u : nat) (st : MatchState) : Prop :=
  length (weldMap st) = u /\ length (writeMap st) = u.

(** What the matching loop maintains when every vertex index it meets is
    below [u]: the entries of [weldMap] are below [u], an entry other than the
    identity was stored after a successful comparison, and no access left
    the arrays. *)
Record sound (prim : Primitive) (table : ToleranceTable) (u : nat)
    (st : MatchState) : Prop := mkSound {
  sound_sized : sized u st;
  sound_range : forall v b, weldMap st !! v = Some b -> b < u;
  sound_match : forall v b, weldMap st !! v = Some b ->
                  b = v \/ isMatch prim table v (Some b) = true;
  sound_accessed : Forall (fun p => p < u) (accessed st)
}.

(** [b] comes before [v] in the order in which the matcher takes the
    vertices. *)
Definition processedBefore (order : list nat) (b v : nat) : Prop :=
  exists i j, i < j /\ order !! i = Some b /\ order !! j = Some v.

(** What is claimed of [weldMap] at the end of a pass: every entry is the
    vertex itself or a vertex taken before it, an entry is its own entry, and
    the vertices are taken in ascending order. *)
Definition entriesComeEarlier (run : WeldRun) : Prop :=
  forall v, v ∈ uniqueIndices run ->
    exists b, weldMap (matched run) !! v = Some b /\
      (b = v \/ processedBefore (uniqueIndices run) b v).

Definition entriesAreFixed (run : WeldRun) : Prop :=
  forall v b, v ∈ uniqueIndices run ->
    weldMap (matched run) !! v = Some b -> weldMap (matched run) !! b = Some b.

Definition takenAscending (run : WeldRun) : Prop :=
  forall i j a b, i < j ->
    uniqueIndices run !! i = Some a -> uniqueIndices run !! j = Some b -> a < b.

(** The candidates of vertex [a] in the order in which the loops of the
    matcher enumerate them: the cells of its 27 keys, one after the other. *)
Definition candidatesOf (grid : Grid) (keys : list GridKey) : list nat :=
  flat_map (cellAt grid) keys.

(** The first candidate whose canonical vertex matches [a], with the number
    of comparisons made up to it. *)
Fixpoint firstMatch (prim : Primitive) (table : ToleranceTable)
    (weldMap : list nat) (a : nat) (candidates : list nat) (iters : nat)
    : option (nat * option nat * nat) :=
  match candidates with
  | [] => None
  | j :: rest =>
      if isMatch prim table a (weldMap !! j)
      then Some (j, weldMap !! j, S iters)
      else firstMatch prim table weldMap a rest (S iters)
  end.

(** A rank in a lexicographic order that [SFcompare] follows on numbers other
    than [NaN]: class and sign first, then the exponent, then the mantissa,
    the last two negated for negative numbers. *)
Definition rank (f : spec_float) : Z * Z * Z :=
  match f with
  | S754_infinity true => (-2, 0, 0)
  | S754_finite true m e => (-1, - e, - Z.pos m)
  | S754_zero _ => (0, 0, 0)
  | S754_nan => (0, 0, 0)
  | S754_finite false m e => (1, e, Z.pos m)
  | S754_infinity false => (2, 0, 0)
  end%Z.

Definition rankLt (r1 r2 : Z * Z * Z) : Prop :=
  let '(c1, e1, m1) := r1 in
  let '(c2, e2, m2) := r2 in
  (c1 < c2 \/ (c1 = c2 /\ (e1 < e2 \/ (e1 = e2 /\ m1 < m2))))%Z.

(** ** Example primitives *)

Definition vec3 (l : list (number * number * number)) : Accessor :=
  {| elementSize := 3;
     arrayType := Float32Array;
     array := flat_map (fun '(x, y, z) => [x; y; z]) l |}.

(** Four unsigned bytes per element, as [JOINTS_*] attributes have them. *)
Definition bytes4 (l : list (number * number * number * number)) : Accessor :=
  {| elementSize := 4;
     arrayType := Uint8Array;
     array := flat_map (fun '(x, y, z, w) => [x; y; z; w]) l |}.

Definition optionsAt (t : number) : WeldOptions :=
  {| tolerance := t; overwrite := true |}.

(** One line segment whose end points lie half a cell apart at tolerance
    [1/32]: the positions span [0 .. 2], so the cell size is [1/16]. *)
Definition segment : Primitive :=
  {| indices := None;
     mode := LINES;
     attributes := [("POSITION"%string, vec3 [(1, 0, 2); (1.03125, 0, 2)]%float)];
     targets := [] |}.

(** The same segment with its end points in the other order. *)
Definition reversed : Primitive :=
  {| indices := None;
     mode := LINES;
     attributes := [("POSITION"%string, vec3 [(1.03125, 0, 2); (1, 0, 2)]%float)];
     targets := [] |}.

(** Two line segments; the first three vertices lie half a cell apart from
    one another at tolerance [1/32]. *)
Definition chain : Primitive :=
  {| indices := None;
     mode := LINES;
     attributes :=
       [("POSITION"%string,
         vec3 [(1, 0, 0); (1.03125, 0, 0); (1.0625, 0, 0); (2, 0, 0)]%float)];
     targets := [] |}.

(** A triangle whose index buffer names its vertices as [2, 0, 1]. *)
Definition turned : Primitive :=
  {| indices := Some [2; 0; 1];
     mode := TRIANGLES;
     attributes := [("POSITION"%string, vec3 [(0, 0, 0); (1, 0, 0); (0, 1, 0)]%float)];
     targets := [] |}.

(** A triangle over vertices [0], [5] and [7] of eight: three distinct index
    values, two of them not below three. *)
Definition sparse : Primitive :=
  {| indices := Some [0; 5; 7];
     mode := TRIANGLES;
     attributes :=
       [("POSITION"%string,
         vec3 [(0, 0, 0); (1, 0, 0); (2, 0, 0); (3, 0, 0);
               (4, 0, 0); (5, 0, 0); (6, 0, 0); (7, 0, 0)]%float)];
     targets := [] |}.

(** A triangle without indices. *)
Definition triangle : Primitive :=
  {| indices := None;
     mode := TRIANGLES;
     attributes := [("POSITION"%string, vec3 [(0, 0, 0); (1, 0, 0); (0, 1, 0)]%float)];
     targets := [] |}.

(** Three points. *)
Definition cloud : Primitive :=
  {| indices := None;
     mode := POINTS;
     attributes := [("POSITION"%string, vec3 [(0, 0, 0); (0, 0, 0); (0, 1, 0)]%float)];
     targets := [] |}.

(** Two triangles with a common edge, as six vertices without indices; the
    two vertices of the common edge occur twice, bit for bit. *)
Definition quad : Primitive :=
  {| indices := None;
     mode := TRIANGLES;
     attributes :=
       [("POSITION"%string,
         vec3 [(0, 0, 0); (1, 0, 0); (1, 1, 0);
               (0, 0, 0); (1, 1, 0); (0, 1, 0)]%float)];
     targets := [] |}.

(** Two vertices at one position whose normals differ by [0.625]. *)
Definition creased : Primitive :=
  {| indices := None;
     mode := LINES;
     attributes :=
       [("POSITION"%string, vec3 [(1, 0, 2); (1, 0, 2)]%float);
        ("NORMAL"%string, vec3 [(0, 0, 0.25); (0, 0, 0.875)]%float)];
     targets := [] |}.

(** A skinned segment: both ends at one position, bound to different joints. *)
Definition skinned : Primitive :=
  {| indices := None;
     mode := LINES;
     attributes :=
       [("POSITION"%string, vec3 [(1, 0, 2); (1, 0, 2)]%float);
        ("JOINTS_0"%string, bytes4 [(3, 0, 0, 0); (4, 0, 0, 0)]%float)];
     targets := [] |}.

(** A skinned triangle: vertices [0] and [1] lie half a cell apart at
    tolerance [1/32] and are bound to joint [3]; vertex [2] lies on vertex
    [0] and is bound to joint [4]. *)
Definition skinned3 : Primitive :=
  {| indices := None;
     mode := TRIANGLES;
     attributes :=
       [("POSITION"%string, vec3 [(1, 0, 2); (1.03125, 0, 2); (1, 0, 2)]%float);
        ("JOINTS_0"%string, bytes4 [(3, 0, 0, 0); (3, 0, 0, 0); (4, 0, 0, 0)]%float)];
     targets := [] |}.

(** A skinned triangle over vertices [0], [5] and [1] of six; vertices [1]
    and [5] lie on one another, and the three are bound to different
    joints. *)
Definition sparseSkinned : Primitive :=
  {| indices := Some [0; 5; 1];
     mode := TRIANGLES;
     attributes :=
       [("POSITION"%string,
         vec3 [(0, 0, 0); (1, 0, 0); (2, 0, 0); (3, 0, 0); (4, 0, 0); (1, 0, 0)]%float);
        ("JOINTS_0"%string,
         bytes4 [(3, 0, 0, 0); (4, 0, 0, 0); (0, 0, 0, 0); (0, 0, 0, 0);
                 (0, 0, 0, 0); (5, 0, 0, 0)]%float)];
     targets := [] |}.

(** Reduction is kept away from the bodies of the loops. *)
#[global] Arguments isMatch : simpl never.
#[global] Arguments weldVertex : simpl never.
#[global] Arguments outputVertex : simpl never.
#[global] Arguments neighborhoodOf : simpl never.
#[global] Arguments getGridKey : simpl never.
#[global] Arguments compareAttributes : simpl never.
#[global] Arguments Js.Math_round : simpl never.
#[global] Arguments Js.Math_fround : simpl never.

(** * Notions used in the further properties *)

(** The slots that [writeMap] holds for the vertices of [l] that are their
    own entry of [weldMap], in the order of [l]. *)
Definition slotsOf (st : MatchState) (l : list nat) : list (option nat) :=
  (fun v => writeMap st !! v) <$> filter (fun v => weldMap st !! v = Some v) l.

(** Every vertex of [l] has an entry of [weldMap] that is a vertex of [l],
    shares the slot of that entry, and the slot is below the counter. *)
Definition slotsAgree (st : MatchState) (l : list nat) : Prop :=
  forall v, v ∈ l ->
    exists b s, weldMap st !! v = Some b /\ b ∈ l /\
      writeMap st !! v = Some s /\ writeMap st !! b = Some s /\
      s < dstVertexCount st.

(** A number other than [NaN], [Infinity] and [-Infinity]. *)
Definition finite (x : number) : bool := (abs x <? infinity)%float.

(** Every vertex of every cell of a grid has the key of its cell. *)
Definition cellsKeyed (srcPosition : Accessor) (cellSize : number) (g : Grid) : Prop :=
  Forall (fun kc => Forall (fun a => key_eqb kc.1 (keyOf srcPosition cellSize a) = true)
                      kc.2) g.

(** Element [i] of an accessor as an array of its type stores it: the
    element itself when the array holds it, and an element past the end,
    all [undefined], as [0] in an array of integers and as [NaN] in an array
    of floats. *)
Definition storedElement (acc : Accessor) (i : nat) : list number :=
  storeComponent (arrayType acc) <$> getElement acc (Some i).

(** The array of the accessor holds numbers of its type, the numbers that a
    store into an array of this type leaves as they are. *)
Definition wellTyped (acc : Accessor) : Prop :=
  Forall (fun v => storeComponent (arrayType acc) v = v) (array acc).

(** What an array of the type holds where [undefined] was stored. *)
Definition storedUndefined (t : ArrayType) : number :=
  match t with
  | Float32Array => nan
  | _ => 0%float
  end.

(** The least position below [k] at which [reorder] holds [r], if any. *)
Fixpoint firstAt (reorder : list nat) (r : nat) (k : nat) : option nat :=
  match k with
  | 0 => None
  | S k' =>
      match firstAt reorder r k' with
      | Some i => Some i
      | None => if bool_decide (reorder !! k' = Some r) then Some k' else None
      end
  end.

(** [weldPrimitive] called [n] times on one primitive, each call on what
    the call before left. *)
Fixpoint weldTimes (options : WeldOptions) (n : nat) (prim : Primitive)
    : Result Primitive :=
  match n with
  | 0 => Returned prim
  | S n' =>
      match weldPrimitive prim options with
      | Thrown e => Thrown e
      | Returned prim' => weldTimes options n' prim'
      end
  end.

(** The references that the loops of the transform visit, in order. *)
Definition visited (doc : Document) : list nat :=
  concat (primitives <$> meshes doc).

(** The store [store'] is [store] after the visits [refs]: every primitive
    has been welded once for every visit to it, and no other primitive has
    come or gone. *)
Definition weldedPerVisit (options : WeldOptions) (refs : list nat)
    (store store' : list Primitive) : Prop :=
  length store' = length store
  /\ forall ref prim, store !! ref = Some prim ->
       exists prim',
         weldTimes options (count_occ Nat.eq_dec refs ref) prim = Returned prim'
         /\ store' !! ref = Some prim'.

(** The semantics whose threshold [getAttributeTolerance] takes from the
    table of constants. *)
Definition hasFixedTolerance (semantic : string) : bool :=
  String.eqb semantic "NORMAL" || String.eqb semantic "TANGENT"
  || startsWith semantic "COLOR_" || startsWith semantic "TEXCOORD_"
  || startsWith semantic "JOINTS_" || startsWith semantic "WEIGHTS_".

(** The options with another tolerance. *)
Definition withTolerance (options : WeldOptions) (t : number) : WeldOptions :=
  {| tolerance := t; overwrite := overwrite options |}.

(** * The anisotropy extension *)

(** The extension [MaterialsAnisotropy] and its property [Anisotropy].
    Textures, their settings and the reader and writer contexts belong to
    the core library; they are kept abstract, as are [MathUtils.eq] and the
    constructor of [TextureInfo]. *)
Module MaterialsAnisotropy.
Section Extension.
Variable Texture : Type.
Variable TextureInfo : Type.
Variable TextureInfoDef : Type.
(** [new TextureInfo(graph, name)]. *)
Variable newTextureInfo : string -> TextureInfo.
(** [MathUtils.eq(a, b)]. *)
Variable MathUtils_eq : list number -> list number -> bool.
(** [context.createTextureInfoDef(texture, textureInfo)]. *)
Variable createTextureInfoDef : Texture -> TextureInfo -> TextureInfoDef.
(** [context.textures[textureDefs[textureInfoDef.index].source]]. *)
Variable textureOf : TextureInfoDef -> Texture.
(** [context.setTextureInfo(textureInfo, textureInfoDef)], which fills in
    the settings object it is given. *)
Variable setTextureInfo : TextureInfo -> TextureInfoDef -> TextureInfo.

(** The attributes of an [Anisotropy] property, interface [IAnisotropy]. *)
Record Anisotropy := mkAnisotropy {
  anisotropyFactor : number;
  anisotropyTexture : option Texture;
  anisotropyTextureInfo : TextureInfo;
  anisotropyDirectionFactor : list number;
  anisotropyDirectionTexture : option Texture;
  anisotropyDirectionTextureInfo : TextureInfo
}.

(** [getDefaults]. *)
Definition getDefaults : Anisotropy :=
  {| anisotropyFactor := 0.0;
     anisotropyTexture := None;
     anisotropyTextureInfo := newTextureInfo "anisotropyTextureInfo";
     anisotropyDirectionFactor := [1; 0; 0]%float;
     anisotropyDirectionTexture := None;
     anisotropyDirectionTextureInfo := newTextureInfo "anisotropyDirectionTextureInfo" |}.

Definition getAnisotropyFactor (a : Anisotropy) : number := anisotropyFactor a.

Definition setAnisotropyFactor (a : Anisotropy) (factor : number) : Anisotropy :=
  {| anisotropyFactor := factor;
     anisotropyTexture := anisotropyTexture a;
     anisotropyTextureInfo := anisotropyTextureInfo a;
     anisotropyDirectionFactor := anisotropyDirectionFactor a;
     anisotropyDirectionTexture := anisotropyDirectionTexture a;
     anisotropyDirectionTextureInfo := anisotropyDirectionTextureInfo a |}.

Definition getAnisotropyTexture (a : Anisotropy) : option Texture :=
  anisotropyTexture a.

(** The settings of the texture, [null] when no texture is attached. *)
Definition getAnisotropyTextureInfo (a : Anisotropy) : option TextureInfo :=
  match anisotropyTexture a with
  | Some _ => Some (anisotropyTextureInfo a)
  | None => None
  end.

Definition setAnisotropyTexture (a : Anisotropy) (texture : option Texture)
    : Anisotropy :=
  {| anisotropyFactor := anisotropyFactor a;
     anisotropyTexture := texture;
     anisotropyTextureInfo := anisotropyTextureInfo a;
     anisotropyDirectionFactor := anisotropyDirectionFactor a;
     anisotropyDirectionTexture := anisotropyDirectionTexture a;
     anisotropyDirectionTextureInfo := anisotropyDirectionTextureInfo a |}.

Definition getAnisotropyDirectionFactor (a : Anisotropy) : list number :=
  anisotropyDirectionFactor a.

Definition setAnisotropyDirectionFactor (a : Anisotropy) (factor : list number)
    : Anisotropy :=
  {| anisotropyFactor := anisotropyFactor a;
     anisotropyTexture := anisotropyTexture a;
     anisotropyTextureInfo := anisotropyTextureInfo a;
     anisotropyDirectionFactor := factor;
     anisotropyDirectionTexture := anisotropyDirectionTexture a;
     anisotropyDirectionTextureInfo := anisotropyDirectionTextureInfo a |}.

Definition getAnisotropyDirectionTexture (a : Anisotropy) : option Texture :=
  anisotropyDirectionTexture a.

Definition getAnisotropyDirectionTextureInfo (a : Anisotropy) : option TextureInfo :=
  match anisotropyDirectionTexture a with
  | Some _ => Some (anisotropyDirectionTextureInfo a)
  | None => None
  end.

Definition setAnisotropyDirectionTexture (a : Anisotropy) (texture : option Texture)
    : Anisotropy :=
  {| anisotropyFactor := anisotropyFactor a;
     anisotropyTexture := anisotropyTexture a;
     anisotropyTextureInfo := anisotropyTextureInfo a;
     anisotropyDirectionFactor := anisotropyDirectionFactor a;
     anisotropyDirectionTexture := texture;
     anisotropyDirectionTextureInfo := anisotropyDirectionTextureInfo a |}.

(** The settings object of a texture, written through
    [context.setTextureInfo]. *)
Definition putAnisotropyTextureInfo (a : Anisotropy) (info : TextureInfo)
    : Anisotropy :=
  {| anisotropyFactor := anisotropyFactor a;
     anisotropyTexture := anisotropyTexture a;
     anisotropyTextureInfo := info;
     anisotropyDirectionFactor := anisotropyDirectionFactor a;
     anisotropyDirectionTexture := anisotropyDirectionTexture a;
     anisotropyDirectionTextureInfo := anisotropyDirectionTextureInfo a |}.

Definition putAnisotropyDirectionTextureInfo (a : Anisotropy) (info : TextureInfo)
    : Anisotropy :=
  {| anisotropyFactor := anisotropyFactor a;
     anisotropyTexture := anisotropyTexture a;
     anisotropyTextureInfo := anisotropyTextureInfo a;
     anisotropyDirectionFactor := anisotropyDirectionFactor a;
     anisotropyDirectionTexture := anisotropyDirectionTexture a;
     anisotropyDirectionTextureInfo := info |}.

(** The JSON object of the extension on a material, interface
    [AnisotropyDef]; a property that is not set is [undefined]. *)
Record AnisotropyDef := mkAnisotropyDef {
  def_anisotropyFactor : option number;
  def_anisotropyTexture : option TextureInfoDef;
  def_anisotropyDirectionFactor : option (list number);
  def_anisotropyDirectionTexture : option TextureInfoDef
}.

(** [createAnisotropy]. *)
Definition createAnisotropy : Anisotropy := getDefaults.

(** The body of [read] for a material whose definition has the extension. *)
Definition readDef (anisotropyDef : AnisotropyDef) : Anisotropy :=
  let anisotropy := createAnisotropy in
  let anisotropy :=
    match def_anisotropyFactor anisotropyDef with
    | Some factor => setAnisotropyFactor anisotropy factor
    | None => anisotropy
    end in
  let anisotropy :=
    match def_anisotropyDirectionFactor anisotropyDef with
    | Some factor => setAnisotropyDirectionFactor anisotropy factor
    | None => anisotropy
    end in
  let anisotropy :=
    match def_anisotropyTexture anisotropyDef with
    | Some textureInfoDef =>
        let texture := textureOf textureInfoDef in
        let anisotropy := setAnisotropyTexture anisotropy (Some texture) in
        putAnisotropyTextureInfo anisotropy
          (setTextureInfo (anisotropyTextureInfo anisotropy) textureInfoDef)
    | None => anisotropy
    end in
  match def_anisotropyDirectionTexture anisotropyDef with
  | Some textureInfoDef =>
      let texture := textureOf textureInfoDef in
      let anisotropy := setAnisotropyDirectionTexture anisotropy (Some texture) in
      putAnisotropyDirectionTextureInfo anisotropy
        (setTextureInfo (anisotropyDirectionTextureInfo anisotropy) textureInfoDef)
  | None => anisotropy
  end.

(** [read]: every material definition that has the extension gets a new
    property. *)
Definition read (materialDefs : list (option AnisotropyDef)) : list (option Anisotropy) :=
  map (option_map readDef) materialDefs.

(** The body of [write] for a material that has the extension.  Both tests
    on the factors assign [anisotropyFactor]. *)
Definition writeDef (anisotropy : Anisotropy) : AnisotropyDef :=
  let anisotropyDef :=
    {| def_anisotropyFactor := None;
       def_anisotropyTexture := None;
       def_anisotropyDirectionFactor := None;
       def_anisotropyDirectionTexture := None |} in
  let anisotropyDef :=
    if Js.gt (getAnisotropyFactor anisotropy) 0
    then {| def_anisotropyFactor := Some (getAnisotropyFactor anisotropy);
            def_anisotropyTexture := def_anisotropyTexture anisotropyDef;
            def_anisotropyDirectionFactor := def_anisotropyDirectionFactor anisotropyDef;
            def_anisotropyDirectionTexture := def_anisotropyDirectionTexture anisotropyDef |}
    else anisotropyDef in
  let anisotropyDef :=
    if negb (MathUtils_eq (getAnisotropyDirectionFactor anisotropy) [1; 0; 0]%float)
    then {| def_anisotropyFactor := Some (getAnisotropyFactor anisotropy);
            def_anisotropyTexture := def_anisotropyTexture anisotropyDef;
            def_anisotropyDirectionFactor := def_anisotropyDirectionFactor anisotropyDef;
            def_anisotropyDirectionTexture := def_anisotropyDirectionTexture anisotropyDef |}
    else anisotropyDef in
  let anisotropyDef :=
    match getAnisotropyTexture anisotropy, getAnisotropyTextureInfo anisotropy with
    | Some texture, Some textureInfo =>
        {| def_anisotropyFactor := def_anisotropyFactor anisotropyDef;
           def_anisotropyTexture := Some (createTextureInfoDef texture textureInfo);
           def_anisotropyDirectionFactor := def_anisotropyDirectionFactor anisotropyDef;
           def_anisotropyDirectionTexture := def_anisotropyDirectionTexture anisotropyDef |}
    | _, _ => anisotropyDef
    end in
  match getAnisotropyDirectionTexture anisotropy,
        getAnisotropyDirectionTextureInfo anisotropy with
  | Some texture, Some textureInfo =>
      {| def_anisotropyFactor := def_anisotropyFactor anisotropyDef;
         def_anisotropyTexture := def_anisotropyTexture anisotropyDef;
         def_anisotropyDirectionFactor := def_anisotropyDirectionFactor anisotropyDef;
         def_anisotropyDirectionTexture := Some (createTextureInfoDef texture textureInfo) |}
  | _, _ => anisotropyDef
  end.

(** [write]: every material that has the extension gets its definition. *)
Definition write (materials : list (option Anisotropy)) : list (option AnisotropyDef) :=
  map (option_map writeDef) materials.
End Extension.
End MaterialsAnisotropy.


(** * Properties *)

(** ** The number model on known values *)

(** [Math.round] rounds ties towards +∞ and keeps the sign of zero. *)
Example Math_round_values :
  map Js.Math_round [0.5; -0.5; 1.5; 2.5; -1.5; -2.5; 16.5; 0.49999999999999994; -0.2]%float
  = [1; -0; 2; 3; -1; -2; 17; 0; -0]%float.
Proof. vm_compute. reflexivity. Qed.

(** [Math.fround] rounds to the nearest binary32 value, ties to even, and
    overflows to infinity. *)
Example Math_fround_values :
  map Js.Math_fround [0.1; 16777217; 17.53125; 1e40; 1e-46]%float
  = [0.10000000149011612; 16777216; 17.53125; infinity; 0]%float.
Proof. vm_compute. reflexivity. Qed.

(** The conversions to integers drop the fraction and wrap around; [NaN]
    and the infinities become [0]. *)
Example ToUint_values :
  map (Js.ToUint 8) [nan; 3; 255; 256; 300; -1; 3.75; -0.5; infinity]%float
  = [0; 3; 255; 0; 44; 255; 3; 0; 0]%float.
Proof. vm_compute. reflexivity. Qed.

Example ToInt_values :
  map (Js.ToInt 8) [nan; 127; 128; 200; -128; -129; -3.75; neg_infinity]%float
  = [0; 127; -128; -56; -128; 127; -3; 0]%float.
Proof. vm_compute. reflexivity. Qed.

(** [-0] and [0] print alike, and so do any two [NaN]; [1] and [-1] do not. *)
Example same_string_values :
  map (fun '(x, y) => Js.same_string x y)
    [(neg_zero, zero); (nan, (0 / 0)%float); (1, -1)%float; (0.1, 0.1)%float]
  = [true; true; false; true].
Proof. vm_compute. reflexivity. Qed.

(** ** The order of numbers *)

Lemma SFltb_rank (x y : spec_float) :
  SFltb x y = true <-> x <> S754_nan /\ y <> S754_nan /\ rankLt (rank x) (rank y).
Proof.
  unfold SFltb, SFcompare, rankLt, rank.
  destruct x as [sx|sx| |sx mx ex], y as [sy|sy| |sy my ey];
    try destruct sx; try destruct sy; simpl;
    try (split; [discriminate|intros (?&?&?); try congruence; lia]);
    try (split; [intros _; repeat split; try discriminate; lia|done]).
  - destruct (Z.compare_spec ex ey) as [->|Hlt|Hgt].
    + change (Pos.compare_cont Eq mx my) with (Pos.compare mx my).
      destruct (Pos.compare_spec mx my) as [->|Hm|Hm]; simpl;
        (split; [try discriminate; intros _; repeat split; try discriminate; lia
                |try done; intros (_&_&?); lia]).
    + split; [discriminate|intros (_&_&?); lia].
    + split; [intros _; repeat split; try discriminate; lia|done].
  - destruct (Z.compare_spec ex ey) as [->|Hlt|Hgt].
    + change (Pos.compare_cont Eq mx my) with (Pos.compare mx my).
      destruct (Pos.compare_spec mx my) as [->|Hm|Hm]; simpl;
        (split; [try discriminate; intros _; repeat split; try discriminate; lia
                |try done; intros (_&_&?); lia]).
    + split; [intros _; repeat split; try discriminate; lia|done].
    + split; [discriminate|intros (_&_&?); lia].
Qed.

Ltac rank_true :=
  intros _; repeat split; try discriminate;
  first [ right; reflexivity | left; lia | lia ].

Ltac rank_false :=
  let H := fresh in
  intros (? & ? & H); try congruence;
  first [ lia | destruct H as [H|H]; [lia | try (injection H; intros); lia ] ].

Ltac rank_cases := split; [first [discriminate | rank_true] | first [done | rank_false]].

Lemma SFleb_rank (x y : spec_float) :
  SFleb x y = true <->
  x <> S754_nan /\ y <> S754_nan /\ (rankLt (rank x) (rank y) \/ rank x = rank y).
Proof.
  unfold SFleb, SFcompare, rankLt, rank.
  destruct x as [sx|sx| |sx mx ex], y as [sy|sy| |sy my ey];
    try destruct sx; try destruct sy; simpl; try rank_cases.
  - destruct (Z.compare_spec ex ey) as [->|Hlt|Hgt].
    + change (Pos.compare_cont Eq mx my) with (Pos.compare mx my).
      destruct (Pos.compare_spec mx my) as [->|Hm|Hm]; simpl; rank_cases.
    + rank_cases.
    + rank_cases.
  - destruct (Z.compare_spec ex ey) as [->|Hlt|Hgt].
    + change (Pos.compare_cont Eq mx my) with (Pos.compare mx my).
      destruct (Pos.compare_spec mx my) as [->|Hm|Hm]; simpl; rank_cases.
    + rank_cases.
    + rank_cases.
Qed.

(** [x <= y] excludes [y < x], and [<] passes through [<=]. *)
Lemma leb_not_gt (x y : number) : (x <=? y)%float = true -> (y <? x)%float = false.
Proof.
  rewrite leb_spec, ltb_spec. intros H. apply SFleb_rank in H as (Hx & Hy & Hr).
  apply not_true_is_false. intros H'. apply SFltb_rank in H' as (_ & _ & Hr').
  unfold rankLt in *. destruct (rank (Prim2SF x)) as [[c1 e1] m1].
  destruct (rank (Prim2SF y)) as [[c2 e2] m2].
  destruct Hr as [Hr|Hr]; [lia|]. injection Hr; intros; lia.
Qed.

Lemma leb_ltb_trans (x y z : number) :
  (x <=? y)%float = true -> (y <? z)%float = true -> (x <? z)%float = true.
Proof.
  rewrite leb_spec, !ltb_spec. intros H1 H2.
  apply SFleb_rank in H1 as (Hx & Hy & Hr).
  apply SFltb_rank in H2 as (_ & Hz & Hr').
  apply SFltb_rank. repeat split; try done.
  unfold rankLt in *. destruct (rank (Prim2SF x)) as [[c1 e1] m1].
  destruct (rank (Prim2SF y)) as [[c2 e2] m2].
  destruct (rank (Prim2SF z)) as [[c3 e3] m3].
  destruct Hr as [Hr|Hr]; [lia|]. injection Hr; intros; lia.
Qed.

(** ** The distinct index values *)

Lemma setAddAll_firstOccurrences (seen l : list nat) :
  setAddAll seen l = seen ++ filter (fun y => y ∉ seen) (firstOccurrences l).
Proof.
  revert seen. induction l as [|x l IH]; intros seen; simpl.
  - by rewrite app_nil_r.
  - rewrite IH. case_bool_decide as Hx.
    + rewrite filter_cons_False by (intros H; by apply H).
      f_equal. rewrite list_filter_filter. apply list_filter_iff.
      intros y. split; [|naive_solver]. intros Hy. split; [done|]. by intros ->.
    + rewrite filter_cons_True by done. rewrite <- app_assoc. simpl. do 2 f_equal.
      rewrite list_filter_filter. apply list_filter_iff.
      intros y. rewrite not_elem_of_app, not_elem_of_cons, elem_of_nil. naive_solver.
Qed.

Lemma uniqueIndicesOf_firstOccurrences (l : list nat) :
  uniqueIndicesOf l = firstOccurrences l.
Proof.
  unfold uniqueIndicesOf. rewrite setAddAll_firstOccurrences. simpl.
  induction (firstOccurrences l) as [|y k IH]; [done|].
  rewrite filter_cons_True by apply not_elem_of_nil. by f_equal.
Qed.

Lemma elem_of_firstOccurrences (l : list nat) (x : nat) :
  x ∈ firstOccurrences l <-> x ∈ l.
Proof.
  induction l as [|y l IH]; simpl; [done|].
  rewrite !elem_of_cons, list_elem_of_filter, IH.
  destruct (decide (x = y)); naive_solver.
Qed.

Lemma NoDup_firstOccurrences (l : list nat) : NoDup (firstOccurrences l).
Proof.
  induction l as [|y l IH]; simpl; [constructor|].
  constructor; [|by apply NoDup_filter].
  rewrite list_elem_of_filter. naive_solver.
Qed.

Lemma firstOccurrences_seq (s n : nat) : firstOccurrences (seq s n) = seq s n.
Proof.
  revert s. induction n as [|n IH]; intros s; simpl; [done|].
  f_equal. rewrite IH. clear IH.
  assert (H : forall m k, s < m -> filter (fun y => y <> s) (seq m k) = seq m k).
  { intros m k. revert m. induction k as [|k IHk]; intros m Hm; simpl; [done|].
    rewrite filter_cons_True by lia. f_equal. apply IHk. lia. }
  apply H. lia.
Qed.

Lemma elem_of_uniqueIndicesOf (l : list nat) (x : nat) :
  x ∈ uniqueIndicesOf l <-> x ∈ l.
Proof. rewrite uniqueIndicesOf_firstOccurrences. apply elem_of_firstOccurrences. Qed.

Lemma NoDup_uniqueIndicesOf (l : list nat) : NoDup (uniqueIndicesOf l).
Proof. rewrite uniqueIndicesOf_firstOccurrences. apply NoDup_firstOccurrences. Qed.

(** Distinct values below their own number are all the values below it. *)
Lemma NoDup_below_all (l : list nat) :
  NoDup l -> Forall (fun a => a < length l) l -> forall k, k < length l -> k ∈ l.
Proof.
  intros Hnd Hlt k Hk.
  assert (Hsub : l ⊆+ seq 0 (length l)).
  { apply NoDup_submseteq; [done|]. intros x Hx. apply elem_of_seq.
    rewrite Forall_forall in Hlt. specialize (Hlt x Hx). lia. }
  apply submseteq_length_Permutation in Hsub; [|by rewrite length_seq].
  rewrite Hsub. apply elem_of_seq. lia.
Qed.

(** ** Facts about the grid *)

Lemma gridPush_cellsAll (P : nat -> Prop) (g : Grid) (k : GridKey) (v : nat) :
  cellsAll P g -> P v -> cellsAll P (gridPush g k v).
Proof.
  unfold cellsAll. induction g as [|[k0 c0] g IH]; intros Hg Hv; simpl.
  - repeat constructor. done.
  - inversion_clear Hg as [|? ? Hc Hrest]. destruct (key_eqb k0 k).
    + constructor; [|done]. simpl in *. apply Forall_app. split; [done|by constructor].
    + constructor; [done|]. by apply IH.
Qed.

Lemma gridGet_cellsAll (P : nat -> Prop) (g : Grid) (key : GridKey) (cell : list nat) :
  cellsAll P g -> gridGet g key = Some cell -> Forall P cell.
Proof.
  unfold cellsAll. induction g as [|[k0 c0] g IH]; intros Hg; simpl; [done|].
  inversion_clear Hg as [|? ? Hc Hrest].
  destruct (key_eqb k0 key); [intros [= <-]; done|by apply IH].
Qed.

Lemma buildGrid_cellsAll (P : nat -> Prop) srcPosition cellSize (l : list nat) :
  Forall P l -> cellsAll P (buildGrid srcPosition cellSize l).
Proof.
  unfold buildGrid.
  assert (H : forall g, cellsAll P g -> Forall P l ->
    cellsAll P (fold_left (fun grid a => gridPush grid (keyOf srcPosition cellSize a) a) l g)).
  { induction l as [|a l IH]; intros g Hg Hl; simpl; [done|].
    inversion_clear Hl. apply IH; [|done]. by apply gridPush_cellsAll. }
  intros Hl. apply H; [constructor|done].
Qed.

(** ** Invariants of the matching loop *)

Section MatcherFacts.
Variable prim : Primitive.
Variable table : ToleranceTable.
Variable srcPosition : Accessor.
Variable grid : Grid.
Variable u : nat.

Local Abbreviation scanCell := (scanCell prim table).
Local Abbreviation scanCells := (scanCells prim table grid).
Local Abbreviation weldVertex := (weldVertex prim table srcPosition grid).
Local Abbreviation isMatch := (isMatch prim table).

Local Abbreviation sized := (sized u).
Local Abbreviation sound := (sound prim table u).

(** Lengths never change: stores keep the length of a typed array. *)
Lemma store_length arr i v : length (store arr i v) = length arr.
Proof. unfold store. by rewrite length_insert. Qed.

Lemma scanCell_sized a cell st : sized st -> sized (scanCell a cell st).
Proof.
  revert st. induction cell as [|j cell IH]; intros st [H1 H2]; simpl; [done|].
  destruct (isMatch a (weldMap st !! j)).
  - split; simpl; [by rewrite store_length|done].
  - apply IH. by split.
Qed.

Lemma scanCells_sized a keys st : sized st -> sized (scanCells a keys st).
Proof.
  unfold scanCells. revert st.
  induction keys as [|k keys IH]; intros st H; simpl; [done|].
  by apply IH, scanCell_sized.
Qed.

Lemma outputVertex_sized a st : sized st -> sized (outputVertex a st).
Proof.
  intros [H1 H2]. unfold outputVertex.
  case_bool_decide; split; simpl; by rewrite ?store_length.
Qed.

Lemma weldVertex_sized cs st a : sized st -> sized (weldVertex cs st a).
Proof. intros. by apply outputVertex_sized, scanCells_sized. Qed.

(** The counter [dstVertexCount] grows by at most one per vertex. *)
Lemma scanCell_dst a cell st : dstVertexCount (scanCell a cell st) = dstVertexCount st.
Proof.
  revert st. induction cell as [|j cell IH]; intros st; simpl; [done|].
  destruct (isMatch a (weldMap st !! j)); [done|by rewrite IH].
Qed.

Lemma scanCells_dst a keys st : dstVertexCount (scanCells a keys st) = dstVertexCount st.
Proof.
  unfold scanCells. revert st.
  induction keys as [|k keys IH]; intros st; simpl; [done|].
  by rewrite IH, scanCell_dst.
Qed.

Lemma outputVertex_dst a st :
  dstVertexCount st <= dstVertexCount (outputVertex a st) <= S (dstVertexCount st).
Proof. unfold outputVertex. case_bool_decide; simpl; lia. Qed.

Lemma weldVertex_dst cs st a :
  dstVertexCount st <= dstVertexCount (weldVertex cs st a) <= S (dstVertexCount st).
Proof.
  unfold weldVertex.
  pose proof (outputVertex_dst a (scanCells a (neighborhoodOf srcPosition cs a) st)) as H.
  by rewrite scanCells_dst in H.
Qed.

Lemma fold_weldVertex_dst cs l st :
  dstVertexCount (fold_left (weldVertex cs) l st) <= dstVertexCount st + length l.
Proof.
  revert st. induction l as [|a l IH]; intros st; simpl; [lia|].
  specialize (IH (weldVertex cs st a)).
  pose proof (weldVertex_dst cs st a). lia.
Qed.

(** With every grid candidate and every processed vertex below [u], all
    reads are defined and [sound] is kept. *)
Hypothesis grid_in_range : cellsAll (fun j => j < u) grid.

Lemma scanCell_sound a cell st :
  a < u -> Forall (fun j => j < u) cell -> sound st -> sound (scanCell a cell st).
Proof.
  intros Ha. revert st. induction cell as [|j cell IH]; intros st Hcell Hst; simpl; [done|].
  inversion_clear Hcell as [|? ? Hj Hcell'].
  destruct Hst as [[Hl1 Hl2] Hr Hm Hacc].
  destruct (weldMap st !! j) as [b|] eqn:Hb; cycle 1.
  { apply lookup_ge_None in Hb. lia. }
  destruct (isMatch a (Some b)) eqn:Hab.
  - split; simpl.
    + split; simpl; [by rewrite store_length|done].
    + intros v c. unfold store. simpl.
      destruct (decide (a = v)) as [->|Hne].
      * rewrite list_lookup_insert_eq by lia. intros [= <-]. by eapply Hr.
      * rewrite list_lookup_insert_ne by done. apply Hr.
    + intros v c. unfold store. simpl.
      destruct (decide (a = v)) as [->|Hne].
      * rewrite list_lookup_insert_eq by lia. intros [= <-]. by right.
      * rewrite list_lookup_insert_ne by done. apply Hm.
    + rewrite !Forall_app. repeat split; try done; by repeat constructor.
  - apply IH; [done|]. split; simpl; try done.
    rewrite Forall_app. split; [done|by repeat constructor].
Qed.

Lemma scanCells_sound a keys st :
  a < u -> sound st -> sound (scanCells a keys st).
Proof.
  intros Ha. unfold scanCells. revert st.
  induction keys as [|k keys IH]; intros st Hst; simpl; [done|].
  apply IH, scanCell_sound; [done| |done].
  unfold cellAt. destruct (gridGet grid k) as [cell|] eqn:Hk; simpl; [|constructor].
  by eapply gridGet_cellsAll.
Qed.

Lemma outputVertex_sound a st : a < u -> sound st -> sound (outputVertex a st).
Proof.
  intros Ha Hst. pose proof (outputVertex_sized a st (sound_sized _ _ _ _ Hst)) as Hs.
  destruct Hst as [[Hl1 Hl2] Hr Hm Hacc].
  unfold outputVertex in *. case_bool_decide; split; simpl; try done.
  - rewrite Forall_app. split; [done|by repeat constructor].
  - rewrite Forall_app. split; [done|].
    destruct (weldMap st !! a) as [w|] eqn:Hw; simpl;
      repeat (apply Forall_cons; split); try apply Forall_nil; eauto.
Qed.

Lemma weldVertex_sound cs st a : a < u -> sound st -> sound (weldVertex cs st a).
Proof. intros. by apply outputVertex_sound, scanCells_sound. Qed.

Lemma fold_weldVertex_sound cs l st :
  Forall (fun a => a < u) l -> sound st -> sound (fold_left (weldVertex cs) l st).
Proof.
  revert st. induction l as [|a l IH]; intros st Hl Hst; simpl; [done|].
  inversion_clear Hl. apply IH; [done|]. by apply weldVertex_sound.
Qed.
End MatcherFacts.

(** ** Access positions *)

Section AccessFacts.
Variable prim : Primitive.
Variable table : ToleranceTable.
Variable srcPosition : Accessor.
Variable grid : Grid.

Local Abbreviation scanCell := (scanCell prim table).
Local Abbreviation scanCells := (scanCells prim table grid).
Local Abbreviation weldVertex := (weldVertex prim table srcPosition grid).

Lemma scanCell_accessed a cell st x :
  x ∈ accessed st -> x ∈ accessed (scanCell a cell st).
Proof.
  revert st. induction cell as [|j cell IH]; intros st Hx; simpl; [done|].
  destruct (isMatch prim table a (weldMap st !! j)); simpl.
  - rewrite !elem_of_app. auto.
  - apply IH. simpl. rewrite elem_of_app. auto.
Qed.

Lemma scanCells_accessed a keys st x :
  x ∈ accessed st -> x ∈ accessed (scanCells a keys st).
Proof.
  unfold scanCells. revert st.
  induction keys as [|k keys IH]; intros st Hx; simpl; [done|].
  by apply IH, scanCell_accessed.
Qed.

Lemma outputVertex_accessed a st x :
  x ∈ accessed st -> x ∈ accessed (outputVertex a st).
Proof.
  intros Hx. unfold outputVertex. case_bool_decide; simpl; rewrite elem_of_app; auto.
Qed.

Lemma outputVertex_accessed_self a st : a ∈ accessed (outputVertex a st).
Proof.
  unfold outputVertex. case_bool_decide; simpl; rewrite elem_of_app; right;
    apply elem_of_cons; auto.
Qed.

Lemma weldVertex_accessed cs st a x :
  x ∈ accessed st -> x ∈ accessed (weldVertex cs st a).
Proof. intros. unfold weldVertex. by apply outputVertex_accessed, scanCells_accessed. Qed.

Lemma weldVertex_accessed_self cs st a : a ∈ accessed (weldVertex cs st a).
Proof. unfold weldVertex. apply outputVertex_accessed_self. Qed.

Lemma fold_weldVertex_accessed cs l st x :
  x ∈ accessed st -> x ∈ accessed (fold_left (weldVertex cs) l st).
Proof.
  revert st. induction l as [|a l IH]; intros st Hx; simpl; [done|].
  by apply IH, weldVertex_accessed.
Qed.

Lemma fold_weldVertex_accessed_all cs l st a :
  a ∈ l -> a ∈ accessed (fold_left (weldVertex cs) l st).
Proof.
  revert st. induction l as [|b l IH]; intros st Ha; simpl.
  - by apply elem_of_nil in Ha.
  - apply elem_of_cons in Ha as [->|Ha]; [|by apply IH].
    apply fold_weldVertex_accessed, weldVertex_accessed_self.
Qed.
End AccessFacts.

(** ** A whole run *)

Lemma dense_Forall (l : list nat) :
  NoDup l -> dense l <-> Forall (fun a => a < length l) l.
Proof.
  intros Hnd. unfold dense. rewrite Forall_forall. split.
  - intros H x Hx. by apply H.
  - intros H k. split; [apply H|]. apply NoDup_below_all; [done|].
    by apply Forall_forall.
Qed.

Lemma initialState_sound prim table u : sound prim table u (initialState u).
Proof.
  split; simpl.
  - split; simpl; unfold createIndices; by rewrite length_seq.
  - intros v b Hv. unfold createIndices in Hv. apply lookup_seq in Hv. lia.
  - intros v b Hv. unfold createIndices in Hv. apply lookup_seq in Hv. left. lia.
  - constructor.
Qed.

Lemma weldRun_uniqueIndices prim options run :
  weldRun prim options = Some run ->
  uniqueIndices run = uniqueIndicesOf (srcIndices run).
Proof.
  unfold weldRun. destruct (getAttribute _ _); [|done]. by intros [= <-].
Qed.

Lemma weldRun_matched prim options run :
  weldRun prim options = Some run ->
  exists srcPosition,
    getAttribute (attributes prim) "POSITION" = Some srcPosition /\
    grid run = buildGrid srcPosition (cellSize run) (uniqueIndices run) /\
    matched run = matchVertices prim (attributeTolerance run) srcPosition (grid run)
                    (cellSize run) (uniqueIndices run).
Proof.
  unfold weldRun. destruct (getAttribute _ _) as [srcPosition|]; [|done].
  intros [= <-]. by exists srcPosition.
Qed.

Lemma weldRun_sized prim options run :
  weldRun prim options = Some run ->
  sized (length (uniqueIndices run)) (matched run).
Proof.
  intros Hrun. destruct (weldRun_matched _ _ _ Hrun) as (srcPosition & _ & _ & ->).
  unfold matchVertices.
  generalize (uniqueIndices run) at 2 as l.
  generalize (initialState_sound prim (attributeTolerance run) (length (uniqueIndices run))).
  intros [Hs _ _ _]. revert Hs. generalize (initialState (length (uniqueIndices run))).
  intros st Hs l. revert st Hs. induction l as [|a l IH]; intros st Hs; simpl; [done|].
  by apply IH, weldVertex_sized.
Qed.

Lemma weldRun_sound prim options run :
  weldRun prim options = Some run ->
  dense (uniqueIndices run) ->
  sound prim (attributeTolerance run) (length (uniqueIndices run)) (matched run).
Proof.
  intros Hrun Hdense.
  assert (Hlt : Forall (fun a => a < length (uniqueIndices run)) (uniqueIndices run)).
  { apply dense_Forall; [|done]. rewrite (weldRun_uniqueIndices _ _ _ Hrun).
    apply NoDup_uniqueIndicesOf. }
  destruct (weldRun_matched _ _ _ Hrun) as (srcPosition & _ & Hgrid & ->).
  unfold matchVertices. apply fold_weldVertex_sound; [|done|apply initialState_sound].
  rewrite Hgrid. by apply buildGrid_cellsAll.
Qed.

Lemma weldRun_accessed_all prim options run a :
  weldRun prim options = Some run ->
  a ∈ uniqueIndices run -> a ∈ accessed (matched run).
Proof.
  intros Hrun Ha. destruct (weldRun_matched _ _ _ Hrun) as (srcPosition & _ & _ & ->).
  unfold matchVertices. by apply fold_weldVertex_accessed_all.
Qed.

Lemma weldRun_dst prim options run :
  weldRun prim options = Some run ->
  dstVertexCount (matched run) <= length (uniqueIndices run).
Proof.
  intros Hrun. destruct (weldRun_matched _ _ _ Hrun) as (srcPosition & _ & _ & ->).
  unfold matchVertices.
  pose proof (fold_weldVertex_dst prim (attributeTolerance run) srcPosition (grid run)
                (cellSize run) (uniqueIndices run)
                (initialState (length (uniqueIndices run)))) as H.
  by simpl in H.
Qed.

(** ** The search of one cell *)

(** Inside one cell the search does stop at the first match: the entry of [a]
    becomes the canonical vertex of the first matching candidate, after as
    many comparisons as lead to it; without a match the map is unchanged and
    every candidate of the cell was compared. *)
Lemma scanCell_first_match prim table (a : nat) (cell : list nat) (st : MatchState) :
  match firstMatch prim table (weldMap st) a cell (searchIters st) with
  | Some (j, b, n) =>
      weldMap (scanCell prim table a cell st) = store (weldMap st) a b /\
      searchIters (scanCell prim table a cell st) = n
  | None =>
      weldMap (scanCell prim table a cell st) = weldMap st /\
      searchIters (scanCell prim table a cell st) = searchIters st + length cell
  end.
Proof.
  revert st. induction cell as [|j cell IH]; intros st; simpl.
  - split; [done|lia].
  - destruct (isMatch prim table a (weldMap st !! j)); [done|].
    set (st1 := {| weldMap := weldMap st; writeMap := writeMap st;
                   dstVertexCount := dstVertexCount st;
                   searchIters := S (searchIters st);
                   accessed := accessed st ++ [j] |}).
    specialize (IH st1). simpl in IH.
    destruct (firstMatch prim table (weldMap st) a cell (S (searchIters st)))
      as [[[j' b] n]|]; [done|].
    destruct IH as [-> ->]. split; [done|lia].
Qed.

(** Distinct values below [n] are at most [n]. *)
Lemma NoDup_below_length (l : list nat) (n : nat) :
  NoDup l -> Forall (fun a => a < n) l -> length l <= n.
Proof.
  intros Hnd Hlt.
  assert (Hsub : l ⊆+ seq 0 n).
  { apply NoDup_submseteq; [done|]. intros x Hx. apply elem_of_seq.
    rewrite Forall_forall in Hlt. specialize (Hlt x Hx). lia. }
  apply submseteq_length in Hsub. by rewrite length_seq in Hsub.
Qed.

(** When every index value is below the vertex count, the new vertex count is
    at most the number of distinct index values, which is at most the vertex
    count. *)
Lemma weldRun_counts prim options run :
  weldRun prim options = Some run ->
  Forall (fun ix => ix < srcVertexCount run) (srcIndices run) ->
  dstVertexCount (matched run) <= length (uniqueIndices run) <= srcVertexCount run.
Proof.
  intros Hrun Hix. split; [by eapply weldRun_dst|].
  pose proof (weldRun_uniqueIndices _ _ _ Hrun) as Hu.
  apply NoDup_below_length.
  - rewrite Hu. apply NoDup_uniqueIndicesOf.
  - rewrite Forall_forall in *. intros a Ha. apply Hix.
    rewrite Hu in Ha. by apply (proj1 (elem_of_uniqueIndicesOf _ _)).
Qed.

(** ** The tolerance table *)

Lemma tableGet_tableSet (table : ToleranceTable) (s s' : string) (v : number) :
  tableGet (tableSet table s v) s' = if String.eqb s s' then v else tableGet table s'.
Proof.
  induction table as [|[s0 w] table IH]; simpl.
  - done.
  - destruct (String.eqb s0 s) eqn:H0; simpl.
    + apply String.eqb_eq in H0 as ->. by destruct (String.eqb s s').
    + rewrite IH. destruct (String.eqb s0 s') eqn:H1, (String.eqb s s') eqn:H2; try done.
      apply String.eqb_eq in H1 as ->. apply String.eqb_eq in H2 as ->.
      by rewrite String.eqb_refl in H0.
Qed.

Lemma getAttribute_listSemantics (attrs : Attributes) (s : string) (acc : Accessor) :
  getAttribute attrs s = Some acc -> In s (listSemantics attrs).
Proof.
  induction attrs as [|[s0 acc0] attrs IH]; simpl; [done|].
  destruct (String.eqb s0 s) eqn:H0; [|auto].
  apply String.eqb_eq in H0. auto.
Qed.

(** Every semantic of the primitive has its resolved tolerance in the table. *)
Lemma attributeToleranceOf_get (prim : Primitive) (tol : number) (s : string)
    (acc : Accessor) :
  getAttribute (attributes prim) s = Some acc ->
  tableGet (attributeToleranceOf prim tol) s = getAttributeTolerance s acc tol.
Proof.
  intros Hs. pose proof (getAttribute_listSemantics _ _ _ Hs) as Hin.
  unfold attributeToleranceOf.
  set (step := fun table semantic => _).
  assert (Hkeep : forall L table, ~ In s L ->
            tableGet (fold_left step L table) s = tableGet table s).
  { induction L as [|x L IH]; intros table Hn; simpl; [done|].
    rewrite IH by (intros ?; apply Hn; by right).
    unfold step. destruct (getAttribute (attributes prim) x); [|done].
    rewrite tableGet_tableSet.
    destruct (String.eqb x s) eqn:Hx; [|done].
    apply String.eqb_eq in Hx. exfalso. apply Hn. by left. }
  revert Hin. generalize (@nil (string * number)).
  induction (listSemantics (attributes prim)) as [|x L IH]; intros table Hin; [done|].
  simpl. destruct (in_dec string_dec s L) as [HL|HL]; [by apply IH|].
  rewrite Hkeep by done. destruct Hin as [->|]; [|done].
  unfold step. rewrite Hs, tableGet_tableSet. by rewrite String.eqb_refl.
Qed.

Lemma getAttributeTolerance_JOINTS (s : string) (acc : Accessor) (tol : number) :
  startsWith s "JOINTS_" = true -> getAttributeTolerance s acc tol = Tolerance.JOINTS.
Proof.
  unfold startsWith. intros H.
  do 7 (destruct s as [|? s]; [discriminate|]; cbn [String.prefix] in H;
        match type of H with
        | context [ascii_dec ?a ?b] =>
            destruct (ascii_dec a b) as [<-|]; [|discriminate]
        end).
  by destruct s.
Qed.

(** ** The comparison of two vertices *)

Lemma nth_getElement (acc : Accessor) (index : option nat) (i : nat) :
  i < elementSize acc -> nth i (getElement acc index) nan = readComponent acc index i.
Proof.
  intros Hi. unfold getElement. apply nth_lookup_Some.
  rewrite list_lookup_fmap, lookup_seq_lt by done. done.
Qed.

Lemma compareAttributes_component (acc : Accessor) (a : nat) (b : option nat)
    (tol : number) (i : nat) :
  compareAttributes acc a b tol = true -> i < elementSize acc ->
  Js.gt (Js.Math_abs (readComponent acc (Some a) i - readComponent acc b i)%float) tol
  = false.
Proof.
  unfold compareAttributes. rewrite forallb_forall. intros H Hi.
  specialize (H i). rewrite !nth_getElement in H by done.
  apply negb_true_iff, H, in_seq. lia.
Qed.

(** A pair accepted at a threshold is accepted at any larger one. *)
Lemma compareAttributes_monotone (acc : Accessor) (a : nat) (b : option nat)
    (t1 t2 : number) :
  (t1 <=? t2)%float = true ->
  compareAttributes acc a b t1 = true -> compareAttributes acc a b t2 = true.
Proof.
  unfold compareAttributes. rewrite !forallb_forall. intros Hle H i Hi.
  specialize (H i Hi). apply negb_true_iff in H. apply negb_true_iff.
  unfold Js.gt in *. apply not_true_is_false. intros Hgt.
  by rewrite (leb_ltb_trans _ _ _ Hle Hgt) in H.
Qed.


Lemma isTargetMatch_attribute prim table a b target semantic attribute :
  isTargetMatch prim table a b = true ->
  In target (targets prim) ->
  getAttribute (targetAttributes target) semantic = Some attribute ->
  compareAttributes attribute a b (tableGet table semantic) = true.
Proof.
  unfold isTargetMatch. rewrite forallb_forall. intros H Ht Hs.
  specialize (H target Ht). rewrite forallb_forall in H.
  specialize (H semantic (getAttribute_listSemantics _ _ _ Hs)). by rewrite Hs in H.
Qed.

(** The attribute of a morph target is compared at the tolerance that the
    table holds for its semantic, which is the one of the primitive's own
    attribute of that semantic: a difference in a [JOINTS_*] attribute of a
    target fails the test as well when the primitive has the semantic. *)
Lemma target_joints_fail_the_test prim tol a b target semantic attribute base i :
  In target (targets prim) ->
  getAttribute (targetAttributes target) semantic = Some attribute ->
  getAttribute (attributes prim) semantic = Some base ->
  startsWith semantic "JOINTS_" = true ->
  i < elementSize attribute ->
  differ (readComponent attribute (Some a) i) (readComponent attribute (Some b) i) = true ->
  isMatch prim (attributeToleranceOf prim tol) a (Some b) = false.
Proof.
  intros Ht Hattr Hbase Hsem Hi Hdiff.
  apply not_true_is_false. unfold isMatch. intros Hm.
  apply andb_true_iff in Hm as [_ Htarget].
  pose proof (isTargetMatch_attribute _ _ _ _ _ _ _ Htarget Ht Hattr) as Hcmp.
  rewrite (attributeToleranceOf_get _ _ _ _ Hbase) in Hcmp.
  rewrite (getAttributeTolerance_JOINTS _ _ _ Hsem) in Hcmp.
  pose proof (compareAttributes_component _ _ _ _ _ Hcmp Hi) as Hc.
  unfold differ in Hdiff. by rewrite Hdiff in Hc.
Qed.

(** ** Compaction *)

Lemma remapIndices_length (writeMap srcIndices : list nat) :
  length (remapIndices writeMap srcIndices) = length srcIndices.
Proof. unfold remapIndices. apply length_map. Qed.

Lemma swapStep_reads srcAttr reorder st i n :
  i < n -> Forall (fun p => p < n) (reads st) ->
  Forall (fun p => p < n) (reads (swapStep srcAttr reorder st i)).
Proof.
  intros Hi H. unfold swapStep.
  destruct (negb _); simpl; rewrite Forall_app; (split; [done|]);
    repeat (apply Forall_cons; split; [done|]); by apply Forall_nil.
Qed.

(** The loop of [swapAttributes] reads [reorder] below its length only. *)
Lemma swapLoop_reads_in_bounds (srcAttr : Accessor) (reorder : list nat) (dstCount : nat) :
  Forall (fun p => p < length reorder) (reads (swapLoop srcAttr reorder dstCount)).
Proof.
  unfold swapLoop.
  set (st0 := {| dstAttr := _; done := _; reads := [] |}).
  assert (H0 : Forall (fun p => p < length reorder) (reads st0)) by constructor.
  assert (Hl : Forall (fun i => i < length reorder) (seq 0 (length reorder))).
  { apply Forall_forall. intros i Hi. apply elem_of_seq in Hi. lia. }
  revert H0 Hl. generalize st0. generalize (seq 0 (length reorder)) as l.
  induction l as [|i l IH]; intros st H0 Hl; simpl; [done|].
  inversion_clear Hl. apply IH; [|done]. by apply swapStep_reads.
Qed.

(** * The claims *)

(** Closed facts are decided by evaluation. *)
Ltac by_evaluation := apply (bool_decide_unpack _); vm_compute; exact I.

(** ** C1: the entries of [weldMap] *)

(** C1, as claimed, fails.  On [chain] at tolerance [1/32] the vertices are
    taken in the order [0, 1, 2, 3] and [weldMap] ends as [[1, 2, 2, 3]]:
    vertex [0] is merged into vertex [1], which is taken after it, and vertex
    [1], chosen as the representative of [0], is itself merged into [2], so
    that [weldMap[weldMap[0]]] is not [weldMap[0]].  On [turned] the vertices
    are taken in the order [2, 0, 1], which is not ascending. *)
Lemma weldMap_claim_counterexample :
  (exists run,
     weldRun chain (optionsAt 0.03125%float) = Some run /\
     uniqueIndices run = [0; 1; 2; 3] /\
     weldMap (matched run) = [1; 2; 2; 3] /\
     ~ entriesComeEarlier run /\
     ~ entriesAreFixed run)
  /\ (exists run,
        weldRun turned (optionsAt 0.0001%float) = Some run /\
        uniqueIndices run = [2; 0; 1] /\
        ~ takenAscending run).
Proof.
  split.
  - eexists. split; [vm_compute; reflexivity|].
    split; [reflexivity|]. split; [by vm_compute|]. split.
    + intros H. destruct (H 0) as (b & Hb & Hearlier); [by_evaluation|].
      vm_compute in Hb. injection Hb as <-.
      destruct Hearlier as [|(i & j & Hij & Hi & Hj)]; [done|].
      simpl in Hj. destruct j as [|j]; [lia|].
      destruct j as [|[|[|j]]]; discriminate.
    + intros H. specialize (H 0 1). simpl in H.
      assert (Hw : Some 2 = Some 1) by (apply H; [by_evaluation|done]).
      discriminate.
  - eexists. split; [vm_compute; reflexivity|]. split; [reflexivity|].
    intros H. specialize (H 0 1 2 0). simpl in H.
    assert (2 < 0) by (apply H; [lia|done|done]). lia.
Qed.

(** C1, amended.  When the distinct index values are [0, ..., uniqueCount - 1],
    the matcher takes them in order of first occurrence in the index buffer,
    which is [0, 1, 2, ...] for a primitive without one, and at the end
    [weldMap[v]] is, for each of them, [v] itself or a distinct index value
    whose base and morph target attributes all match those of [v]. *)
Theorem weldMap_entries_match (prim : Primitive) (options : WeldOptions)
    (run : WeldRun) :
  weldRun prim options = Some run ->
  dense (uniqueIndices run) ->
  uniqueIndices run = firstOccurrences (srcIndices run)
  /\ (indices prim = None -> uniqueIndices run = seq 0 (srcVertexCount run))
  /\ forall v, v ∈ uniqueIndices run ->
       exists b, weldMap (matched run) !! v = Some b /\ b ∈ uniqueIndices run /\
         (b = v \/ isMatch prim (attributeTolerance run) v (Some b) = true).
Proof.
  intros Hrun Hdense.
  pose proof (weldRun_uniqueIndices _ _ _ Hrun) as Hu.
  split; [by rewrite Hu, uniqueIndicesOf_firstOccurrences|]. split.
  - intros Hix. rewrite Hu, uniqueIndicesOf_firstOccurrences.
    revert Hrun. unfold weldRun. destruct (getAttribute _ _); [|done].
    intros [= <-]. simpl. rewrite Hix. apply firstOccurrences_seq.
  - intros v Hv. destruct (weldRun_sound _ _ _ Hrun Hdense) as [[Hl _] Hr Hm _].
    apply Hdense in Hv.
    destruct (weldMap (matched run) !! v) as [b|] eqn:Hb.
    + exists b. split; [done|]. split; [apply Hdense; by eapply Hr|by apply Hm].
    + apply lookup_ge_None in Hb. lia.
Qed.

Lemma weldMap_entries_match_witness :
  exists run,
    weldRun chain (optionsAt 0.03125%float) = Some run /\
    dense (uniqueIndices run) /\
    (uniqueIndices run = firstOccurrences (srcIndices run)
     /\ (indices chain = None -> uniqueIndices run = seq 0 (srcVertexCount run))
     /\ forall v, v ∈ uniqueIndices run ->
          exists b, weldMap (matched run) !! v = Some b /\ b ∈ uniqueIndices run /\
            (b = v \/ isMatch chain (attributeTolerance run) v (Some b) = true)).
Proof.
  eexists. split; [vm_compute; reflexivity|].
  assert (Hd : dense [0; 1; 2; 3]).
  { apply dense_Forall; by_evaluation. }
  split; [exact Hd|].
  apply (weldMap_entries_match chain (optionsAt 0.03125%float)); [|exact Hd].
  vm_compute; reflexivity.
Defined.

(** ** C2: the search goes on after a match *)

(** C2 fails on the code.  For vertex [0] of [segment] at tolerance [1/32]
    the candidates are [0, 0, 1, 1] in enumeration order, and the first of
    them, vertex [0] itself, matches at the first comparison; the loops still
    compare all four candidates and leave [weldMap[0] = 1]. *)
Theorem search_continues_after_match :
  exists run srcPosition,
    weldRun segment (optionsAt 0.03125%float) = Some run /\
    getAttribute (attributes segment) "POSITION" = Some srcPosition /\
    let keys := neighborhoodOf srcPosition (cellSize run) 0 in
    let table := attributeTolerance run in
    let st := scanCells segment table (grid run) 0 keys (initialState 2) in
    candidatesOf (grid run) keys = [0; 0; 1; 1]
    /\ firstMatch segment table (weldMap (initialState 2)) 0
         (candidatesOf (grid run) keys) 0 = Some (0, Some 0, 1)
    /\ searchIters st = 4
    /\ weldMap st !! 0 = Some 1
    /\ weldMap (matched run) !! 0 = Some 1.
Proof.
  eexists. eexists. split; [vm_compute; reflexivity|].
  split; [reflexivity|]. by vm_compute.
Qed.

(** ** C3: the compacted index buffer *)

(** C3 fails on the code.  Welding [reversed], two vertices without indices,
    at tolerance [1/32] leaves one vertex and the index buffer [[1, 0]],
    whose first value is not below the new vertex count: vertex [0] finds
    vertex [1], not yet taken, in the first cell of its neighbourhood, is
    merged into it, and copies the entry of [writeMap] that vertex [1] has
    not been given yet. *)
Theorem compacted_index_beyond_count :
  exists run prim' position',
    weldRun reversed (optionsAt 0.03125%float) = Some run /\
    weldPrimitive reversed (optionsAt 0.03125%float) = Returned prim' /\
    srcVertexCount run = 2 /\
    weldMap (matched run) = [1; 1] /\
    writeMap (matched run) = [1; 0] /\
    dstVertexCount (matched run) = 1 /\
    indices prim' = Some [1; 0] /\
    getAttribute (attributes prim') "POSITION" = Some position' /\
    getCount position' = 1 /\
    ~ Forall (fun ix => ix < dstVertexCount (matched run)) [1; 0].
Proof.
  do 3 eexists. split; [vm_compute; reflexivity|].
  split; [vm_compute; reflexivity|].
  do 7 (split; [vm_compute; reflexivity|]).
  intros H. apply Forall_cons in H as [H _]. simpl in H. lia.
Qed.

(** The parts of C3 that hold on every run: the index buffer keeps its
    length, and the new vertex count is at most the number of distinct index
    values. *)
Lemma compact_keeps_index_count (prim : Primitive) (run : WeldRun) :
  exists ix, indices (compact prim run) = Some ix /\ length ix = length (srcIndices run).
Proof. eexists. split; [reflexivity|]. apply remapIndices_length. Qed.

(** ** C4: tolerance zero *)

(** C4.  On a primitive whose mode is not [POINTS], [weldPrimitive] at
    tolerance [0] never changes mode, attributes or morph targets.  A
    primitive with an index buffer is returned as it is; one without gets the
    identity index buffer over the elements of its first attribute, and when
    it has no attribute at all the call throws and nothing is changed. *)
Theorem weldPrimitive_tolerance_zero (prim : Primitive) (options : WeldOptions) :
  mode prim <> POINTS ->
  (tolerance options =? 0)%float = true ->
  match weldPrimitive prim options with
  | Returned prim' =>
      mode prim' = mode prim /\ attributes prim' = attributes prim /\
      targets prim' = targets prim /\
      match indices prim with
      | Some _ => prim' = prim
      | None =>
          exists attr rest,
            listAttributes (attributes prim) = attr :: rest /\
            indices prim' = Some (seq 0 (getCount attr))
      end
  | Thrown e => indices prim = None /\ attributes prim = []
  end.
Proof.
  intros Hmode Hzero. unfold weldPrimitive.
  assert (Hm : Mode_eqb (mode prim) POINTS = false) by (by destruct (mode prim)).
  rewrite Hm, Hzero. unfold _indexPrimitive.
  destruct prim as [[ix|] m attrs tgts]; simpl.
  - by destruct (overwrite options).
  - destruct attrs as [|[s attr] attrs]; simpl; [done|].
    repeat split; try done. by exists attr, (listAttributes attrs).
Qed.

Lemma weldPrimitive_tolerance_zero_witness :
  mode triangle <> POINTS /\ (tolerance (optionsAt 0%float) =? 0)%float = true
  /\ match weldPrimitive triangle (optionsAt 0%float) with
     | Returned prim' =>
         mode prim' = mode triangle /\ attributes prim' = attributes triangle /\
         targets prim' = targets triangle /\
         match indices triangle with
         | Some _ => prim' = triangle
         | None =>
             exists attr rest,
               listAttributes (attributes triangle) = attr :: rest /\
               indices prim' = Some (seq 0 (getCount attr))
         end
     | Thrown e => indices triangle = None /\ attributes triangle = []
     end.
Proof.
  split; [discriminate|]. split; [reflexivity|].
  apply (weldPrimitive_tolerance_zero triangle (optionsAt 0%float));
    [discriminate|reflexivity].
Defined.

(** At tolerance [0] the triangle gets the index buffer [[0, 1, 2]]. *)
Example triangle_indexed :
  weldPrimitive triangle (optionsAt 0%float) =
    Returned {| indices := Some [0; 1; 2];
                mode := mode triangle;
                attributes := attributes triangle;
                targets := targets triangle |}.
Proof. vm_compute. reflexivity. Qed.

(** ** C5: validation of the tolerance *)

(** C5.  [weld] throws its configuration error when the tolerance is below
    [0] or above [0.1], and then a caller's document is left as it was; for a
    tolerance from [0] to [0.1] it returns the transform. *)
Theorem weld_checks_tolerance (dedup : Document -> Document) (dedupPending : bool)
    (_options : PartialWeldOptions) (doc : Document) :
  let t := tolerance (withDefaults _options) in
  ((t <? 0)%float = true \/ (0.1 <? t)%float = true ->
     exists message,
       weld dedup dedupPending _options = Thrown (ConfigError message) /\
       transformWith dedup dedupPending _options doc = (doc, Some (ConfigError message)))
  /\ ((0 <=? t)%float = true /\ (t <=? 0.1)%float = true ->
        exists transform, weld dedup dedupPending _options = Returned transform).
Proof.
  intros t. split.
  - intros Hout. unfold transformWith, weld, Js.gt, Js.lt. fold t.
    assert (Hc : (0.1 <? t)%float || (t <? 0)%float = true).
    { destruct Hout as [->| ->]; [apply orb_true_r|done]. }
    rewrite Hc. eauto.
  - intros [Hlo Hhi]. unfold weld, Js.gt, Js.lt. fold t.
    rewrite (leb_not_gt _ _ Hlo), (leb_not_gt _ _ Hhi). simpl. eauto.
Qed.

Lemma weld_checks_tolerance_witness :
  (exists message,
     weld (fun doc => doc) false {| tolerance_opt := Some 0.5%float; overwrite_opt := None |}
       = Thrown (ConfigError message))
  /\ (exists transform,
        weld (fun doc => doc) false {| tolerance_opt := Some 0.05%float; overwrite_opt := None |}
          = Returned transform).
Proof.
  split.
  - destruct (weld_checks_tolerance (fun doc => doc) false
                {| tolerance_opt := Some 0.5%float; overwrite_opt := None |}
                {| primitiveStore := []; meshes := [] |}) as [H _].
    destruct H as (message & H & _); [by right|]. by exists message.
  - destruct (weld_checks_tolerance (fun doc => doc) false
                {| tolerance_opt := Some 0.05%float; overwrite_opt := None |}
                {| primitiveStore := []; meshes := [] |}) as [_ H].
    apply H. by split.
Defined.

(** ** C6: the tolerance and the vertex count *)

(** C6, as claimed, fails: on [segment] the tolerance [1/32] leaves one
    vertex and the larger tolerance [1/16] leaves two. *)
Lemma tolerance_monotonicity_counterexample :
  exists run1 run2,
    weldRun segment (optionsAt 0.03125%float) = Some run1 /\
    weldRun segment (optionsAt 0.0625%float) = Some run2 /\
    (0 <? 0.03125)%float = true /\ (0.03125 <=? 0.0625)%float = true /\
    (0.0625 <=? 0.1)%float = true /\
    dstVertexCount (matched run1) = 1 /\
    dstVertexCount (matched run2) = 2 /\
    ~ dstVertexCount (matched run2) <= dstVertexCount (matched run1).
Proof.
  do 2 eexists. split; [vm_compute; reflexivity|].
  split; [vm_compute; reflexivity|].
  do 5 (split; [by vm_compute|]). simpl. lia.
Qed.

(** C6, amended.  Two runs on one primitive, at any two tolerances, take the
    same distinct index values, and each leaves at most as many vertices as
    there are such values; and a pair of vertices that [compareAttributes]
    accepts at a threshold is accepted at every larger threshold. *)
Theorem vertex_count_bounded_at_every_tolerance (prim : Primitive)
    (options1 options2 : WeldOptions) (run1 run2 : WeldRun) :
  weldRun prim options1 = Some run1 ->
  weldRun prim options2 = Some run2 ->
  uniqueIndices run1 = uniqueIndices run2
  /\ dstVertexCount (matched run1) <= length (uniqueIndices run1)
  /\ dstVertexCount (matched run2) <= length (uniqueIndices run1)
  /\ forall attribute a b (t1 t2 : number),
       (t1 <=? t2)%float = true ->
       compareAttributes attribute a b t1 = true ->
       compareAttributes attribute a b t2 = true.
Proof.
  intros H1 H2.
  assert (Hu : uniqueIndices run1 = uniqueIndices run2).
  { revert H1 H2. unfold weldRun. destruct (getAttribute _ _); [|done].
    by intros [= <-] [= <-]. }
  split; [done|]. split; [by eapply weldRun_dst|].
  split; [rewrite Hu; by eapply weldRun_dst|].
  intros attribute a b t1 t2. apply compareAttributes_monotone.
Qed.

Lemma vertex_count_bounded_at_every_tolerance_witness :
  exists run1 run2,
    weldRun segment (optionsAt 0.03125%float) = Some run1 /\
    weldRun segment (optionsAt 0.0625%float) = Some run2 /\
    (uniqueIndices run1 = uniqueIndices run2
     /\ dstVertexCount (matched run1) <= length (uniqueIndices run1)
     /\ dstVertexCount (matched run2) <= length (uniqueIndices run1)
     /\ forall attribute a b (t1 t2 : number),
          (t1 <=? t2)%float = true ->
          compareAttributes attribute a b t1 = true ->
          compareAttributes attribute a b t2 = true).
Proof.
  do 2 eexists. split; [vm_compute; reflexivity|].
  split; [vm_compute; reflexivity|].
  apply (vertex_count_bounded_at_every_tolerance segment
           (optionsAt 0.03125%float) (optionsAt 0.0625%float));
    vm_compute; reflexivity.
Defined.

(** ** C7: joints *)

(** On unsigned bytes, the component type of most [JOINTS_*] attributes,
    [differ] is inequality. *)
Lemma differ_on_bytes :
  forallb (fun n =>
    forallb (fun m => Bool.eqb (differ (ofNat n) (ofNat m)) (negb (n =? m)))
      (seq 0 256))
    (seq 0 256) = true.
Proof. vm_compute. reflexivity. Qed.




(** ** C8: grid keys *)

(** C8.  For every point and cell size, each part of the grid key is
    [fround(c * round(c / cellSize))], the rounded quotient multiplied by the
    coordinate itself: at [c = 1] and cell size [1/16] the part is [16], where
    a multiplication by the cell size would give [1].  The rounding of the
    product is the one to binary32, 24 bits of precision and exponents up
    to 128: a product that is a finite number other than zero is rounded by
    [binary_round 24 128], any other is kept.  At the point
    [(0.1, 0.2, 0.3)] the quotients [1.6], [3.2] and [4.8] are rounded to
    [2], [3] and [5], and the products [0.2] and [0.6000000000000001] are not
    binary32 numbers: the key holds their neighbours in binary32.  A quotient
    half way between two integers is rounded up, and a product beyond the
    range of binary32 gives an infinite part.  The neighbourhood is
    the list of the keys of the points [(x + i*hc, y + j*hc, z + k*hc)], [hc]
    half the cell size, for [i], [j], [k] over [-1, 0, 1] with [i] outermost:
    always 27 keys, also when keys coincide, as the first two do at the
    point [(1, 0, 0)]. *)
Theorem grid_keys_of_neighbourhood (x y z cellSize : number) :
  let single q :=
    match Prim2SF q with
    | S754_finite s m e => SF2Prim (binary_round 24 128 s m e)
    | _ => q
    end in
  getGridKey x y z cellSize =
    (Js.Math_fround (x * Js.Math_round (x / cellSize)),
     Js.Math_fround (y * Js.Math_round (y / cellSize)),
     Js.Math_fround (z * Js.Math_round (z / cellSize)))%float
  /\ getGridKey x y z cellSize =
       (single (x * Js.Math_round (x / cellSize)),
        single (y * Js.Math_round (y / cellSize)),
        single (z * Js.Math_round (z / cellSize)))%float
  /\ getGridKey 1 0 0 0.0625 = (16, 0, 0)%float
  /\ getGridKey 0.1 0.2 0.3 0.0625
     = (0.20000000298023224, 0.6000000238418579, 1.5)%float
  /\ (0.1 * 2, 0.2 * 3, 0.3 * 5)%float
     = (0.2, 0.6000000000000001, 1.5)%float
  /\ getGridKey 2.5 (-2.5) 0.5 1 = (7.5, 5, 0.5)%float
  /\ getGridKey 1e20 (-1e20) 1e-30 1 = (infinity, infinity, 0)%float
  /\ getGridNeighborhoodKeys x y z cellSize =
       flat_map (fun i =>
         flat_map (fun j =>
           map (fun k =>
                  getGridKey (x + i * (cellSize / 2)) (y + j * (cellSize / 2))
                    (z + k * (cellSize / 2)) cellSize)%float
               [(-1)%float; 0%float; 1%float])
           [(-1)%float; 0%float; 1%float])
         [(-1)%float; 0%float; 1%float]
  /\ length (getGridNeighborhoodKeys x y z cellSize) = 27
  /\ getGridNeighborhoodKeys 1 0 0 0.0625 !! 0 = Some (15.5, 0, 0)%float
  /\ getGridNeighborhoodKeys 1 0 0 0.0625 !! 1 = Some (15.5, 0, 0)%float
  /\ getGridNeighborhoodKeys 0.1 0.2 0.3 0.0625
     = flat_map (fun kx =>
         flat_map (fun ky =>
           map (fun kz => (kx, ky, kz))
             [1.0750000476837158; 1.5; 1.65625]%float)
           [0.5062500238418579; 0.6000000238418579; 0.925000011920929]%float)
         [0.06875000149011612; 0.20000000298023224; 0.26249998807907104]%float.
Proof.
  intros single.
  split; [reflexivity|]. split; [reflexivity|]. split; [by vm_compute|].
  split; [by vm_compute|]. split; [by vm_compute|]. split; [by vm_compute|].
  split; [by vm_compute|].
  split; [reflexivity|]. split; [reflexivity|].
  split; [by vm_compute|]. split; by vm_compute.
Qed.

(** ** C9: primitives that are left alone *)

(** C9.  [weldPrimitive] returns the primitive as it is, whatever the other
    options, when it has an index buffer and [overwrite] is false, and when
    its mode is [POINTS]. *)
Theorem weldPrimitive_skips (prim : Primitive) (options : WeldOptions) :
  (is_Some (indices prim) /\ overwrite options = false) \/ mode prim = POINTS ->
  weldPrimitive prim options = Returned prim.
Proof.
  unfold weldPrimitive. intros [[Hix Hov]|Hmode].
  - by rewrite bool_decide_eq_true_2, Hov.
  - rewrite Hmode. by destruct (_ && _).
Qed.

Lemma weldPrimitive_skips_witness :
  (is_Some (indices cloud) /\ overwrite (optionsAt 0.1%float) = false
   \/ mode cloud = POINTS)
  /\ weldPrimitive cloud (optionsAt 0.1%float) = Returned cloud.
Proof.
  split; [by right|]. apply weldPrimitive_skips. by right.
Defined.

(** ** C10: the bounds of [weldMap] and [writeMap] *)

(** C10, as claimed, fails in one place: on a primitive whose index buffer
    names a vertex index that is not below the number of distinct values,
    the loop of [swapAttributes] still reads [writeMap] inside its bounds.
    On [sparse], whose index buffer is [[0, 5, 7]], the maps have three
    entries, the matcher and the index loop access position [5], and every
    read of [swapAttributes] is below three. *)
Lemma swapAttributes_reads_counterexample :
  exists run srcAttr,
    weldRun sparse (optionsAt 0.0001%float) = Some run /\
    getAttribute (attributes sparse) "POSITION" = Some srcAttr /\
    srcIndices run = [0; 5; 7] /\
    length (writeMap (matched run)) = 3 /\
    5 ∈ accessed (matched run) /\
    reads (swapLoop srcAttr (writeMap (matched run)) (dstVertexCount (matched run)))
      = [0; 0; 0; 1; 1; 1; 2; 2; 2] /\
    ~ (exists p,
         p ∈ reads (swapLoop srcAttr (writeMap (matched run))
                      (dstVertexCount (matched run))) /\
         length (writeMap (matched run)) <= p).
Proof.
  do 2 eexists. split; [vm_compute; reflexivity|]. split; [reflexivity|].
  split; [reflexivity|]. split; [reflexivity|].
  split; [by_evaluation|]. split; [by vm_compute|].
  intros (p & Hp & Hge).
  pose proof (swapLoop_reads_in_bounds (vec3 [(0, 0, 0); (1, 0, 0); (2, 0, 0);
                (3, 0, 0); (4, 0, 0); (5, 0, 0); (6, 0, 0); (7, 0, 0)]%float)
                [0; 1; 2] 1) as Hall.
  rewrite Forall_forall in Hall. specialize (Hall p Hp). simpl in Hge, Hall. lia.
Qed.

(** C10, amended.  [weldMap] and [writeMap] have as many entries as there are
    distinct index values.  The positions at which the matcher accesses them
    are all inside these arrays exactly when the distinct index values are
    [0, ..., uniqueCount - 1], and so are the positions at which the index
    loop reads [writeMap]; the loop of [swapAttributes] reads [writeMap]
    inside its bounds on every primitive. *)
Theorem map_accesses_in_bounds (prim : Primitive) (options : WeldOptions)
    (run : WeldRun) :
  weldRun prim options = Some run ->
  let u := length (uniqueIndices run) in
  length (weldMap (matched run)) = u
  /\ length (writeMap (matched run)) = u
  /\ (Forall (fun p => p < u) (accessed (matched run)) <-> dense (uniqueIndices run))
  /\ (Forall (fun ix => is_Some (writeMap (matched run) !! ix)) (srcIndices run)
      <-> dense (uniqueIndices run))
  /\ (forall ix, ix ∈ srcIndices run -> u <= ix ->
        ix ∈ accessed (matched run) /\ writeMap (matched run) !! ix = None)
  /\ forall srcAttr,
       Forall (fun p => p < u)
         (reads (swapLoop srcAttr (writeMap (matched run)) (dstVertexCount (matched run)))).
Proof.
  intros Hrun u.
  destruct (weldRun_sized _ _ _ Hrun) as [Hl1 Hl2]. fold u in Hl1, Hl2.
  pose proof (weldRun_uniqueIndices _ _ _ Hrun) as Hu.
  assert (Hnd : NoDup (uniqueIndices run)).
  { rewrite Hu. apply NoDup_uniqueIndicesOf. }
  split; [done|]. split; [done|]. split; [|split; [|split]].
  - split.
    + intros Hacc. apply dense_Forall; [done|]. apply Forall_forall. intros a Ha.
      rewrite Forall_forall in Hacc. apply Hacc. by eapply weldRun_accessed_all.
    + intros Hdense. by destruct (weldRun_sound _ _ _ Hrun Hdense).
  - rewrite (dense_Forall _ Hnd), !Forall_forall. fold u. split.
    + intros H a Ha. rewrite Hu in Ha.
      apply (proj1 (elem_of_uniqueIndicesOf _ _)) in Ha.
      specialize (H a Ha). apply lookup_lt_is_Some in H. lia.
    + intros H ix Hix. apply lookup_lt_is_Some. rewrite Hl2. apply H.
      rewrite Hu. by apply elem_of_uniqueIndicesOf.
  - intros ix Hix Hge. split.
    + eapply weldRun_accessed_all; [done|]. rewrite Hu. by apply elem_of_uniqueIndicesOf.
    + apply lookup_ge_None. lia.
  - intros srcAttr. rewrite <- Hl2. apply swapLoop_reads_in_bounds.
Qed.

Lemma map_accesses_in_bounds_witness :
  exists run,
    weldRun sparse (optionsAt 0.0001%float) = Some run /\
    let u := length (uniqueIndices run) in
    length (weldMap (matched run)) = u
    /\ length (writeMap (matched run)) = u
    /\ (Forall (fun p => p < u) (accessed (matched run)) <-> dense (uniqueIndices run))
    /\ (Forall (fun ix => is_Some (writeMap (matched run) !! ix)) (srcIndices run)
        <-> dense (uniqueIndices run))
    /\ (forall ix, ix ∈ srcIndices run -> u <= ix ->
          ix ∈ accessed (matched run) /\ writeMap (matched run) !! ix = None)
    /\ forall srcAttr,
         Forall (fun p => p < u)
           (reads (swapLoop srcAttr (writeMap (matched run))
                     (dstVertexCount (matched run)))).
Proof.
  eexists. split; [vm_compute; reflexivity|].
  apply (map_accesses_in_bounds sparse (optionsAt 0.0001%float)).
  vm_compute; reflexivity.
Defined.

(** ** Scenarios of the specification *)

(** A quad of two triangles, given as six vertices of which two pairs are bit
    for bit the same, is welded at tolerance [0.0001] to four vertices and six
    indices that keep the winding. *)
Example quad_is_welded_to_four_vertices :
  exists run prim',
    weldRun quad (optionsAt 0.0001%float) = Some run /\
    weldPrimitive quad (optionsAt 0.0001%float) = Returned prim' /\
    dstVertexCount (matched run) = 4 /\
    indices prim' = Some [0; 1; 2; 0; 2; 3] /\
    attributes prim' =
      [("POSITION"%string,
        vec3 [(0, 0, 0); (1, 0, 0); (1, 1, 0); (0, 1, 0)]%float)].
Proof.
  do 2 eexists. split; [vm_compute; reflexivity|].
  split; [vm_compute; reflexivity|]. by vm_compute.
Qed.

(** Two vertices at one position whose normals differ by [0.625] are kept
    apart at tolerance [0.1]. *)
Example creased_vertices_are_kept :
  exists run,
    weldRun creased (optionsAt 0.1%float) = Some run /\
    tableGet (attributeTolerance run) "NORMAL" = 0.5%float /\
    weldMap (matched run) = [0; 1] /\
    dstVertexCount (matched run) = 2.
Proof. eexists. split; [vm_compute; reflexivity|]. by vm_compute. Qed.

(** A primitive of points comes back as it was. *)
Example cloud_is_left_alone :
  weldPrimitive cloud (optionsAt 0.0001%float) = Returned cloud.
Proof. reflexivity. Qed.

(** * Further properties *)

(** ** What one iteration of the matcher touches *)

Section FrameFacts.
Variable prim : Primitive.
Variable table : ToleranceTable.
Variable srcPosition : Accessor.
Variable grid : Grid.

Local Abbreviation scanCell := (scanCell prim table).
Local Abbreviation scanCells := (scanCells prim table grid).
Local Abbreviation weldVertex := (weldVertex prim table srcPosition grid).

Lemma store_lookup_ne (arr : list nat) (i v : nat) (x : option nat) :
  v <> i -> store arr i x !! v = arr !! v.
Proof. intros Hne. unfold store. by rewrite list_lookup_insert_ne. Qed.

Lemma scanCell_frame a cell st v :
  v <> a ->
  weldMap (scanCell a cell st) !! v = weldMap st !! v
  /\ writeMap (scanCell a cell st) = writeMap st.
Proof.
  intros Hne. revert st. induction cell as [|j cell IH]; intros st; simpl; [done|].
  destruct (isMatch prim table a (weldMap st !! j)); simpl.
  - by rewrite store_lookup_ne.
  - exact (IH (mkState (weldMap st) (writeMap st) (dstVertexCount st)
                 (S (searchIters st)) (accessed st ++ [j]))).
Qed.

Lemma scanCell_writeMap a cell st : writeMap (scanCell a cell st) = writeMap st.
Proof.
  revert st. induction cell as [|j cell IH]; intros st; simpl; [done|].
  destruct (isMatch prim table a (weldMap st !! j)); simpl; [done|].
  exact (IH (mkState (weldMap st) (writeMap st) (dstVertexCount st)
               (S (searchIters st)) (accessed st ++ [j]))).
Qed.

Lemma scanCells_frame a keys st v :
  v <> a -> weldMap (scanCells a keys st) !! v = weldMap st !! v.
Proof.
  intros Hne. unfold scanCells. revert st.
  induction keys as [|k keys IH]; intros st; simpl; [done|].
  rewrite IH. by apply scanCell_frame.
Qed.

Lemma scanCells_writeMap a keys st : writeMap (scanCells a keys st) = writeMap st.
Proof.
  unfold scanCells. revert st.
  induction keys as [|k keys IH]; intros st; simpl; [done|].
  by rewrite IH, scanCell_writeMap.
Qed.

Lemma outputVertex_weldMap a st : weldMap (outputVertex a st) = weldMap st.
Proof. unfold outputVertex. by case_bool_decide. Qed.

Lemma outputVertex_frame a st v :
  v <> a -> writeMap (outputVertex a st) !! v = writeMap st !! v.
Proof.
  intros Hne. unfold outputVertex. case_bool_decide; simpl; by rewrite store_lookup_ne.
Qed.

Lemma weldVertex_frame cs st a v :
  v <> a ->
  weldMap (weldVertex cs st a) !! v = weldMap st !! v
  /\ writeMap (weldVertex cs st a) !! v = writeMap st !! v.
Proof.
  intros Hne. unfold weldVertex. split.
  - rewrite outputVertex_weldMap. by apply scanCells_frame.
  - rewrite outputVertex_frame by done. by rewrite scanCells_writeMap.
Qed.

Lemma fold_weldVertex_frame cs l st v :
  v ∉ l ->
  weldMap (fold_left (weldVertex cs) l st) !! v = weldMap st !! v
  /\ writeMap (fold_left (weldVertex cs) l st) !! v = writeMap st !! v.
Proof.
  revert st. induction l as [|a l IH]; intros st Hv; simpl; [done|].
  apply not_elem_of_cons in Hv as [Hne Hv].
  destruct (IH (weldVertex cs st a) Hv) as [-> ->]. by apply weldVertex_frame.
Qed.

(** The outcome of the iteration for [a] itself, in a state whose maps have
    [u] entries with [a] below [u]. *)
Lemma weldVertex_own_slot cs st a u :
  sized u st -> a < u ->
  let st' := weldVertex cs st a in
  (weldMap st' !! a = Some a ->
     writeMap st' !! a = Some (dstVertexCount st) /\
     dstVertexCount st' = S (dstVertexCount st))
  /\ (weldMap st' !! a <> Some a ->
        writeMap st' !! a =
          Some (default 0 (weldMap st' !! a ≫= fun c => writeMap st !! c)) /\
        dstVertexCount st' = dstVertexCount st).
Proof.
  intros Hs Ha. unfold weldVertex.
  pose proof (scanCells_sized prim table grid u a (neighborhoodOf srcPosition cs a) st Hs)
    as [Hl1 Hl2].
  pose proof (scanCells_dst prim table grid a (neighborhoodOf srcPosition cs a) st) as Hd.
  pose proof (scanCells_writeMap a (neighborhoodOf srcPosition cs a) st) as Hw.
  revert Hl1 Hl2 Hd Hw.
  generalize (scanCells a (neighborhoodOf srcPosition cs a) st). intros sc Hl1 Hl2 Hd Hw.
  simpl. rewrite outputVertex_weldMap. unfold outputVertex.
  case_bool_decide as Hc; simpl; (split; [intros H'|intros H']); try done.
  - unfold store. rewrite list_lookup_insert_eq by lia. simpl. by rewrite Hd.
  - unfold store. rewrite list_lookup_insert_eq by lia. by rewrite Hd, Hw.
Qed.
End FrameFacts.

Lemma filter_ext_in {A} (P1 P2 : A -> Prop) `{!forall x, Decision (P1 x)}
    `{!forall x, Decision (P2 x)} (l : list A) :
  (forall x, x ∈ l -> P1 x <-> P2 x) -> filter P1 l = filter P2 l.
Proof.
  induction l as [|x l IH]; intros Hext; [done|].
  rewrite !filter_cons. rewrite IH by (intros y Hy; apply Hext; by right).
  pose proof (Hext x ltac:(by left)) as Hx.
  destruct (decide (P1 x)), (decide (P2 x)); naive_solver.
Qed.

(** ** The slots of the representatives *)

Section SlotFacts.
Variable prim : Primitive.
Variable table : ToleranceTable.
Variable srcPosition : Accessor.
Variable grid : Grid.
Variable u : nat.

Local Abbreviation weldVertex := (weldVertex prim table srcPosition grid).

Lemma slotsOf_frame cs st a P :
  a ∉ P -> slotsOf (weldVertex cs st a) P = slotsOf st P.
Proof.
  intros Ha. unfold slotsOf.
  rewrite (filter_ext_in _ (fun v => weldMap st !! v = Some v)).
  - apply list_fmap_ext. intros i v Hv. apply list_elem_of_lookup_2 in Hv.
    apply list_elem_of_filter in Hv as [_ Hv].
    apply weldVertex_frame. by intros ->.
  - intros v Hv.
    destruct (weldVertex_frame prim table srcPosition grid cs st a v) as [-> _]; [|done].
    by intros ->.
Qed.

Lemma slotsOf_step cs st a P :
  sized u st -> a < u -> a ∉ P ->
  slotsOf st P = Some <$> seq 0 (dstVertexCount st) ->
  slotsOf (weldVertex cs st a) (P ++ [a])
  = Some <$> seq 0 (dstVertexCount (weldVertex cs st a)).
Proof.
  intros Hs Ha HP Hinv.
  destruct (weldVertex_own_slot prim table srcPosition grid cs st a u Hs Ha) as [Hyes Hno].
  pose proof (slotsOf_frame cs st a P HP) as Hframe. unfold slotsOf in *.
  rewrite filter_app, fmap_app, Hframe, Hinv. simpl. rewrite filter_cons, filter_nil.
  destruct (decide (weldMap (weldVertex cs st a) !! a = Some a)) as [Hc|Hc].
  - simpl. destruct (Hyes Hc) as [-> ->]. by rewrite seq_S, fmap_app.
  - simpl. destruct (Hno Hc) as [_ ->]. by rewrite app_nil_r.
Qed.

Lemma fold_slotsOf cs R : forall P st,
  NoDup (P ++ R) -> Forall (fun a => a < u) R -> sized u st ->
  slotsOf st P = Some <$> seq 0 (dstVertexCount st) ->
  slotsOf (fold_left (weldVertex cs) R st) (P ++ R)
  = Some <$> seq 0 (dstVertexCount (fold_left (weldVertex cs) R st)).
Proof.
  induction R as [|a R IH]; intros P st Hnd Hlt Hs Hinv; simpl.
  - by rewrite app_nil_r.
  - inversion_clear Hlt as [|? ? Ha Hlt'].
    replace (P ++ a :: R) with ((P ++ [a]) ++ R) in * by (by rewrite <- app_assoc).
    apply IH; [done|done|by apply weldVertex_sized|].
    apply slotsOf_step; try done.
    apply NoDup_app in Hnd as [Hnd _]. apply NoDup_app in Hnd as (_ & Hd & _).
    intros HaP. apply (Hd a HaP). by left.
Qed.

(** The slots agree with the entries for every vertex already taken,
    provided each entry of the final [weldMap] names the vertex itself or one
    taken earlier. *)
Lemma fold_slotsAgree cs R : forall P st,
  NoDup (P ++ R) -> Forall (fun a => a < u) R -> sized u st ->
  (forall v, v ∈ R ->
     exists b, weldMap (fold_left (weldVertex cs) R st) !! v = Some b /\
               (b = v \/ b ∈ P \/ processedBefore R b v)) ->
  slotsAgree st P ->
  slotsAgree (fold_left (weldVertex cs) R st) (P ++ R).
Proof.
  induction R as [|a R IH]; intros P st Hnd Hlt Hs Hfinal Hinv; simpl.
  - by rewrite app_nil_r.
  - inversion_clear Hlt as [|? ? Ha Hlt'].
    assert (HaP : a ∉ P).
    { apply NoDup_app in Hnd as (_ & Hd & _). intros HaP. apply (Hd a HaP). by left. }
    assert (HaR : a ∉ R).
    { apply NoDup_app in Hnd as (_ & _ & Hd). by apply NoDup_cons in Hd as [? _]. }
    replace (P ++ a :: R) with ((P ++ [a]) ++ R) in * by (by rewrite <- app_assoc).
    set (st' := weldVertex cs st a).
    destruct (weldVertex_own_slot prim table srcPosition grid cs st a u Hs Ha) as [Hyes Hno].
    fold st' in Hyes, Hno.
    assert (Hdst : dstVertexCount st <= dstVertexCount st').
    { apply weldVertex_dst. }
    assert (Hframe : forall v, v <> a ->
              weldMap st' !! v = weldMap st !! v /\ writeMap st' !! v = writeMap st !! v).
    { intros v Hv. by apply weldVertex_frame. }
    apply IH; [done|done|by apply weldVertex_sized| |].
    + intros v Hv. destruct (Hfinal v ltac:(by right)) as (b & Hb & Hcase).
      exists b. split; [done|]. destruct Hcase as [->|[HbP|(i & j & Hij & Hi & Hj)]].
      * by left.
      * right. left. apply elem_of_app. by left.
      * destruct i as [|i].
        -- simpl in Hi. injection Hi as <-. right. left. apply elem_of_app. right. by left.
        -- destruct j as [|j]; [lia|]. simpl in Hi, Hj.
           right. right. exists i, j. repeat split; [lia|done|done].
    + intros v Hv. apply elem_of_app in Hv as [Hv|Hv].
      * destruct (Hinv v Hv) as (b & s & Hwv & HbP & Hsv & Hsb & Hlt).
        exists b, s.
        destruct (Hframe v) as [-> ->]; [by intros ->|].
        destruct (Hframe b) as [_ ->]; [by intros ->|].
        repeat split; try done; [apply elem_of_app; by left|lia].
      * apply list_elem_of_singleton in Hv as ->.
        destruct (Hfinal a ltac:(by left)) as (b & Hb & Hcase).
        simpl in Hb. fold st' in Hb.
        destruct (fold_weldVertex_frame prim table srcPosition grid cs R st' a HaR)
          as [Hwa _].
        rewrite Hwa in Hb.
        destruct (decide (b = a)) as [->|Hne].
        -- destruct (Hyes Hb) as [Hslot Hcount].
           exists a, (dstVertexCount st). rewrite Hcount.
           repeat split; try done; [apply elem_of_app; right; by left|lia].
        -- assert (Hc : weldMap st' !! a <> Some a) by (rewrite Hb; congruence).
           destruct (Hno Hc) as [Hslot Hcount]. rewrite Hb in Hslot. simpl in Hslot.
           destruct Hcase as [->|[HbP|(i & j & Hij & Hi & Hj)]]; [done| |].
           ++ destruct (Hinv b HbP) as (b2 & s & _ & _ & Hsb & _ & Hlt).
              rewrite Hsb in Hslot. simpl in Hslot.
              exists b, s. destruct (Hframe b Hne) as [_ ->]. rewrite Hcount.
              repeat split; try done. apply elem_of_app. by left.
           ++ exfalso. destruct j as [|j]; [lia|]. simpl in Hj.
              apply HaR. by eapply list_elem_of_lookup_2.
Qed.
End SlotFacts.

(** ** The slots of a pass *)

(** X1.  One iteration of the matching loop, for vertex [a], leaves the
    entries of [weldMap] and [writeMap] at every other position as they
    were, and the vertex counter grows by at most one. *)
Theorem iteration_changes_own_entries_only (prim : Primitive)
    (table : ToleranceTable) (srcPosition : Accessor) (grid : Grid)
    (cs : number) (st : MatchState) (a v : nat) :
  v <> a ->
  let st' := weldVertex prim table srcPosition grid cs st a in
  weldMap st' !! v = weldMap st !! v
  /\ writeMap st' !! v = writeMap st !! v
  /\ dstVertexCount st <= dstVertexCount st' <= S (dstVertexCount st).
Proof.
  intros Hne st'.
  destruct (weldVertex_frame prim table srcPosition grid cs st a v Hne) as [H1 H2].
  split; [exact H1|]. split; [exact H2|]. apply weldVertex_dst.
Qed.

Lemma iteration_changes_own_entries_only_witness :
  let srcPosition := vec3 [(1, 0, 2); (1.03125, 0, 2)]%float in
  let table := attributeToleranceOf segment (Js.Math_max 0.03125 Js.EPSILON) in
  let cs := tableGet table "POSITION" in
  let grid := buildGrid srcPosition cs [0; 1] in
  let st := weldVertex segment table srcPosition grid cs (initialState 2) 0 in
  let st' := weldVertex segment table srcPosition grid cs st 1 in
  0 <> 1 /\
  (weldMap st' !! 0 = weldMap st !! 0
   /\ writeMap st' !! 0 = writeMap st !! 0
   /\ dstVertexCount st <= dstVertexCount st' <= S (dstVertexCount st)).
Proof.
  intros srcPosition table cs grid st st'. split; [lia|].
  apply (iteration_changes_own_entries_only segment table srcPosition grid cs st 1 0).
  lia.
Defined.

(** The slots of the vertices that are their own entry, at the end of a
    pass. *)
Lemma weldRun_slotsOf prim options run :
  weldRun prim options = Some run ->
  dense (uniqueIndices run) ->
  slotsOf (matched run) (uniqueIndices run)
    = Some <$> seq 0 (dstVertexCount (matched run)).
Proof.
  intros Hrun Hdense.
  destruct (weldRun_matched _ _ _ Hrun) as (srcPosition & _ & _ & Hm).
  rewrite Hm. unfold matchVertices.
  assert (Hnd : NoDup (uniqueIndices run)).
  { rewrite (weldRun_uniqueIndices _ _ _ Hrun). apply NoDup_uniqueIndicesOf. }
  apply (fold_slotsOf prim (attributeTolerance run) srcPosition (grid run)
           (length (uniqueIndices run)) (cellSize run) (uniqueIndices run)
           [] (initialState (length (uniqueIndices run)))).
  - done.
  - by apply dense_Forall.
  - split; simpl; unfold createIndices; by rewrite length_seq.
  - done.
Qed.

(** The new vertex count is the number of vertices that are their own
    entry. *)
Lemma weldRun_dst_count prim options run :
  weldRun prim options = Some run ->
  dense (uniqueIndices run) ->
  dstVertexCount (matched run)
  = length (filter (fun v => weldMap (matched run) !! v = Some v)
              (uniqueIndices run)).
Proof.
  intros Hrun Hdense.
  pose proof (weldRun_slotsOf _ _ _ Hrun Hdense) as Hslots.
  apply (f_equal length) in Hslots. unfold slotsOf in Hslots.
  rewrite !length_fmap, length_seq in Hslots. by symmetry.
Qed.

(** X2.  When the distinct index values are [0 .. uniqueCount - 1], the
    vertices that end as their own entry of [weldMap] hold the slots
    [0, 1, ..., dstVertexCount - 1] of [writeMap], in the order in which the
    loop takes them; so [dstVertexCount] is the number of these vertices. *)
Theorem representatives_get_consecutive_slots (prim : Primitive)
    (options : WeldOptions) (run : WeldRun) :
  weldRun prim options = Some run ->
  dense (uniqueIndices run) ->
  slotsOf (matched run) (uniqueIndices run)
    = Some <$> seq 0 (dstVertexCount (matched run))
  /\ dstVertexCount (matched run)
     = length (filter (fun v => weldMap (matched run) !! v = Some v)
                 (uniqueIndices run)).
Proof.
  intros Hrun Hdense. split.
  - by eapply weldRun_slotsOf.
  - by eapply weldRun_dst_count.
Qed.

Lemma representatives_get_consecutive_slots_witness :
  exists run,
    weldRun quad (optionsAt 0.0001%float) = Some run /\
    dense (uniqueIndices run) /\
    (slotsOf (matched run) (uniqueIndices run)
       = Some <$> seq 0 (dstVertexCount (matched run))
     /\ dstVertexCount (matched run)
        = length (filter (fun v => weldMap (matched run) !! v = Some v)
                    (uniqueIndices run))).
Proof.
  eexists. split; [vm_compute; reflexivity|].
  assert (Hd : dense [0; 1; 2; 3; 4; 5]).
  { apply dense_Forall; by_evaluation. }
  split; [exact Hd|].
  apply (representatives_get_consecutive_slots quad (optionsAt 0.0001%float));
    [|exact Hd].
  vm_compute; reflexivity.
Defined.

(** The slots agree with the entries at the end of a pass in which no vertex
    is merged into a later one. *)
Lemma weldRun_slotsAgree prim options run :
  weldRun prim options = Some run ->
  dense (uniqueIndices run) ->
  entriesComeEarlier run ->
  slotsAgree (matched run) (uniqueIndices run).
Proof.
  intros Hrun Hdense Hearlier.
  destruct (weldRun_matched _ _ _ Hrun) as (srcPosition & _ & _ & Hm).
  assert (Hnd : NoDup (uniqueIndices run)).
  { rewrite (weldRun_uniqueIndices _ _ _ Hrun). apply NoDup_uniqueIndicesOf. }
  rewrite Hm. unfold matchVertices.
  apply (fold_slotsAgree prim (attributeTolerance run) srcPosition (grid run)
           (length (uniqueIndices run)) (cellSize run) (uniqueIndices run)
           [] (initialState (length (uniqueIndices run)))).
  - done.
  - by apply dense_Forall.
  - split; simpl; unfold createIndices; by rewrite length_seq.
  - intros v Hv. destruct (Hearlier v Hv) as (b & Hb & Hcase).
    exists b. split.
    + unfold matchVertices in Hm. by rewrite <- Hm.
    + destruct Hcase as [->|Hp]; [by left|by right; right].
  - intros v Hv. by apply elem_of_nil in Hv.
Qed.

(** X3.  When the distinct index values are [0 .. uniqueCount - 1] and no
    vertex is merged into a vertex that the loop takes later, every vertex
    shares the slot of its entry of [weldMap], and every value of the new
    index buffer is below the new vertex count. *)
Theorem new_indices_below_vertex_count (prim : Primitive)
    (options : WeldOptions) (run : WeldRun) :
  weldRun prim options = Some run ->
  dense (uniqueIndices run) ->
  entriesComeEarlier run ->
  (forall v, v ∈ uniqueIndices run ->
     exists b, weldMap (matched run) !! v = Some b /\
       writeMap (matched run) !! v = writeMap (matched run) !! b)
  /\ Forall (fun ix => ix < dstVertexCount (matched run))
       (remapIndices (writeMap (matched run)) (srcIndices run)).
Proof.
  intros Hrun Hdense Hearlier.
  pose proof (weldRun_slotsAgree _ _ _ Hrun Hdense Hearlier) as Hagree.
  split.
  - intros v Hv. destruct (Hagree v Hv) as (b & s & Hb & _ & Hsv & Hsb & _).
    exists b. split; [done|]. by rewrite Hsv, Hsb.
  - unfold remapIndices. apply Forall_fmap, Forall_forall. intros ix Hix. simpl.
    assert (Hu : ix ∈ uniqueIndices run).
    { rewrite (weldRun_uniqueIndices _ _ _ Hrun). by apply elem_of_uniqueIndicesOf. }
    destruct (Hagree ix Hu) as (b & s & _ & _ & Hsv & _ & Hlt).
    by rewrite Hsv.
Qed.

Lemma new_indices_below_vertex_count_witness :
  exists run,
    weldRun quad (optionsAt 0.0001%float) = Some run /\
    dense (uniqueIndices run) /\
    entriesComeEarlier run /\
    ((forall v, v ∈ uniqueIndices run ->
        exists b, weldMap (matched run) !! v = Some b /\
          writeMap (matched run) !! v = writeMap (matched run) !! b)
     /\ Forall (fun ix => ix < dstVertexCount (matched run))
          (remapIndices (writeMap (matched run)) (srcIndices run))).
Proof.
  eexists. split; [vm_compute; reflexivity|].
  assert (Hd : dense [0; 1; 2; 3; 4; 5]).
  { apply dense_Forall; by_evaluation. }
  split; [exact Hd|].
  match goal with |- entriesComeEarlier ?r /\ _ =>
    assert (He : entriesComeEarlier r) end.
  { intros v Hv. cbn [uniqueIndices] in Hv.
    repeat (apply elem_of_cons in Hv as [->|Hv]); [| | | | | |by apply elem_of_nil in Hv].
    - exists 0. split; [reflexivity|by left].
    - exists 1. split; [reflexivity|by left].
    - exists 2. split; [reflexivity|by left].
    - exists 0. split; [reflexivity|]. right. exists 0, 3.
      split; [lia|]. split; reflexivity.
    - exists 2. split; [reflexivity|]. right. exists 2, 4.
      split; [lia|]. split; reflexivity.
    - exists 5. split; [reflexivity|by left]. }
  split; [exact He|].
  apply (new_indices_below_vertex_count quad (optionsAt 0.0001%float));
    [|exact Hd|exact He].
  vm_compute; reflexivity.
Defined.

(** ** The distinct index values of a pass *)

Lemma firstOccurrences_length (l : list nat) :
  length (firstOccurrences l) <= length l.
Proof.
  induction l as [|x l IH]; simpl; [done|].
  pose proof (length_filter (fun y => y <> x) (firstOccurrences l)). lia.
Qed.

Lemma firstOccurrences_NoDup_id (l : list nat) :
  NoDup l -> firstOccurrences l = l.
Proof.
  induction 1 as [|x l Hx Hnd IH]; simpl; [done|].
  rewrite IH. f_equal. clear IH Hnd.
  induction l as [|y l IH]; [done|].
  apply not_elem_of_cons in Hx as [Hxy Hx].
  rewrite filter_cons_True by congruence. f_equal. by apply IH.
Qed.

(** Distinct values that are exactly the numbers below [n] are [n] values. *)
Lemma NoDup_exactly_below (l : list nat) (n : nat) :
  NoDup l -> (forall k, k ∈ l <-> k < n) -> length l = n.
Proof.
  intros Hnd Hmem. apply Nat.le_antisymm.
  - apply NoDup_below_length; [done|]. apply Forall_forall. intros x. apply Hmem.
  - assert (Hsub : seq 0 n ⊆+ l).
    { apply NoDup_submseteq; [apply NoDup_seq|]. intros x Hx. apply Hmem.
      apply elem_of_seq in Hx. lia. }
    apply submseteq_length in Hsub. by rewrite length_seq in Hsub.
Qed.

Lemma weldRun_srcIndices prim options run :
  weldRun prim options = Some run ->
  srcIndices run = match indices prim with
                   | Some ix => ix
                   | None => seq 0 (srcVertexCount run)
                   end.
Proof.
  unfold weldRun. destruct (getAttribute (attributes prim) "POSITION"); [|done].
  intros [= <-]. simpl. by destruct (indices prim).
Qed.

(** X4.  The distinct index values that the matcher walks through hold each
    value of the index buffer once: no value twice, the same values as the
    buffer, never more of them than the buffer has entries, and a buffer
    without repetition is walked through as it is. *)
Theorem distinct_index_values (l : list nat) :
  NoDup (uniqueIndicesOf l)
  /\ (forall x, x ∈ uniqueIndicesOf l <-> x ∈ l)
  /\ length (uniqueIndicesOf l) <= length l
  /\ uniqueIndicesOf (uniqueIndicesOf l) = uniqueIndicesOf l
  /\ (NoDup l -> uniqueIndicesOf l = l).
Proof.
  split; [apply NoDup_uniqueIndicesOf|].
  split; [apply elem_of_uniqueIndicesOf|].
  rewrite !uniqueIndicesOf_firstOccurrences.
  split; [apply firstOccurrences_length|].
  split; [apply firstOccurrences_NoDup_id, NoDup_firstOccurrences|].
  apply firstOccurrences_NoDup_id.
Qed.

(** X5.  When the index buffer names every vertex below some count and no
    other, as the identity buffer of a primitive without indices does, the
    distinct index values are [0 .. uniqueCount - 1]: every access to
    [weldMap] and [writeMap] stays inside the arrays, every entry of
    [weldMap] is a vertex below [uniqueCount], and every index value has a
    slot in [writeMap]. *)
Theorem full_index_buffer_stays_in_bounds (prim : Primitive)
    (options : WeldOptions) (run : WeldRun) :
  weldRun prim options = Some run ->
  indices prim = None \/ (exists n, forall k, k ∈ srcIndices run <-> k < n) ->
  let u := length (uniqueIndices run) in
  dense (uniqueIndices run)
  /\ (indices prim = None -> u = srcVertexCount run)
  /\ Forall (fun p => p < u) (accessed (matched run))
  /\ (forall v b, weldMap (matched run) !! v = Some b -> b < u)
  /\ Forall (fun ix => is_Some (writeMap (matched run) !! ix)) (srcIndices run).
Proof.
  intros Hrun Hfull u.
  pose proof (weldRun_uniqueIndices _ _ _ Hrun) as Hu.
  pose proof (weldRun_srcIndices _ _ _ Hrun) as Hsrc.
  assert (Hn : exists n, forall k, k ∈ srcIndices run <-> k < n).
  { destruct Hfull as [Hnone|Hn]; [|done].
    exists (srcVertexCount run). intros k. rewrite Hsrc, Hnone, elem_of_seq. lia. }
  destruct Hn as (n & Hn).
  assert (Hlen : u = n).
  { unfold u. apply NoDup_exactly_below.
    - rewrite Hu. apply NoDup_uniqueIndicesOf.
    - intros k. rewrite Hu, elem_of_uniqueIndicesOf. apply Hn. }
  assert (Hdense : dense (uniqueIndices run)).
  { intros k. fold u. rewrite Hlen, Hu, elem_of_uniqueIndicesOf. apply Hn. }
  destruct (weldRun_sound _ _ _ Hrun Hdense) as [[Hl1 Hl2] Hr _ Hacc].
  split; [exact Hdense|]. split.
  - intros Hnone. rewrite Hlen.
    assert (Hk : forall k, k < n <-> k < srcVertexCount run).
    { intros k. rewrite <- Hn, Hsrc, Hnone, elem_of_seq. lia. }
    destruct (Nat.lt_trichotomy n (srcVertexCount run)) as [Hlt|[Heq|Hgt]];
      [|done|].
    + apply Hk in Hlt. lia.
    + apply Hk in Hgt. lia.
  - split; [exact Hacc|]. split; [exact Hr|].
    apply Forall_forall. intros ix Hix. apply lookup_lt_is_Some.
    rewrite Hl2. fold u. rewrite Hlen. by apply Hn.
Qed.

Lemma full_index_buffer_stays_in_bounds_witness :
  exists run,
    weldRun turned (optionsAt 0.0001%float) = Some run /\
    (indices turned = None \/ (exists n, forall k, k ∈ srcIndices run <-> k < n)) /\
    let u := length (uniqueIndices run) in
    dense (uniqueIndices run)
    /\ (indices turned = None -> u = srcVertexCount run)
    /\ Forall (fun p => p < u) (accessed (matched run))
    /\ (forall v b, weldMap (matched run) !! v = Some b -> b < u)
    /\ Forall (fun ix => is_Some (writeMap (matched run) !! ix)) (srcIndices run).
Proof.
  eexists. split; [vm_compute; reflexivity|].
  match goal with |- ?H /\ _ => assert (Hfull : H) end.
  { right. exists 3. intros k. cbn [srcIndices].
    rewrite !elem_of_cons, elem_of_nil. lia. }
  split; [exact Hfull|].
  apply (full_index_buffer_stays_in_bounds turned (optionsAt 0.0001%float));
    [|exact Hfull].
  vm_compute; reflexivity.
Defined.

(** X6.  When every index value names a vertex of the primitive, welding
    never adds vertices: the new vertex count is at most the number of
    distinct index values, which is at most both the vertex count and the
    number of indices.  A primitive without indices always is such a case. *)
Theorem welding_never_adds_vertices (prim : Primitive)
    (options : WeldOptions) (run : WeldRun) :
  weldRun prim options = Some run ->
  indices prim = None \/
    Forall (fun ix => ix < srcVertexCount run) (srcIndices run) ->
  dstVertexCount (matched run) <= length (uniqueIndices run)
  /\ length (uniqueIndices run) <= srcVertexCount run
  /\ length (uniqueIndices run) <= length (srcIndices run).
Proof.
  intros Hrun Hvalid.
  assert (Hix : Forall (fun ix => ix < srcVertexCount run) (srcIndices run)).
  { destruct Hvalid as [Hnone|Hix]; [|done].
    rewrite (weldRun_srcIndices _ _ _ Hrun), Hnone.
    apply Forall_forall. intros ix Hix. apply elem_of_seq in Hix. lia. }
  destruct (weldRun_counts _ _ _ Hrun Hix) as [H1 H2].
  split; [exact H1|]. split; [exact H2|].
  rewrite (weldRun_uniqueIndices _ _ _ Hrun), uniqueIndicesOf_firstOccurrences.
  apply firstOccurrences_length.
Qed.

Lemma welding_never_adds_vertices_witness :
  exists run,
    weldRun sparse (optionsAt 0.0001%float) = Some run /\
    (indices sparse = None \/
       Forall (fun ix => ix < srcVertexCount run) (srcIndices run)) /\
    (dstVertexCount (matched run) <= length (uniqueIndices run)
     /\ length (uniqueIndices run) <= srcVertexCount run
     /\ length (uniqueIndices run) <= length (srcIndices run)).
Proof.
  eexists. split; [vm_compute; reflexivity|].
  match goal with |- ?H /\ _ => assert (Hvalid : H) end.
  { right. cbn [srcIndices srcVertexCount]. by_evaluation. }
  split; [exact Hvalid|].
  apply (welding_never_adds_vertices sparse (optionsAt 0.0001%float));
    [|exact Hvalid].
  vm_compute; reflexivity.
Defined.

(** ** The cells of the grid *)

Lemma same_string_refl (x : number) : Js.same_string x x = true.
Proof. unfold Js.same_string, is_nan. by destruct (x =? x)%float. Qed.

Lemma key_eqb_refl (k : GridKey) : key_eqb k k = true.
Proof. destruct k as [[x y] z]. simpl. by rewrite !same_string_refl. Qed.

(** A vertex pushed under a key is found under that key. *)
Lemma gridPush_get_self (g : Grid) (k : GridKey) (v : nat) :
  exists cell, gridGet (gridPush g k v) k = Some cell /\ v ∈ cell.
Proof.
  induction g as [|[k0 cell0] g IH]; simpl.
  - rewrite key_eqb_refl. exists [v]. split; [done|]. apply list_elem_of_here.
  - destruct (key_eqb k0 k) eqn:Hk; simpl; rewrite Hk.
    + exists (cell0 ++ [v]). split; [done|]. apply elem_of_app. right.
      apply list_elem_of_here.
    + exact IH.
Qed.

(** A later push never removes a vertex from the cell found under a key. *)
Lemma gridPush_get_mono (g : Grid) (k key : GridKey) (v : nat) (cell : list nat) :
  gridGet g key = Some cell ->
  exists cell', gridGet (gridPush g k v) key = Some cell' /\
                forall x, x ∈ cell -> x ∈ cell'.
Proof.
  induction g as [|[k0 cell0] g IH]; simpl; [done|].
  destruct (key_eqb k0 key) eqn:Hkey.
  - intros [= <-]. destruct (key_eqb k0 k); simpl; rewrite Hkey.
    + exists (cell0 ++ [v]). split; [done|]. intros x Hx. apply elem_of_app. by left.
    + by exists cell0.
  - intros Hget. destruct (key_eqb k0 k); simpl; rewrite Hkey.
    + by exists cell.
    + by apply IH.
Qed.

Lemma gridPush_concat (g : Grid) (k : GridKey) (v : nat) :
  concat (snd <$> gridPush g k v) ≡ₚ concat (snd <$> g) ++ [v].
Proof.
  induction g as [|[k0 cell0] g IH]; simpl; [done|].
  destruct (key_eqb k0 k); simpl.
  - rewrite <- !app_assoc. apply Permutation_app_head, Permutation_app_comm.
  - rewrite IH. by rewrite app_assoc.
Qed.

Lemma gridPush_cellsKeyed srcPosition cs (g : Grid) (v : nat) :
  cellsKeyed srcPosition cs g ->
  cellsKeyed srcPosition cs (gridPush g (keyOf srcPosition cs v) v).
Proof.
  unfold cellsKeyed. generalize (eq_refl (keyOf srcPosition cs v)).
  generalize (keyOf srcPosition cs v) at 1 3. intros key Hkey.
  induction g as [|[k0 cell0] g IH]; intros Hg; cbn [gridPush].
  - apply Forall_cons; split; [|by apply Forall_nil]. cbn [fst snd].
    apply Forall_cons; split; [|by apply Forall_nil].
    rewrite <- Hkey. apply key_eqb_refl.
  - apply Forall_cons in Hg as [Hcell Hg].
    destruct (key_eqb k0 key) eqn:Hk.
    + apply Forall_cons; split; [|done]. cbn [fst snd] in *.
      apply Forall_app; split; [done|].
      apply Forall_cons; split; [by rewrite <- Hkey|by apply Forall_nil].
    + apply Forall_cons; split; [done|by apply IH].
Qed.

Section GridFacts.
Variable srcPosition : Accessor.
Variable cs : number.

Local Abbreviation pushAll :=
  (fold_left (fun grid a => gridPush grid (keyOf srcPosition cs a) a)).

Lemma pushAll_get_mono (l : list nat) : forall (g : Grid) key cell,
  gridGet g key = Some cell ->
  exists cell', gridGet (pushAll l g) key = Some cell' /\
                forall x, x ∈ cell -> x ∈ cell'.
Proof.
  induction l as [|a l IH]; intros g key cell Hget; simpl.
  - by exists cell.
  - destruct (gridPush_get_mono g (keyOf srcPosition cs a) key a cell Hget)
      as (cell1 & Hget1 & Hsub1).
    destruct (IH _ _ _ Hget1) as (cell2 & Hget2 & Hsub2).
    exists cell2. split; [done|]. intros x Hx. by apply Hsub2, Hsub1.
Qed.

Lemma pushAll_get_self (l : list nat) : forall (g : Grid) a,
  a ∈ l ->
  exists cell, gridGet (pushAll l g) (keyOf srcPosition cs a) = Some cell /\ a ∈ cell.
Proof.
  induction l as [|b l IH]; intros g a Ha; [by apply elem_of_nil in Ha|].
  simpl. destruct (decide (a ∈ l)) as [Hl|Hl]; [by apply IH|].
  apply elem_of_cons in Ha as [->|Ha]; [|done].
  destruct (gridPush_get_self g (keyOf srcPosition cs b) b) as (cell1 & Hget1 & Hb).
  destruct (pushAll_get_mono l _ _ _ Hget1) as (cell2 & Hget2 & Hsub).
  exists cell2. split; [done|]. by apply Hsub.
Qed.

Lemma pushAll_concat (l : list nat) : forall (g : Grid),
  concat (snd <$> pushAll l g) ≡ₚ concat (snd <$> g) ++ l.
Proof.
  induction l as [|a l IH]; intros g; simpl.
  - by rewrite app_nil_r.
  - rewrite IH, gridPush_concat. by rewrite <- app_assoc.
Qed.

Lemma pushAll_cellsKeyed (l : list nat) : forall (g : Grid),
  cellsKeyed srcPosition cs g -> cellsKeyed srcPosition cs (pushAll l g).
Proof.
  induction l as [|a l IH]; intros g Hg; simpl; [done|].
  by apply IH, gridPush_cellsKeyed.
Qed.
End GridFacts.

(** A cell is never longer than the list of vertices the grid is built
    from. *)
Lemma cellAt_length srcPosition cs (l : list nat) (key : GridKey) :
  length (cellAt (buildGrid srcPosition cs l) key) <= length l.
Proof.
  unfold cellAt.
  pose proof (pushAll_concat srcPosition cs l []) as Hperm. simpl in Hperm.
  fold (buildGrid srcPosition cs l) in Hperm.
  rewrite <- (Permutation_length Hperm).
  generalize (buildGrid srcPosition cs l). clear.
  intros g. induction g as [|[k0 cell0] g IH]; [done|].
  cbn [gridGet]. rewrite fmap_cons, concat_cons, length_app.
  destruct (key_eqb k0 key); [simpl; lia|].
  etransitivity; [exact IH|]. cbn [snd]. lia.
Qed.

(** X7.  The grid holds every distinct vertex once: a vertex is in the cell
    found under its own key, every vertex of a cell has the key of that
    cell, and the cells together are a rearrangement of the vertices. *)
Theorem grid_cells_partition_vertices (srcPosition : Accessor) (cs : number)
    (l : list nat) :
  let g := buildGrid srcPosition cs l in
  (forall a, a ∈ l ->
     exists cell, gridGet g (keyOf srcPosition cs a) = Some cell /\ a ∈ cell)
  /\ cellsKeyed srcPosition cs g
  /\ concat (snd <$> g) ≡ₚ l.
Proof.
  intros g. split; [|split].
  - intros a Ha. by apply pushAll_get_self.
  - apply pushAll_cellsKeyed. apply Forall_nil. done.
  - apply (pushAll_concat srcPosition cs l []).
Qed.

(** ** The key of a vertex among the keys of its neighbourhood *)

Lemma float_of_zero (x : number) (s : bool) :
  Prim2SF x = S754_zero s -> x = if s then neg_zero else zero.
Proof. intros H. apply Prim2SF_inj. rewrite H. by destruct s. Qed.

Lemma float_of_nan (x : number) : Prim2SF x = S754_nan -> x = nan.
Proof. intros H. apply Prim2SF_inj. by rewrite H. Qed.

(** Zero times a finite number is a zero. *)
Lemma finite_zero_mul (hc : number) :
  finite hc = true -> exists s, Prim2SF (0 * hc)%float = S754_zero s.
Proof.
  unfold finite. rewrite ltb_spec, abs_spec, mul_spec.
  destruct (Prim2SF hc) as [s|s| |s m e]; try done; intros _; by eexists.
Qed.

(** Adding a zero gives the number back, except that a zero may change its
    sign. *)
Lemma add_zero (x z : number) (s : bool) :
  Prim2SF z = S754_zero s ->
  (x + z)%float = x
  \/ exists s1 s2, Prim2SF x = S754_zero s1 /\ Prim2SF (x + z)%float = S754_zero s2.
Proof.
  intros Hz.
  pose proof (add_spec x z) as Hadd. rewrite Hz in Hadd. unfold SF64add in Hadd.
  destruct (Prim2SF x) as [sx|sx| |sx m e] eqn:Hx.
  - right. exists sx. simpl in Hadd. destruct sx, s; by eexists.
  - left. apply Prim2SF_inj. by rewrite Hadd, Hx.
  - left. apply Prim2SF_inj. by rewrite Hadd, Hx.
  - left. apply Prim2SF_inj. by rewrite Hadd, Hx.
Qed.

(** The part of a grid key that a coordinate gives; it is the same for both
    zeros. *)
Lemma key_part_of_zero (cs : number) :
  Js.Math_fround (0 * Js.Math_round (0 / cs))%float
  = Js.Math_fround (neg_zero * Js.Math_round (neg_zero / cs))%float.
Proof.
  pose proof (div_spec 0 cs) as Hp. pose proof (div_spec neg_zero cs) as Hn.
  unfold SF64div in Hp, Hn.
  change (Prim2SF 0) with (S754_zero false) in Hp.
  change (Prim2SF neg_zero) with (S754_zero true) in Hn.
  destruct (Prim2SF cs) as [s|s| |s m e]; simpl in Hp, Hn.
  - apply float_of_nan in Hp, Hn. rewrite Hp, Hn. by vm_compute.
  - apply float_of_zero in Hp, Hn. rewrite Hp, Hn. destruct s; by vm_compute.
  - apply float_of_nan in Hp, Hn. rewrite Hp, Hn. by vm_compute.
  - apply float_of_zero in Hp, Hn. rewrite Hp, Hn. destruct s; by vm_compute.
Qed.

Lemma key_part_add_zero (x z cs : number) (s : bool) :
  Prim2SF z = S754_zero s ->
  Js.Math_fround ((x + z) * Js.Math_round ((x + z) / cs))%float
  = Js.Math_fround (x * Js.Math_round (x / cs))%float.
Proof.
  intros Hz. destruct (add_zero x z s Hz) as [->|(s1 & s2 & H1 & H2)]; [done|].
  apply float_of_zero in H1, H2. rewrite H2, H1.
  destruct s1, s2; try done; by rewrite key_part_of_zero.
Qed.

(** The middle key of the neighbourhood is the key of the point itself. *)
Lemma getGridKey_centre (x y z cs : number) :
  finite (cs / 2) = true ->
  getGridKey (x + 0 * (cs / 2)) (y + 0 * (cs / 2)) (z + 0 * (cs / 2)) cs
  = getGridKey x y z cs.
Proof.
  intros Hfin. destruct (finite_zero_mul _ Hfin) as (s & Hs).
  unfold getGridKey. by rewrite !(key_part_add_zero _ _ cs s Hs).
Qed.

Lemma getGridNeighborhoodKeys_centre (x y z cs : number) :
  getGridKey (x + 0 * (cs / 2)) (y + 0 * (cs / 2)) (z + 0 * (cs / 2)) cs
  ∈ getGridNeighborhoodKeys x y z cs.
Proof.
  unfold getGridNeighborhoodKeys, offsets. cbn [fold_left app].
  do 13 apply list_elem_of_further. apply list_elem_of_here.
Qed.

Lemma getGridNeighborhoodKeys_length (x y z cs : number) :
  length (getGridNeighborhoodKeys x y z cs) = 27.
Proof. reflexivity. Qed.

Lemma elem_of_candidatesOf (g : Grid) (keys : list GridKey) (key : GridKey)
    (cell : list nat) (a : nat) :
  key ∈ keys -> gridGet g key = Some cell -> a ∈ cell -> a ∈ candidatesOf g keys.
Proof.
  intros Hkey Hget Ha. unfold candidatesOf. apply list_elem_of_In, in_flat_map.
  exists key. split; [by apply list_elem_of_In|].
  apply list_elem_of_In. unfold cellAt. by rewrite Hget.
Qed.

(** X8.  When half the cell size is a finite number, every vertex lies in
    a cell that its own iteration of the matching loop visits: the key of its
    position is one of its 27 neighbourhood keys, the middle one, and the
    grid holds the vertex under that key.  The loop over a cell stops at its
    first match, so this does not say that the iteration reaches the vertex
    in its cell. *)
Theorem vertex_is_its_own_candidate (srcPosition : Accessor) (cs : number)
    (l : list nat) (a : nat) :
  finite (cs / 2) = true ->
  a ∈ l ->
  keyOf srcPosition cs a ∈ neighborhoodOf srcPosition cs a
  /\ a ∈ candidatesOf (buildGrid srcPosition cs l) (neighborhoodOf srcPosition cs a).
Proof.
  intros Hfin Ha.
  assert (Hkey : keyOf srcPosition cs a ∈ neighborhoodOf srcPosition cs a).
  { unfold keyOf, neighborhoodOf.
    destruct (positionOf srcPosition a) as [[x y] z].
    rewrite <- (getGridKey_centre x y z cs Hfin).
    apply getGridNeighborhoodKeys_centre. }
  split; [exact Hkey|].
  destruct (pushAll_get_self srcPosition cs l [] a Ha) as (cell & Hget & Hcell).
  by eapply elem_of_candidatesOf.
Qed.

Lemma vertex_is_its_own_candidate_witness :
  let srcPosition := vec3 [(1, 0, 2); (1.03125, 0, 2)]%float in
  finite (0.0625 / 2) = true /\
  1 ∈ [0; 1] /\
  (keyOf srcPosition 0.0625 1 ∈ neighborhoodOf srcPosition 0.0625 1
   /\ 1 ∈ candidatesOf (buildGrid srcPosition 0.0625 [0; 1])
            (neighborhoodOf srcPosition 0.0625 1)).
Proof.
  intros srcPosition.
  assert (Hfin : finite (0.0625 / 2) = true) by (vm_compute; reflexivity).
  assert (Hin : 1 ∈ [0; 1]) by (apply list_elem_of_further, list_elem_of_here).
  split; [exact Hfin|]. split; [exact Hin|].
  apply (vertex_is_its_own_candidate srcPosition 0.0625 [0; 1] 1 Hfin Hin).
Defined.

(** ** The number of comparisons *)

Section IterationFacts.
Variable prim : Primitive.
Variable table : ToleranceTable.
Variable srcPosition : Accessor.
Variable grid : Grid.

Lemma scanCell_iters a cell st :
  searchIters st <= searchIters (scanCell prim table a cell st)
    <= searchIters st + length cell.
Proof.
  revert st. induction cell as [|j cell IH]; intros st; simpl; [lia|].
  destruct (isMatch prim table a (weldMap st !! j)); simpl; [lia|].
  pose proof (IH (mkState (weldMap st) (writeMap st) (dstVertexCount st)
                    (S (searchIters st)) (accessed st ++ [j]))) as H.
  simpl in H. lia.
Qed.

Lemma scanCells_iters a keys st :
  searchIters st <= searchIters (scanCells prim table grid a keys st)
    <= searchIters st + length (candidatesOf grid keys).
Proof.
  unfold scanCells, candidatesOf. revert st.
  induction keys as [|k keys IH]; intros st; simpl; [lia|].
  rewrite length_app.
  pose proof (scanCell_iters a (cellAt grid k) st).
  pose proof (IH (scanCell prim table a (cellAt grid k) st)). lia.
Qed.

Lemma outputVertex_iters a st : searchIters (outputVertex a st) = searchIters st.
Proof. unfold outputVertex. by case_bool_decide. Qed.

Lemma weldVertex_iters cs st a :
  searchIters st <= searchIters (weldVertex prim table srcPosition grid cs st a)
    <= searchIters st + length (candidatesOf grid (neighborhoodOf srcPosition cs a)).
Proof. unfold weldVertex. rewrite outputVertex_iters. apply scanCells_iters. Qed.

Lemma fold_weldVertex_iters cs (bound : nat) (l : list nat) :
  (forall a, length (candidatesOf grid (neighborhoodOf srcPosition cs a)) <= bound) ->
  forall st,
    searchIters (fold_left (weldVertex prim table srcPosition grid cs) l st)
      <= searchIters st + length l * bound.
Proof.
  intros Hb. induction l as [|a l IH]; intros st; simpl; [lia|].
  specialize (IH (weldVertex prim table srcPosition grid cs st a)).
  pose proof (weldVertex_iters cs st a). specialize (Hb a). lia.
Qed.
End IterationFacts.

Lemma neighborhoodOf_length srcPosition cs a :
  length (neighborhoodOf srcPosition cs a) = 27.
Proof.
  unfold neighborhoodOf. destruct (positionOf srcPosition a) as [[x y] z].
  apply getGridNeighborhoodKeys_length.
Qed.

Lemma candidatesOf_length (g : Grid) (keys : list GridKey) (n : nat) :
  (forall key, length (cellAt g key) <= n) ->
  length (candidatesOf g keys) <= length keys * n.
Proof.
  intros Hn. unfold candidatesOf.
  induction keys as [|k keys IH]; simpl; [lia|].
  rewrite length_app. specialize (Hn k). lia.
Qed.

(** X9.  The matching loop compares every vertex with the vertices of at
    most 27 cells, none of which holds more than the distinct vertices: the
    comparison counter ends at most at [27 * uniqueCount * uniqueCount]. *)
Theorem comparisons_are_bounded (prim : Primitive) (options : WeldOptions)
    (run : WeldRun) :
  weldRun prim options = Some run ->
  searchIters (matched run)
    <= 27 * length (uniqueIndices run) * length (uniqueIndices run).
Proof.
  intros Hrun.
  destruct (weldRun_matched _ _ _ Hrun) as (srcPosition & _ & Hgrid & Hm).
  rewrite Hm. unfold matchVertices.
  set (u := length (uniqueIndices run)).
  pose proof (fold_weldVertex_iters prim (attributeTolerance run) srcPosition
                (grid run) (cellSize run) (27 * u) (uniqueIndices run)) as H.
  etransitivity; [apply H|simpl; fold u; lia].
  intros a. etransitivity.
  - apply (candidatesOf_length _ _ u). intros key. rewrite Hgrid.
    apply cellAt_length.
  - by rewrite neighborhoodOf_length.
Qed.

Lemma comparisons_are_bounded_witness :
  exists run,
    weldRun quad (optionsAt 0.0001%float) = Some run /\
    searchIters (matched run)
      <= 27 * length (uniqueIndices run) * length (uniqueIndices run).
Proof.
  eexists. split; [vm_compute; reflexivity|].
  apply (comparisons_are_bounded quad (optionsAt 0.0001%float)).
  vm_compute; reflexivity.
Defined.

(** ** A vertex compared with itself *)

(** A number minus itself is [0] or [NaN]. *)
Lemma sub_self (x : number) :
  Prim2SF (x - x)%float = S754_zero false \/ Prim2SF (x - x)%float = S754_nan.
Proof.
  rewrite sub_spec. unfold SF64sub.
  destruct (Prim2SF x) as [s|s| |s m e]; simpl.
  - left. by destruct s.
  - right. by destruct s.
  - by right.
  - left. by rewrite Z.sub_diag.
Qed.

Lemma gt_self_difference (x tol : number) :
  (tol <? 0)%float = false -> Js.gt (Js.Math_abs (x - x)%float) tol = false.
Proof.
  unfold Js.gt, Js.Math_abs. rewrite !ltb_spec, abs_spec.
  change (Prim2SF 0) with (S754_zero false).
  destruct (sub_self x) as [-> | ->]; simpl; [done|].
  intros _. by destruct (Prim2SF tol).
Qed.

Lemma compareAttributes_self (acc : Accessor) (a : nat) (tol : number) :
  (tol <? 0)%float = false -> compareAttributes acc a (Some a) tol = true.
Proof.
  intros Htol. unfold compareAttributes. apply forallb_forall. intros i _.
  by rewrite gt_self_difference.
Qed.

Lemma tableGet_not_negative (table : ToleranceTable) (semantic : string) :
  Forall (fun e => (e.2 <? 0)%float = false) table ->
  (tableGet table semantic <? 0)%float = false.
Proof.
  induction 1 as [|[s w] table Hw _ IH]; simpl; [done|].
  by destruct (String.eqb s semantic).
Qed.

(** X10.  When no threshold of the table is negative, a vertex passes the
    comparison with itself, whatever its data: with [a] as its own
    candidate the test of the inner loop succeeds, also on components that
    are [NaN] or infinite. *)
Theorem vertex_matches_itself (prim : Primitive) (table : ToleranceTable)
    (a : nat) :
  Forall (fun e => (e.2 <? 0)%float = false) table ->
  isMatch prim table a (Some a) = true.
Proof.
  intros Htable. unfold isMatch, isBaseMatch, isTargetMatch.
  apply andb_true_intro. split.
  - apply forallb_forall. intros semantic _.
    destruct (getAttribute (attributes prim) semantic); [|done].
    apply compareAttributes_self. by apply tableGet_not_negative.
  - apply forallb_forall. intros target _.
    apply forallb_forall. intros semantic _.
    destruct (getAttribute (targetAttributes target) semantic); [|done].
    apply compareAttributes_self. by apply tableGet_not_negative.
Qed.

Lemma vertex_matches_itself_witness :
  Forall (fun e => (e.2 <? 0)%float = false)
    (attributeToleranceOf creased 0.03125%float)
  /\ isMatch creased (attributeToleranceOf creased 0.03125%float) 1 (Some 1) = true.
Proof.
  assert (Htable : Forall (fun e => (e.2 <? 0)%float = false)
                     (attributeToleranceOf creased 0.03125%float)).
  { by_evaluation. }
  split; [exact Htable|].
  apply (vertex_matches_itself creased _ 1 Htable).
Defined.

(** ** Semantics without a threshold *)

Lemma ltb_nan_left (x : number) : (nan <? x)%float = false.
Proof. rewrite ltb_spec. done. Qed.

Lemma compareAttributes_nan (acc : Accessor) (a : nat) (b : option nat) :
  compareAttributes acc a b nan = true.
Proof.
  unfold compareAttributes. apply forallb_forall. intros i _.
  unfold Js.gt. by rewrite ltb_nan_left.
Qed.

Lemma tableGet_fold_missing (prim : Primitive) (tol : number) (semantic : string)
    (l : list string) : forall (table : ToleranceTable),
  semantic ∉ l ->
  tableGet
    (fold_left
       (fun table s =>
          match getAttribute (attributes prim) s with
          | Some attribute => tableSet table s (getAttributeTolerance s attribute tol)
          | None => table
          end) l table) semantic
  = tableGet table semantic.
Proof.
  induction l as [|s l IH]; intros table Hs; simpl; [done|].
  apply not_elem_of_cons in Hs as [Hne Hs].
  rewrite IH by done.
  destruct (getAttribute (attributes prim) s); [|done].
  rewrite tableGet_tableSet.
  destruct (String.eqb s semantic) eqn:Heq; [|done].
  apply String.eqb_eq in Heq. congruence.
Qed.

(** X11.  The table of thresholds has entries for the semantics of the base
    attributes only.  A semantic that occurs in a morph target but not among
    the base attributes has no threshold, and the comparison of an attribute
    under such a semantic accepts every pair of vertices. *)
Theorem semantics_without_threshold_always_match (prim : Primitive)
    (tol : number) (semantic : string) :
  semantic ∉ listSemantics (attributes prim) ->
  tableGet (attributeToleranceOf prim tol) semantic = nan
  /\ forall attribute a b,
       compareAttributes attribute a b
         (tableGet (attributeToleranceOf prim tol) semantic) = true.
Proof.
  intros Hs.
  assert (Hnan : tableGet (attributeToleranceOf prim tol) semantic = nan).
  { unfold attributeToleranceOf. by rewrite tableGet_fold_missing. }
  split; [exact Hnan|]. intros attribute a b. rewrite Hnan.
  apply compareAttributes_nan.
Qed.

Lemma semantics_without_threshold_always_match_witness :
(("NORMAL" : string) ∉ listSemantics (attributes segment))
  /\ (tableGet (attributeToleranceOf segment 0.03125%float) "NORMAL" = nan
      /\ forall attribute a b,
           compareAttributes attribute a b
             (tableGet (attributeToleranceOf segment 0.03125%float) "NORMAL") = true).
Proof.
  assert (Hs : ("NORMAL" : string) ∉ listSemantics (attributes segment)).
  { intros H. apply list_elem_of_singleton in H. discriminate H. }
  split; [exact Hs|].
  apply (semantics_without_threshold_always_match segment 0.03125%float "NORMAL" Hs).
Defined.

(** ** The compacted attributes *)

(** The stores of one [setElement]: components written one after the other
    from a base position. *)
Lemma writes_length (base : nat) (f : nat -> number) (cs : list nat) :
  forall arr : list number,
    length (fold_left (fun arr i => <[base + i := f i]> arr) cs arr) = length arr.
Proof.
  induction cs as [|c cs IH]; intros arr; simpl; [done|].
  by rewrite IH, length_insert.
Qed.

Lemma writes_lookup_other (base : nat) (f : nat -> number) (cs : list nat) (p : nat) :
  forall arr : list number,
    (forall c, c ∈ cs -> base + c <> p) ->
    fold_left (fun arr i => <[base + i := f i]> arr) cs arr !! p = arr !! p.
Proof.
  induction cs as [|c cs IH]; intros arr Hp; simpl; [done|].
  rewrite IH.
  - apply list_lookup_insert_ne. apply Hp, list_elem_of_here.
  - intros c' Hc'. by apply Hp, list_elem_of_further.
Qed.

Lemma writes_lookup_in (base : nat) (f : nat -> number) (cs : list nat) (c : nat) :
  forall arr : list number,
    c ∈ cs -> base + c < length arr ->
    fold_left (fun arr i => <[base + i := f i]> arr) cs arr !! (base + c)
    = Some (f c).
Proof.
  induction cs as [|c0 cs IH]; intros arr Hc Hlt; [by apply elem_of_nil in Hc|].
  simpl. destruct (decide (c ∈ cs)) as [Hin|Hout].
  - apply IH; [done|]. by rewrite length_insert.
  - apply elem_of_cons in Hc as [->|Hc]; [|done].
    rewrite writes_lookup_other.
    + by apply list_lookup_insert_eq.
    + intros c' Hc' Heq. assert (c' = c0) by lia. by subst.
Qed.

Lemma setElement_elementSize acc r value :
  elementSize (setElement acc r value) = elementSize acc.
Proof. done. Qed.

Lemma setElement_length acc r value :
  length (array (setElement acc r value)) = length (array acc).
Proof. unfold setElement. simpl. apply writes_length. Qed.

Lemma setElement_lookup_other acc r value r' c :
  r' <> r -> c < elementSize acc ->
  array (setElement acc r value) !! (r' * elementSize acc + c)
  = array acc !! (r' * elementSize acc + c).
Proof.
  intros Hne Hc. unfold setElement. simpl. apply writes_lookup_other.
  intros c' Hc'. apply elem_of_seq in Hc'. nia.
Qed.

Lemma setElement_arrayType acc r value :
  arrayType (setElement acc r value) = arrayType acc.
Proof. done. Qed.

Lemma setElement_lookup_same acc r value c :
  c < elementSize acc -> r * elementSize acc + c < length (array acc) ->
  array (setElement acc r value) !! (r * elementSize acc + c)
  = Some (storeComponent (arrayType acc) (nth c value nan)).
Proof.
  intros Hc Hlt. unfold setElement. simpl.
  apply (writes_lookup_in (r * elementSize acc)
           (fun i => storeComponent (arrayType acc) (nth i value nan))); [|done].
  apply elem_of_seq. lia.
Qed.

(** An element past the end of the array is stored as zeros in an array of
    integers and as [NaN] in an array of floats. *)
Lemma storedElement_past_end (acc : Accessor) (i : nat) :
  length (array acc) <= i * elementSize acc ->
  storedElement acc i = replicate (elementSize acc) (storedUndefined (arrayType acc)).
Proof.
  intros Hle. unfold storedElement, getElement.
  rewrite <- list_fmap_compose. apply list_eq. intros k.
  rewrite list_lookup_fmap.
  destruct (decide (k < elementSize acc)) as [Hk|Hk].
  - rewrite lookup_seq_lt, lookup_replicate_2 by done.
    cbn [fmap option_fmap option_map compose Nat.add]. f_equal.
    unfold readComponent. rewrite nth_overflow by lia.
    by destruct (arrayType acc).
  - rewrite lookup_seq_ge by lia. symmetry. apply lookup_replicate_None. lia.
Qed.

(** An element inside a well-typed array is stored as it is. *)
Lemma storedElement_id (acc : Accessor) (i : nat) :
  wellTyped acc -> i < getCount acc -> storedElement acc i = getElement acc (Some i).
Proof.
  intros Hty Hi. unfold storedElement, getElement.
  rewrite <- list_fmap_compose. apply list_fmap_ext. intros k c Hc.
  apply lookup_seq in Hc as [-> Hc]. cbn [compose Nat.add].
  unfold readComponent. unfold getCount in Hi.
  assert (Hlt : i * elementSize acc + k < length (array acc)).
  { pose proof (Nat.div_mod_eq (length (array acc)) (elementSize acc)). nia. }
  destruct (lookup_lt_is_Some_2 (array acc) _ Hlt) as [v Hv].
  rewrite (nth_lookup_Some _ _ _ _ Hv).
  unfold wellTyped in Hty. rewrite Forall_forall in Hty.
  by rewrite (Hty v (list_elem_of_lookup_2 _ _ _ Hv)).
Qed.

Lemma firstAt_other (reorder : list nat) (r r' k : nat) :
  reorder !! k = Some r' -> r <> r' -> firstAt reorder r (S k) = firstAt reorder r k.
Proof.
  intros Hk Hne. simpl. destruct (firstAt reorder r k); [done|].
  rewrite Hk. case_bool_decide; [congruence|done].
Qed.

(** [firstAt] finds the least position. *)
Lemma firstAt_spec (reorder : list nat) (r k : nat) :
  match firstAt reorder r k with
  | Some i => i < k /\ reorder !! i = Some r /\
              forall i', i' < i -> reorder !! i' <> Some r
  | None => forall i', i' < k -> reorder !! i' <> Some r
  end.
Proof.
  induction k as [|k IH]; simpl; [lia|].
  destruct (firstAt reorder r k) as [i0|].
  - destruct IH as (H1 & H2 & H3). repeat split; [lia|done|done].
  - case_bool_decide as Hk.
    + repeat split; [lia|done|done].
    + intros i' Hi'. destruct (decide (i' = k)) as [->|]; [done|]. apply IH. lia.
Qed.

Lemma firstAt_least (reorder : list nat) (r k i : nat) :
  i < k -> reorder !! i = Some r ->
  (forall i', i' < i -> reorder !! i' <> Some r) ->
  firstAt reorder r k = Some i.
Proof.
  intros Hi Hr Hleast. pose proof (firstAt_spec reorder r k) as Hspec.
  destruct (firstAt reorder r k) as [i0|].
  - destruct Hspec as (H1 & H2 & H3). f_equal.
    destruct (Nat.lt_trichotomy i0 i) as [Hlt|[Heq|Hgt]]; [|done|].
    + by destruct (Hleast i0 Hlt).
    + by destruct (H3 i Hgt).
  - by destruct (Hspec i Hi).
Qed.

Lemma firstAt_None (reorder : list nat) (r k : nat) :
  (forall i, reorder !! i <> Some r) -> firstAt reorder r k = None.
Proof.
  intros Hno. pose proof (firstAt_spec reorder r k) as Hspec.
  destruct (firstAt reorder r k) as [i0|]; [|done].
  destruct Hspec as (_ & H2 & _). by destruct (Hno i0).
Qed.

Lemma firstAt_exists (reorder : list nat) (r k v : nat) :
  v < k -> reorder !! v = Some r -> exists i, firstAt reorder r k = Some i.
Proof.
  intros Hv Hr. pose proof (firstAt_spec reorder r k) as Hspec.
  destruct (firstAt reorder r k) as [i0|]; [by exists i0|].
  by destruct (Hspec v Hv).
Qed.

Section SwapFacts.
Variable srcAttr : Accessor.
Variable reorder : list nat.
Variable dstCount : nat.

Local Abbreviation es := (elementSize srcAttr).
Local Abbreviation start :=
  {| dstAttr := setArray srcAttr
                  (createArrayOfType (getArray srcAttr)
                     (dstCount * elementSize srcAttr));
     done := replicate dstCount false;
     reads := [] |}.

(** The state of the loop of [swapAttributes] after [k] iterations: a slot
    is marked and filled exactly when one of the first [k] entries of
    [reorder] names it, with the element of the first such entry. *)
Lemma swapLoop_prefix (k : nat) :
  k <= length reorder ->
  let st := fold_left (swapStep srcAttr reorder) (seq 0 k) start in
  elementSize (dstAttr st) = es
  /\ arrayType (dstAttr st) = arrayType srcAttr
  /\ length (array (dstAttr st)) = dstCount * es
  /\ length (done st) = dstCount
  /\ forall r, r < dstCount ->
       done st !! r
       = Some (match firstAt reorder r k with Some _ => true | None => false end)
       /\ forall c, c < es ->
            array (dstAttr st) !! (r * es + c)
            = Some (match firstAt reorder r k with
                    | Some i =>
                        storeComponent (arrayType srcAttr)
                          (readComponent srcAttr (Some i) c)
                    | None => 0%float
                    end).
Proof.
  induction k as [|k IH]; intros Hk.
  - simpl. rewrite !length_replicate.
    repeat split; try done.
    + by apply lookup_replicate_2.
    + intros c Hc. apply lookup_replicate_2. nia.
  - rewrite seq_S, fold_left_app. cbn [fold_left Nat.add].
    destruct (IH ltac:(lia)) as (Hes & Hty & Hlen & Hdone & Hslots). clear IH.
    set (st := fold_left (swapStep srcAttr reorder) (seq 0 k) start) in *.
    destruct (lookup_lt_is_Some_2 reorder k ltac:(lia)) as [r' Hr'].
    unfold swapStep. rewrite Hr'. change (default 0 (Some r')) with r'.
    destruct (negb (default false (done st !! r'))) eqn:Hwrite; cbn [dstAttr done].
    + rewrite setElement_elementSize, setElement_arrayType, setElement_length,
        length_insert.
      repeat split; try done.
      * destruct (decide (r = r')) as [->|Hne].
        -- destruct (Hslots r' H) as [Hd _]. rewrite Hd in Hwrite.
           cbn [firstAt]. destruct (firstAt reorder r' k); [done|].
           rewrite bool_decide_true by done.
           apply list_lookup_insert_eq. lia.
        -- rewrite (firstAt_other reorder r r' k Hr' Hne).
           rewrite list_lookup_insert_ne by done. by apply Hslots.
      * intros c Hc. destruct (decide (r = r')) as [->|Hne].
        -- destruct (Hslots r' H) as [Hd _]. rewrite Hd in Hwrite.
           cbn [firstAt]. destruct (firstAt reorder r' k); [done|].
           rewrite bool_decide_true by done.
           rewrite <- Hes. rewrite setElement_lookup_same.
           ++ rewrite Hty, nth_getElement by lia. done.
           ++ lia.
           ++ rewrite Hlen, Hes. nia.
        -- rewrite (firstAt_other reorder r r' k Hr' Hne).
           rewrite <- Hes at 1. rewrite setElement_lookup_other by (done || lia).
           rewrite Hes. by apply Hslots.
    + repeat split; try done.
      * destruct (decide (r = r')) as [->|Hne].
        -- destruct (Hslots r' H) as [Hd _]. rewrite Hd in Hwrite |- *.
           cbn [firstAt]. by destruct (firstAt reorder r' k).
        -- rewrite (firstAt_other reorder r r' k Hr' Hne). by apply Hslots.
      * intros c Hc. destruct (decide (r = r')) as [->|Hne].
        -- destruct (Hslots r' H) as [Hd Ha]. rewrite Hd in Hwrite.
           rewrite (Ha c Hc). cbn [firstAt]. by destruct (firstAt reorder r' k).
        -- rewrite (firstAt_other reorder r r' k Hr' Hne). by apply Hslots.
Qed.

Lemma swapAttributes_slot (r : nat) :
  r < dstCount ->
  getElement (swapAttributes srcAttr reorder dstCount) (Some r)
  = match firstAt reorder r (length reorder) with
    | Some i => storedElement srcAttr i
    | None => replicate es 0%float
    end.
Proof.
  intros Hr. unfold swapAttributes, swapLoop.
  destruct (swapLoop_prefix (length reorder) ltac:(lia))
    as (Hes & _ & _ & _ & Hslots).
  destruct (Hslots r Hr) as [_ Ha]. clear Hslots.
  set (st := fold_left (swapStep srcAttr reorder) (seq 0 (length reorder)) start) in *.
  apply list_eq. intros c.
  destruct (decide (c < es)) as [Hc|Hc].
  - unfold getElement at 1. rewrite Hes, list_lookup_fmap, lookup_seq_lt by done.
    cbn [fmap option_fmap option_map Nat.add]. unfold readComponent at 1.
    rewrite Hes. erewrite nth_lookup_Some by (by apply Ha).
    destruct (firstAt reorder r (length reorder)).
    + unfold storedElement, getElement.
      by rewrite !list_lookup_fmap, lookup_seq_lt.
    + by rewrite lookup_replicate_2.
  - rewrite !lookup_ge_None_2; [done| |].
    + destruct (firstAt reorder r (length reorder)).
      * unfold storedElement, getElement. rewrite !length_fmap, length_seq. lia.
      * rewrite length_replicate. lia.
    + unfold getElement. rewrite length_fmap, length_seq, Hes. lia.
Qed.
End SwapFacts.

(** The attributes of the primitives used as examples hold numbers of their
    array types. *)
Example examples_are_wellTyped :
  Forall (fun prim => Forall wellTyped (listAttributes (attributes prim)))
    [segment; reversed; chain; turned; sparse; triangle; cloud; quad; creased;
     skinned; skinned3; sparseSkinned].
Proof. repeat constructor. Qed.

(** An attribute with fewer elements than vertices: the missing elements are
    read as [undefined], which an array of bytes stores as [0] and an array
    of floats as [NaN]. *)
Example short_attribute_is_padded :
  swapAttributes (bytes4 [(1, 2, 3, 4)]%float) [0; 1; 2] 3
  = bytes4 [(1, 2, 3, 4); (0, 0, 0, 0); (0, 0, 0, 0)]%float
  /\ swapAttributes (vec3 [(1, 2, 3)]%float) [0; 1] 2
     = vec3 [(1, 2, 3); (nan, nan, nan)]%float.
Proof. split; by vm_compute. Qed.

(** X12.  The accessor that [swapAttributes] builds has the element size
    and the array type of the source attribute and exactly [dstCount]
    elements.  Slot [r] of it holds the element of the first vertex [i] with
    [reorder[i] = r], as an array of that type stores it: the first write to
    a slot wins, later vertices with the same slot are skipped, and a slot
    that no vertex names stays zero.  When the source is well typed and has
    an element [i], the slot holds that element as it is; when the source
    ends before element [i], the slot holds zeros in an array of integers and
    [NaN] in an array of floats. *)
Theorem swapAttributes_first_write_wins (srcAttr : Accessor)
    (reorder : list nat) (dstCount r : nat) :
  r < dstCount ->
  let dst := swapAttributes srcAttr reorder dstCount in
  elementSize dst = elementSize srcAttr
  /\ arrayType dst = arrayType srcAttr
  /\ length (array dst) = dstCount * elementSize srcAttr
  /\ (forall i, reorder !! i = Some r ->
        (forall i', i' < i -> reorder !! i' <> Some r) ->
        getElement dst (Some r) = storedElement srcAttr i
        /\ (wellTyped srcAttr -> i < getCount srcAttr ->
            getElement dst (Some r) = getElement srcAttr (Some i))
        /\ (length (array srcAttr) <= i * elementSize srcAttr ->
            getElement dst (Some r)
            = replicate (elementSize srcAttr) (storedUndefined (arrayType srcAttr))))
  /\ ((forall i, reorder !! i <> Some r) ->
        getElement dst (Some r) = replicate (elementSize srcAttr) 0%float).
Proof.
  intros Hr dst.
  destruct (swapLoop_prefix srcAttr reorder dstCount (length reorder) ltac:(lia))
    as (Hes & Hty & Hlen & _ & _).
  split; [exact Hes|]. split; [exact Hty|]. split; [exact Hlen|]. split.
  - intros i Hi Hleast.
    assert (Hslot : getElement dst (Some r) = storedElement srcAttr i).
    { unfold dst. rewrite swapAttributes_slot by done.
      rewrite (firstAt_least reorder r (length reorder) i); [done| |done|done].
      by eapply lookup_lt_Some. }
    split; [exact Hslot|].
    split; [intros Hwt Hin; rewrite Hslot; by apply storedElement_id|].
    intros Hpast. rewrite Hslot. by apply storedElement_past_end.
  - intros Hno. unfold dst. rewrite swapAttributes_slot by done.
    by rewrite firstAt_None.
Qed.

Lemma swapAttributes_first_write_wins_witness :
  let srcAttr :=
    vec3 [(0, 0, 0); (1, 0, 0); (1, 1, 0); (0, 0, 0); (1, 1, 0); (0, 1, 0)]%float in
  let reorder := [0; 1; 2; 0; 2; 3] in
  let dst := swapAttributes srcAttr reorder 4 in
  2 < 4 /\
  (elementSize dst = elementSize srcAttr
   /\ arrayType dst = arrayType srcAttr
   /\ length (array dst) = 4 * elementSize srcAttr
   /\ (forall i, reorder !! i = Some 2 ->
         (forall i', i' < i -> reorder !! i' <> Some 2) ->
         getElement dst (Some 2) = storedElement srcAttr i
         /\ (wellTyped srcAttr -> i < getCount srcAttr ->
             getElement dst (Some 2) = getElement srcAttr (Some i))
         /\ (length (array srcAttr) <= i * elementSize srcAttr ->
             getElement dst (Some 2)
             = replicate (elementSize srcAttr) (storedUndefined (arrayType srcAttr))))
   /\ ((forall i, reorder !! i <> Some 2) ->
         getElement dst (Some 2) = replicate (elementSize srcAttr) 0%float)).
Proof.
  intros srcAttr reorder dst. split; [lia|].
  apply (swapAttributes_first_write_wins srcAttr reorder 4 2). lia.
Defined.

(** X13.  When the distinct index values are [0 .. uniqueCount - 1], no
    slot of a compacted attribute is left unwritten: every slot below the
    new vertex count holds the element of a source vertex that [writeMap]
    sends to that slot, the first such vertex, as an array of the
    attribute's type stores it; when the attribute is well typed and has an
    element for that vertex, the slot holds the element as it is, and when
    the attribute ends before that vertex, the slot holds zeros in an array
    of integers and [NaN] in an array of floats. *)
Theorem compacted_slots_hold_source_vertices (prim : Primitive)
    (options : WeldOptions) (run : WeldRun) (r : nat) :
  weldRun prim options = Some run ->
  dense (uniqueIndices run) ->
  r < dstVertexCount (matched run) ->
  exists i,
    writeMap (matched run) !! i = Some r
    /\ (forall i', i' < i -> writeMap (matched run) !! i' <> Some r)
    /\ forall srcAttr,
         let dst := swapAttributes srcAttr (writeMap (matched run))
                      (dstVertexCount (matched run)) in
         getElement dst (Some r) = storedElement srcAttr i
         /\ (wellTyped srcAttr -> i < getCount srcAttr ->
             getElement dst (Some r) = getElement srcAttr (Some i))
         /\ (length (array srcAttr) <= i * elementSize srcAttr ->
             getElement dst (Some r)
             = replicate (elementSize srcAttr) (storedUndefined (arrayType srcAttr))).
Proof.
  intros Hrun Hdense Hr.
  pose proof (weldRun_slotsOf _ _ _ Hrun Hdense) as Hslots.
  assert (Hv : exists v, writeMap (matched run) !! v = Some r).
  { assert (Hl : slotsOf (matched run) (uniqueIndices run) !! r = Some (Some r)).
    { rewrite Hslots, list_lookup_fmap, lookup_seq_lt by done. done. }
    unfold slotsOf in Hl. rewrite list_lookup_fmap in Hl.
    destruct (filter _ (uniqueIndices run) !! r) as [v|]; [|done].
    exists v. simpl in Hl. congruence. }
  destruct Hv as (v & Hv).
  set (reorder := writeMap (matched run)) in *.
  destruct (firstAt_exists reorder r (length reorder) v) as (i & Hi);
    [by eapply lookup_lt_Some|done|].
  pose proof (firstAt_spec reorder r (length reorder)) as Hspec.
  rewrite Hi in Hspec. destruct Hspec as (_ & H2 & H3).
  exists i. split; [done|]. split; [done|].
  intros srcAttr dst.
  assert (Hslot : getElement dst (Some r) = storedElement srcAttr i).
  { unfold dst. rewrite swapAttributes_slot by done. by rewrite Hi. }
  split; [exact Hslot|].
  split; [intros Hwt Hin; rewrite Hslot; by apply storedElement_id|].
  intros Hpast. rewrite Hslot. by apply storedElement_past_end.
Qed.

Lemma compacted_slots_hold_source_vertices_witness :
  exists run,
    weldRun quad (optionsAt 0.0001%float) = Some run /\
    dense (uniqueIndices run) /\
    3 < dstVertexCount (matched run) /\
    exists i,
      writeMap (matched run) !! i = Some 3
      /\ (forall i', i' < i -> writeMap (matched run) !! i' <> Some 3)
      /\ forall srcAttr,
           let dst := swapAttributes srcAttr (writeMap (matched run))
                        (dstVertexCount (matched run)) in
           getElement dst (Some 3) = storedElement srcAttr i
           /\ (wellTyped srcAttr -> i < getCount srcAttr ->
               getElement dst (Some 3) = getElement srcAttr (Some i))
           /\ (length (array srcAttr) <= i * elementSize srcAttr ->
               getElement dst (Some 3)
               = replicate (elementSize srcAttr) (storedUndefined (arrayType srcAttr))).
Proof.
  eexists. split; [vm_compute; reflexivity|].
  assert (Hd : dense [0; 1; 2; 3; 4; 5]).
  { apply dense_Forall; by_evaluation. }
  split; [exact Hd|].
  match goal with |- ?H /\ _ => assert (Hr : H) by (cbn; lia) end.
  split; [exact Hr|].
  apply (compacted_slots_hold_source_vertices quad (optionsAt 0.0001%float));
    [|exact Hd|exact Hr].
  vm_compute; reflexivity.
Defined.

(** ** What [weldPrimitive] keeps *)

Lemma swapAttributes_elementSize srcAttr reorder dstCount :
  elementSize (swapAttributes srcAttr reorder dstCount) = elementSize srcAttr.
Proof.
  by destruct (swapLoop_prefix srcAttr reorder dstCount (length reorder)
                 ltac:(lia)) as (Hes & _).
Qed.

Lemma swapAll_listSemantics attrs reorder dstCount :
  listSemantics (swapAll attrs reorder dstCount) = listSemantics attrs.
Proof.
  unfold listSemantics, swapAll. induction attrs as [|[s a] attrs IH]; [done|].
  simpl. by f_equal.
Qed.

Lemma swapAll_elementSizes attrs reorder dstCount :
  elementSize <$> listAttributes (swapAll attrs reorder dstCount)
  = elementSize <$> listAttributes attrs.
Proof.
  unfold listAttributes, swapAll. induction attrs as [|[s a] attrs IH]; [done|].
  cbn [map fmap list_fmap snd]. rewrite swapAttributes_elementSize. f_equal.
  exact IH.
Qed.

Lemma Mode_eqb_eq (m1 m2 : Mode) : Mode_eqb m1 m2 = true <-> m1 = m2.
Proof. destruct m1, m2; simpl; split; congruence. Qed.

(** What a pass over the targets keeps. *)
Lemma compact_targets (tgts : list PrimitiveTarget) reorder dstCount :
  Forall2
    (fun t t' =>
       listSemantics (targetAttributes t') = listSemantics (targetAttributes t)
       /\ elementSize <$> listAttributes (targetAttributes t')
          = elementSize <$> listAttributes (targetAttributes t))
    tgts
    (map (fun target =>
            {| targetAttributes :=
                 swapAll (targetAttributes target) reorder dstCount |}) tgts).
Proof.
  induction tgts as [|t tgts IH]; simpl; constructor; [|done].
  simpl. split; [apply swapAll_listSemantics|apply swapAll_elementSizes].
Qed.

Lemma Forall2_same {A} (P : A -> A -> Prop) (l : list A) :
  (forall x, P x x) -> Forall2 P l l.
Proof. intros HP. induction l; by constructor. Qed.

(** Outside mode [POINTS] the primitive left has an index buffer. *)
Lemma weldPrimitive_indexed (prim prim' : Primitive) (options : WeldOptions) :
  weldPrimitive prim options = Returned prim' ->
  mode prim <> POINTS -> is_Some (indices prim').
Proof.
  unfold weldPrimitive. intros Hret Hne.
  destruct (bool_decide (is_Some (indices prim)) && negb (overwrite options)) eqn:Hskip.
  { injection Hret as <-. apply andb_true_iff in Hskip as [Hix _].
    by apply bool_decide_eq_true in Hix. }
  destruct (Mode_eqb (mode prim) POINTS) eqn:Hmode.
  { by apply Mode_eqb_eq in Hmode. }
  destruct (tolerance options =? 0)%float.
  - unfold _indexPrimitive in Hret. destruct (indices prim) as [ix|] eqn:Hix.
    + injection Hret as <-. by rewrite Hix.
    + destruct (listAttributes (attributes prim)); [done|].
      injection Hret as <-. by eexists.
  - unfold _weldPrimitive in Hret. destruct (weldRun prim options); [|done].
    injection Hret as <-. by eexists.
Qed.

(** X14.  Whatever branch [weldPrimitive] takes, the primitive it leaves
    has the mode, the attribute semantics in their order, the element sizes
    and the morph targets' semantics of the one it was given; an index
    buffer keeps its number of entries, so the number of points, lines or
    triangles drawn does not change; and outside mode [POINTS] the primitive
    left always has an index buffer. *)
Theorem weldPrimitive_keeps_layout (prim prim' : Primitive)
    (options : WeldOptions) :
  weldPrimitive prim options = Returned prim' ->
  mode prim' = mode prim
  /\ listSemantics (attributes prim') = listSemantics (attributes prim)
  /\ elementSize <$> listAttributes (attributes prim')
     = elementSize <$> listAttributes (attributes prim)
  /\ Forall2
       (fun t t' =>
          listSemantics (targetAttributes t') = listSemantics (targetAttributes t)
          /\ elementSize <$> listAttributes (targetAttributes t')
             = elementSize <$> listAttributes (targetAttributes t))
       (targets prim) (targets prim')
  /\ (forall ix, indices prim = Some ix ->
        exists ix', indices prim' = Some ix' /\ length ix' = length ix)
  /\ (mode prim <> POINTS -> is_Some (indices prim')).
Proof.
  intros Hret.
  assert (Hindexed := weldPrimitive_indexed prim prim' options Hret).
  assert (Hsame :
            mode prim = mode prim
            /\ listSemantics (attributes prim) = listSemantics (attributes prim)
            /\ elementSize <$> listAttributes (attributes prim)
               = elementSize <$> listAttributes (attributes prim)
            /\ Forall2
                 (fun t t' =>
                    listSemantics (targetAttributes t')
                    = listSemantics (targetAttributes t)
                    /\ elementSize <$> listAttributes (targetAttributes t')
                       = elementSize <$> listAttributes (targetAttributes t))
                 (targets prim) (targets prim)
            /\ (forall ix, indices prim = Some ix ->
                  exists ix', indices prim = Some ix' /\ length ix' = length ix)).
  { repeat split. - by apply Forall2_same. - intros ix Hix. by exists ix. }
  revert Hret Hindexed. unfold weldPrimitive.
  destruct (bool_decide (is_Some (indices prim)) && negb (overwrite options)).
  { intros [= <-] Hindexed. by destruct Hsame as (? & ? & ? & ? & ?). }
  destruct (Mode_eqb (mode prim) POINTS).
  { intros [= <-] Hindexed. by destruct Hsame as (? & ? & ? & ? & ?). }
  destruct (tolerance options =? 0)%float.
  - unfold _indexPrimitive. destruct (indices prim) as [ix|] eqn:Hix.
    + intros [= <-] Hindexed. rewrite Hix. by destruct Hsame as (? & ? & ? & ? & ?).
    + destruct (listAttributes (attributes prim)) eqn:Hl; [done|].
      intros [= <-] Hindexed. simpl. rewrite ?Hl.
      destruct Hsame as (? & ? & ? & ? & ?). repeat split; try done.
  - unfold _weldPrimitive. destruct (weldRun prim options) as [run|] eqn:Hrun; [|done].
    intros [= <-] Hindexed. unfold compact. simpl.
    split; [done|]. split; [apply swapAll_listSemantics|].
    split; [apply swapAll_elementSizes|]. split; [apply compact_targets|].
    split; [|done].
    intros ix Hix. eexists. split; [done|].
    rewrite remapIndices_length, (weldRun_srcIndices _ _ _ Hrun). by rewrite Hix.
Qed.

Lemma weldPrimitive_keeps_layout_witness :
  exists prim',
    weldPrimitive turned (optionsAt 0.0001%float) = Returned prim' /\
    (mode prim' = mode turned
     /\ listSemantics (attributes prim') = listSemantics (attributes turned)
     /\ elementSize <$> listAttributes (attributes prim')
        = elementSize <$> listAttributes (attributes turned)
     /\ Forall2
          (fun t t' =>
             listSemantics (targetAttributes t') = listSemantics (targetAttributes t)
             /\ elementSize <$> listAttributes (targetAttributes t')
                = elementSize <$> listAttributes (targetAttributes t))
          (targets turned) (targets prim')
     /\ (forall ix, indices turned = Some ix ->
           exists ix', indices prim' = Some ix' /\ length ix' = length ix)
     /\ (mode turned <> POINTS -> is_Some (indices prim'))).
Proof.
  eexists. split; [vm_compute; reflexivity|].
  apply (weldPrimitive_keeps_layout turned _ (optionsAt 0.0001%float)).
  vm_compute; reflexivity.
Defined.

(** X15.  [weldPrimitive] throws in two cases only, both on a primitive
    that is not skipped: at tolerance [0] when the primitive has neither
    indices nor attributes, and at any other tolerance when it has no
    [POSITION] attribute.  What it throws is a [TypeError]. *)
Theorem weldPrimitive_throws_exactly (prim : Primitive) (options : WeldOptions)
    (e : Exn) :
  weldPrimitive prim options = Thrown e <->
  e = TypeError
  /\ ~ (is_Some (indices prim) /\ overwrite options = false)
  /\ mode prim <> POINTS
  /\ if (tolerance options =? 0)%float
     then indices prim = None /\ attributes prim = []
     else getAttribute (attributes prim) "POSITION" = None.
Proof.
  unfold weldPrimitive.
  destruct (bool_decide (is_Some (indices prim)) && negb (overwrite options)) eqn:Hskip.
  { apply andb_true_iff in Hskip as [Hix Hov].
    apply bool_decide_eq_true in Hix. apply negb_true_iff in Hov.
    split; [done|]. intros (_ & Hno & _). by destruct Hno. }
  assert (Hnot : ~ (is_Some (indices prim) /\ overwrite options = false)).
  { intros [Hix Hov]. rewrite Hov, bool_decide_eq_true_2 in Hskip by done. done. }
  destruct (Mode_eqb (mode prim) POINTS) eqn:Hmode.
  { apply Mode_eqb_eq in Hmode. split; [done|]. by intros (_ & _ & Hne & _). }
  assert (Hne : mode prim <> POINTS).
  { intros Hm. apply Mode_eqb_eq in Hm. congruence. }
  destruct (tolerance options =? 0)%float.
  - unfold _indexPrimitive. destruct (indices prim) as [ix|].
    + split; [done|]. by intros (_ & _ & _ & ? & _).
    + destruct (attributes prim) as [|[s a] attrs]; simpl.
      * split; [by intros [= <-]|by intros [-> _]].
      * split; [done|]. by intros (_ & _ & _ & _ & ?).
  - unfold _weldPrimitive, weldRun.
    destruct (getAttribute (attributes prim) "POSITION").
    + split; [done|]. by intros (_ & _ & _ & ?).
    + split; [by intros [= <-]|by intros [-> _]].
Qed.

(** X16.  With [overwrite] off, welding a primitive a second time changes
    nothing: what the first call leaves is returned by the second as it
    is. *)
Theorem weldPrimitive_twice (prim prim' : Primitive) (options : WeldOptions) :
  overwrite options = false ->
  weldPrimitive prim options = Returned prim' ->
  weldPrimitive prim' options = Returned prim'.
Proof.
  intros Hov Hfirst.
  destruct (Mode_eqb (mode prim) POINTS) eqn:Hm.
  - assert (prim' = prim) as ->; [|done].
    revert Hfirst. unfold weldPrimitive. rewrite Hm.
    destruct (bool_decide _ && _); congruence.
  - assert (Hne : mode prim <> POINTS).
    { intros H. apply Mode_eqb_eq in H. congruence. }
    destruct (weldPrimitive_indexed prim prim' options Hfirst Hne) as [ix Hix].
    unfold weldPrimitive. by rewrite Hix, Hov.
Qed.

Lemma weldPrimitive_twice_witness :
  let options := {| tolerance := 0.0001%float; overwrite := false |} in
  exists prim',
    overwrite options = false /\
    weldPrimitive quad options = Returned prim' /\
    weldPrimitive prim' options = Returned prim'.
Proof.
  intros options. eexists. split; [reflexivity|].
  split; [vm_compute; reflexivity|].
  apply (weldPrimitive_twice quad _ options); [reflexivity|].
  vm_compute; reflexivity.
Defined.

Lemma weldPrimitive_throws_exactly_witness :
  weldPrimitive (mkPrimitive None TRIANGLES [] []) (optionsAt 0.0001%float)
  = Thrown TypeError.
Proof.
  apply (weldPrimitive_throws_exactly _ (optionsAt 0.0001%float) TypeError).
  split; [done|]. split; [by intros [[? ?] _]|]. split; [done|]. done.
Defined.

(** ** Welding a document *)

Lemma weldPrimitive_throws_TypeError prim options e :
  weldPrimitive prim options = Thrown e -> e = TypeError.
Proof.
  unfold weldPrimitive.
  destruct (bool_decide _ && _); [done|].
  destruct (Mode_eqb _ _); [done|].
  destruct (_ =? _)%float.
  - unfold _indexPrimitive. destruct (indices prim); [done|].
    destruct (listAttributes _); [|done]. by intros [= <-].
  - unfold _weldPrimitive. destruct (weldRun _ _); [done|]. by intros [= <-].
Qed.

Lemma weldedPerVisit_nil options store : weldedPerVisit options [] store store.
Proof. split; [done|]. intros ref prim Hp. by exists prim. Qed.

Lemma weldedPerVisit_skip options ref rest store store' :
  store !! ref = None ->
  weldedPerVisit options rest store store' ->
  weldedPerVisit options (ref :: rest) store store'.
Proof.
  intros Hnone [Hlen Hall]. split; [done|]. intros ref0 prim Hp.
  rewrite count_occ_cons_neq by congruence. by apply Hall.
Qed.

Lemma weldedPerVisit_cons options ref rest store store' prim prim1 :
  store !! ref = Some prim ->
  weldPrimitive prim options = Returned prim1 ->
  weldedPerVisit options rest (<[ref := prim1]> store) store' ->
  weldedPerVisit options (ref :: rest) store store'.
Proof.
  intros Hp Hw [Hlen Hall]. split; [by rewrite Hlen, length_insert|].
  intros ref0 prim0 Hp0. destruct (decide (ref0 = ref)) as [->|Hne].
  - rewrite count_occ_cons_eq by done. cbn [weldTimes].
    assert (prim0 = prim) as -> by congruence. rewrite Hw.
    apply Hall. apply list_lookup_insert_eq. by eapply lookup_lt_Some.
  - rewrite count_occ_cons_neq by congruence.
    apply Hall. by rewrite list_lookup_insert_ne.
Qed.

(** A pass over references that does not throw. *)
Lemma weldPrimitives_returns options refs : forall store store',
  weldPrimitives store refs options = (store', None) ->
  weldedPerVisit options refs store store'.
Proof.
  induction refs as [|ref rest IH]; intros store store'; simpl.
  - intros [= <-]. apply weldedPerVisit_nil.
  - destruct (store !! ref) as [prim|] eqn:Hp.
    + destruct (weldPrimitive prim options) as [prim1|e] eqn:Hw; [|done].
      intros Hrest. eapply weldedPerVisit_cons; [done|done|by apply IH].
    + intros Hrest. apply weldedPerVisit_skip; [done|by apply IH].
Qed.

(** A pass over references that throws. *)
Lemma weldPrimitives_throws options refs : forall store store' e,
  weldPrimitives store refs options = (store', Some e) ->
  e = TypeError
  /\ exists before ref after prim,
       refs = before ++ ref :: after
       /\ weldedPerVisit options before store store'
       /\ store' !! ref = Some prim
       /\ weldPrimitive prim options = Thrown e.
Proof.
  induction refs as [|ref rest IH]; intros store store' e; simpl; [done|].
  destruct (store !! ref) as [prim|] eqn:Hp.
  - destruct (weldPrimitive prim options) as [prim1|e1] eqn:Hw.
    + intros Hrest.
      destruct (IH _ _ _ Hrest) as (He & before & ref0 & after & prim0 & -> & Hb & H0 & Ht).
      split; [done|]. exists (ref :: before), ref0, after, prim0.
      split; [done|]. split; [by eapply weldedPerVisit_cons|]. done.
    + intros [= <- <-]. split; [by eapply weldPrimitive_throws_TypeError|].
      exists [], ref, rest, prim. split; [done|].
      split; [apply weldedPerVisit_nil|]. done.
  - intros Hrest.
    destruct (IH _ _ _ Hrest) as (He & before & ref0 & after & prim0 & -> & Hb & H0 & Ht).
    split; [done|]. exists (ref :: before), ref0, after, prim0.
    split; [done|]. split; [by apply weldedPerVisit_skip|]. done.
Qed.

Lemma weldPrimitives_app options refs1 refs2 : forall store,
  weldPrimitives store (refs1 ++ refs2) options
  = match weldPrimitives store refs1 options with
    | (store', Some e) => (store', Some e)
    | (store', None) => weldPrimitives store' refs2 options
    end.
Proof.
  induction refs1 as [|ref rest IH]; intros store; simpl; [done|].
  destruct (store !! ref) as [prim|]; [|apply IH].
  destruct (weldPrimitive prim options) as [prim1|e]; [apply IH|done].
Qed.

(** The two nested loops visit the references of all meshes in order. *)
Lemma weldMeshes_visits options ms : forall store,
  weldMeshes store ms options
  = weldPrimitives store (concat (primitives <$> ms)) options.
Proof.
  induction ms as [|mesh rest IH]; intros store; [done|].
  cbn [weldMeshes fmap list_fmap concat]. rewrite weldPrimitives_app.
  destruct (weldPrimitives store (primitives mesh) options) as [store' [e|]];
    [done|apply IH].
Qed.

(** X17.  A call of the transform either fails the check of the options
    and leaves the document alone, or welds in place the primitives that
    the meshes list, mesh after mesh.  When no call throws, every primitive
    of the document has been welded once for every time a mesh lists it: a
    primitive that two meshes share is welded twice, the second time as the
    first call left it, and a primitive that no mesh lists is untouched;
    [dedup] then runs unless it is pending anyway.  When a call throws, the
    error is a [TypeError] of the primitive being visited, the visits before
    it have been made, and [dedup] does not run.  The meshes list the same
    primitives afterwards.  Morph targets are held by value: the statement
    is about documents in which no two primitives share a morph target. *)
Theorem transform_welds_every_primitive (dedup : Document -> Document)
    (dedupPending : bool) (_options : PartialWeldOptions) (doc : Document) :
  let options := withDefaults _options in
  match transformWith dedup dedupPending _options doc with
  | (doc', None) =>
      exists d,
        meshes d = meshes doc
        /\ weldedPerVisit options (visited doc) (primitiveStore doc) (primitiveStore d)
        /\ doc' = (if dedupPending then d else dedup d)
  | (doc', Some (ConfigError _)) =>
      doc' = doc
      /\ (Js.gt (tolerance options) 0.1%float || Js.lt (tolerance options) 0%float) = true
  | (doc', Some TypeError) =>
      meshes doc' = meshes doc
      /\ exists before ref after prim,
           visited doc = before ++ ref :: after
           /\ weldedPerVisit options before (primitiveStore doc) (primitiveStore doc')
           /\ primitiveStore doc' !! ref = Some prim
           /\ weldPrimitive prim options = Thrown TypeError
  end.
Proof.
  intros options. unfold transformWith, weld. fold options.
  destruct (Js.gt (tolerance options) 0.1%float || Js.lt (tolerance options) 0%float);
    [done|].
  rewrite weldMeshes_visits. fold (visited doc).
  destruct (weldPrimitives (primitiveStore doc) (visited doc) options)
    as [store' [e|]] eqn:Hpass.
  - destruct (weldPrimitives_throws _ _ _ _ _ Hpass) as (-> & Hstop).
    split; [done|]. exact Hstop.
  - exists {| primitiveStore := store'; meshes := meshes doc |}.
    split; [done|]. split; [|done]. by apply weldPrimitives_returns.
Qed.

(** A primitive that two meshes share is welded twice: on the reversed
    segment the second call welds the two indices and the one vertex that
    the first call left. *)
Example shared_primitive_is_welded_twice :
  let doc := {| primitiveStore := [reversed];
                meshes := [{| primitives := [0] |}; {| primitives := [0] |}] |} in
  let options := {| tolerance_opt := Some 0.03125%float; overwrite_opt := None |} in
  exists prim1 prim2,
    weldPrimitive reversed (withDefaults options) = Returned prim1
    /\ weldPrimitive prim1 (withDefaults options) = Returned prim2
    /\ prim2 <> prim1
    /\ transformWith (fun d => d) true options doc
       = ({| primitiveStore := [prim2]; meshes := meshes doc |}, None).
Proof.
  intros doc options. do 2 eexists.
  split; [vm_compute; reflexivity|]. split; [vm_compute; reflexivity|].
  split; [|vm_compute; reflexivity]. discriminate.
Qed.

(** ** The entries of [weldMap] when no vertex is merged into a later one *)

Section EntryFacts.
Variable prim : Primitive.
Variable table : ToleranceTable.
Variable srcPosition : Accessor.
Variable grid : Grid.
Variable u : nat.
Hypothesis grid_in_range : cellsAll (fun j => j < u) grid.

Local Abbreviation weldStep := (weldVertex prim table srcPosition grid).

(** The entry that a scan leaves for [a] is the entry it found there or the
    entry of a candidate: a property [G] of all of these holds of it. *)
Lemma scanCell_value (G : nat -> Prop) a cell st :
  a < u -> sized u st -> Forall (fun j => j < u) cell ->
  (forall j, j <> a -> j < u -> exists x, weldMap st !! j = Some x /\ G x) ->
  (exists x, weldMap st !! a = Some x /\ G x) ->
  exists x, weldMap (scanCell prim table a cell st) !! a = Some x /\ G x.
Proof.
  intros Ha. revert st.
  induction cell as [|j cell IH]; intros st Hs Hcell Hother Hown; simpl; [done|].
  inversion_clear Hcell as [|? ? Hj Hcell'].
  destruct (isMatch prim table a (weldMap st !! j)) eqn:Hmatch.
  - simpl. unfold store. destruct Hs as [Hl _].
    rewrite list_lookup_insert_eq by lia.
    destruct (decide (j = a)) as [->|Hne].
    + destruct Hown as (x & -> & Hx). by exists x.
    + destruct (Hother j Hne Hj) as (x & -> & Hx). by exists x.
  - apply (IH (mkState (weldMap st) (writeMap st) (dstVertexCount st)
                 (S (searchIters st)) (accessed st ++ [j]))); done.
Qed.

Lemma scanCells_value (G : nat -> Prop) a keys st :
  a < u -> sized u st ->
  (forall j, j <> a -> j < u -> exists x, weldMap st !! j = Some x /\ G x) ->
  (exists x, weldMap st !! a = Some x /\ G x) ->
  exists x, weldMap (scanCells prim table grid a keys st) !! a = Some x /\ G x.
Proof.
  intros Ha. unfold scanCells. revert st.
  induction keys as [|k keys IH]; intros st Hs Hother Hown; simpl; [done|].
  apply IH.
  - by apply scanCell_sized.
  - intros j Hne Hj.
    destruct (scanCell_frame prim table a (cellAt grid k) st j Hne) as [-> _].
    by apply Hother.
  - apply scanCell_value; try done.
    unfold cellAt. destruct (gridGet grid k) as [cell|] eqn:Hget; simpl.
    + by eapply gridGet_cellsAll.
    + by apply Forall_nil.
Qed.

Lemma weldVertex_value (G : nat -> Prop) cs st a :
  a < u -> sized u st ->
  (forall j, j <> a -> j < u -> exists x, weldMap st !! j = Some x /\ G x) ->
  (exists x, weldMap st !! a = Some x /\ G x) ->
  exists x, weldMap (weldStep cs st a) !! a = Some x /\ G x.
Proof.
  intros Ha Hs Hother Hown. unfold weldVertex.
  rewrite outputVertex_weldMap. by apply scanCells_value.
Qed.

(** Every entry names a vertex that is its own entry, provided each entry of
    the final [weldMap] names the vertex itself or one taken earlier. *)
Lemma fold_entriesFixed cs R : forall P st,
  NoDup (P ++ R) -> Forall (fun a => a < u) R -> sized u st ->
  (forall v, v ∈ R ->
     exists b, weldMap (fold_left (weldStep cs) R st) !! v = Some b /\
               (b = v \/ b ∈ P \/ processedBefore R b v)) ->
  (forall v, v ∈ P ->
     exists b, weldMap st !! v = Some b /\ b ∈ P /\ weldMap st !! b = Some b) ->
  (forall v, v ∉ P -> v < u -> weldMap st !! v = Some v) ->
  forall v, v ∈ P ++ R ->
    exists b, weldMap (fold_left (weldStep cs) R st) !! v = Some b /\
              b ∈ P ++ R /\
              weldMap (fold_left (weldStep cs) R st) !! b = Some b.
Proof.
  induction R as [|a R IH]; intros P st Hnd Hlt Hs Hfinal Hin Hout; simpl.
  - by rewrite app_nil_r.
  - inversion_clear Hlt as [|? ? Ha Hlt'].
    assert (HaP : a ∉ P).
    { apply NoDup_app in Hnd as (_ & Hd & _). intros HaP. apply (Hd a HaP). by left. }
    assert (HaR : a ∉ R).
    { apply NoDup_app in Hnd as (_ & _ & Hd). by apply NoDup_cons in Hd as [? _]. }
    replace (P ++ a :: R) with ((P ++ [a]) ++ R) in * by (by rewrite <- app_assoc).
    set (st' := weldStep cs st a).
    assert (Hframe : forall v, v <> a -> weldMap st' !! v = weldMap st !! v).
    { intros v Hv. by apply weldVertex_frame. }
    pose (G := fun x => x = a \/ (x ∈ P /\ weldMap st !! x = Some x) \/ x ∉ P).
    destruct (weldVertex_value G cs st a Ha Hs) as (x & Hx & HG).
    { intros j Hne Hj. destruct (decide (j ∈ P)) as [HjP|HjP].
      - destruct (Hin j HjP) as (b & Hb & HbP & Hbb). exists b. split; [done|].
        right. by left.
      - exists j. split; [by apply Hout|]. right. by right. }
    { exists a. split; [by apply Hout|]. by left. }
    fold st' in Hx.
    apply IH; [done|done|by apply weldVertex_sized| | |].
    + intros v Hv. destruct (Hfinal v ltac:(by right)) as (b & Hb & Hcase).
      exists b. split; [done|]. destruct Hcase as [->|[HbP|(i & j & Hij & Hi & Hj)]].
      * by left.
      * right. left. apply elem_of_app. by left.
      * destruct i as [|i].
        -- simpl in Hi. injection Hi as <-. right. left. apply elem_of_app. right. by left.
        -- destruct j as [|j]; [lia|]. simpl in Hi, Hj.
           right. right. exists i, j. repeat split; [lia|done|done].
    + intros v Hv. apply elem_of_app in Hv as [Hv|Hv].
      * destruct (Hin v Hv) as (b & Hb & HbP & Hbb). exists b.
        rewrite !Hframe by (by intros ->).
        split; [done|]. split; [apply elem_of_app; by left|done].
      * apply list_elem_of_singleton in Hv as ->.
        destruct (Hfinal a ltac:(by left)) as (b & Hb & Hcase).
        simpl in Hb. fold st' in Hb.
        destruct (fold_weldVertex_frame prim table srcPosition grid cs R st' a HaR)
          as [Hwa _].
        rewrite Hwa, Hx in Hb. injection Hb as ->.
        exists b. split; [done|].
        destruct Hcase as [->|[HbP|(i & j & Hij & Hi & Hj)]].
        -- split; [apply elem_of_app; right; by left|done].
        -- split; [apply elem_of_app; by left|].
           destruct HG as [->|[[_ Hbb]|Hno]]; [done| |done].
           rewrite Hframe by (by intros ->). done.
        -- exfalso. destruct j as [|j]; [lia|]. simpl in Hj.
           apply HaR. by eapply list_elem_of_lookup_2.
    + intros v Hv Hvu. apply not_elem_of_app in Hv as [Hv Hva].
      rewrite Hframe; [by apply Hout|].
      intros ->. apply Hva. by left.
Qed.
End EntryFacts.

Lemma weldRun_entriesFixed prim options run :
  weldRun prim options = Some run ->
  dense (uniqueIndices run) ->
  entriesComeEarlier run ->
  forall v, v ∈ uniqueIndices run ->
    exists b, weldMap (matched run) !! v = Some b /\ b ∈ uniqueIndices run /\
              weldMap (matched run) !! b = Some b.
Proof.
  intros Hrun Hdense Hearlier.
  destruct (weldRun_matched _ _ _ Hrun) as (srcPosition & _ & Hgrid & Hm).
  assert (Hnd : NoDup (uniqueIndices run)).
  { rewrite (weldRun_uniqueIndices _ _ _ Hrun). apply NoDup_uniqueIndicesOf. }
  assert (Hlt : Forall (fun a => a < length (uniqueIndices run)) (uniqueIndices run)).
  { by apply dense_Forall. }
  rewrite Hm. unfold matchVertices.
  apply (fold_entriesFixed prim (attributeTolerance run) srcPosition (grid run)
           (length (uniqueIndices run)) ltac:(rewrite Hgrid; by apply buildGrid_cellsAll)
           (cellSize run) (uniqueIndices run)
           [] (initialState (length (uniqueIndices run)))).
  - done.
  - done.
  - split; simpl; unfold createIndices; by rewrite length_seq.
  - intros v Hv. destruct (Hearlier v Hv) as (b & Hb & Hcase).
    exists b. split.
    + unfold matchVertices in Hm. by rewrite <- Hm.
    + destruct Hcase as [->|Hp]; [by left|by right; right].
  - intros v Hv. by apply elem_of_nil in Hv.
  - intros v _ Hv. simpl. unfold createIndices. by rewrite lookup_seq_lt.
Qed.

(** X18.  When the distinct index values are [0 .. uniqueCount - 1] and no
    vertex is merged into a vertex that the loop takes later, [weldMap] ends
    as a map onto representatives: the entry of every vertex is a vertex
    that is its own entry.  The first vertex taken is one of them, so a
    primitive with a vertex keeps a vertex. *)
Theorem entries_are_representatives (prim : Primitive) (options : WeldOptions)
    (run : WeldRun) :
  weldRun prim options = Some run ->
  dense (uniqueIndices run) ->
  entriesComeEarlier run ->
  entriesAreFixed run
  /\ (uniqueIndices run <> [] -> 0 < dstVertexCount (matched run)).
Proof.
  intros Hrun Hdense Hearlier. split.
  - intros v b Hv Hb.
    destruct (weldRun_entriesFixed _ _ _ Hrun Hdense Hearlier v Hv)
      as (b' & Hb' & _ & Hfix).
    congruence.
  - intros Hne. rewrite (weldRun_dst_count _ _ _ Hrun Hdense).
    assert (Hnd : NoDup (uniqueIndices run)).
    { rewrite (weldRun_uniqueIndices _ _ _ Hrun). apply NoDup_uniqueIndicesOf. }
    destruct (uniqueIndices run) as [|a0 rest] eqn:Hu; [done|].
    assert (Ha0 : weldMap (matched run) !! a0 = Some a0).
    { destruct (Hearlier a0) as (b & Hb & Hcase); [rewrite Hu; by left|].
      destruct Hcase as [->|(i & j & Hij & Hi & Hj)]; [done|].
      rewrite Hu in Hj.
      assert (j = 0); [|lia].
      by eapply (NoDup_lookup (a0 :: rest) j 0 a0). }
    rewrite filter_cons_True by done. simpl. lia.
Qed.

Lemma entries_are_representatives_witness :
  exists run,
    weldRun quad (optionsAt 0.0001%float) = Some run /\
    dense (uniqueIndices run) /\
    entriesComeEarlier run /\
    (entriesAreFixed run
     /\ (uniqueIndices run <> [] -> 0 < dstVertexCount (matched run))).
Proof.
  eexists. split; [vm_compute; reflexivity|].
  assert (Hd : dense [0; 1; 2; 3; 4; 5]).
  { apply dense_Forall; by_evaluation. }
  split; [exact Hd|].
  match goal with |- entriesComeEarlier ?r /\ _ =>
    assert (He : entriesComeEarlier r) end.
  { intros v Hv. cbn [uniqueIndices] in Hv.
    repeat (apply elem_of_cons in Hv as [->|Hv]); [| | | | | |by apply elem_of_nil in Hv].
    - exists 0. split; [reflexivity|by left].
    - exists 1. split; [reflexivity|by left].
    - exists 2. split; [reflexivity|by left].
    - exists 0. split; [reflexivity|]. right. exists 0, 3.
      split; [lia|]. split; reflexivity.
    - exists 2. split; [reflexivity|]. right. exists 2, 4.
      split; [lia|]. split; reflexivity.
    - exists 5. split; [reflexivity|by left]. }
  split; [exact He|].
  apply (entries_are_representatives quad (optionsAt 0.0001%float));
    [|exact Hd|exact He].
  vm_compute; reflexivity.
Defined.

(** ** The data of a welded vertex *)

(** Two representatives with the same slot are the same vertex. *)
Lemma slotsOf_injective (st : MatchState) (l : list nat) (n b1 b2 s : nat) :
  slotsOf st l = Some <$> seq 0 n ->
  b1 ∈ l -> b2 ∈ l ->
  weldMap st !! b1 = Some b1 -> weldMap st !! b2 = Some b2 ->
  writeMap st !! b1 = Some s -> writeMap st !! b2 = Some s ->
  b1 = b2.
Proof.
  unfold slotsOf. intros Hslots H1 H2 Hc1 Hc2 Hs1 Hs2.
  set (F := filter (fun v => weldMap st !! v = Some v) l) in *.
  assert (Hk : forall b, b ∈ l -> weldMap st !! b = Some b ->
                 writeMap st !! b = Some s -> F !! s = Some b).
  { intros b Hb Hc Hs.
    assert (HbF : b ∈ F) by (by apply list_elem_of_filter).
    apply list_elem_of_lookup_1 in HbF as (k & Hk).
    assert (Hl : ((fun v => writeMap st !! v) <$> F) !! k = Some (Some s)).
    { by rewrite list_lookup_fmap, Hk, <- Hs. }
    rewrite Hslots, list_lookup_fmap in Hl.
    destruct (seq 0 n !! k) as [k'|] eqn:Hseq; [|done].
    apply lookup_seq in Hseq as [-> _]. simpl in Hl. by injection Hl as <-. }
  pose proof (Hk b1 H1 Hc1 Hs1) as Hb1. pose proof (Hk b2 H2 Hc2 Hs2) as Hb2.
  congruence.
Qed.

(** X19.  When the distinct index values are [0 .. uniqueCount - 1], taken
    in ascending order, and no vertex is merged into a vertex that the loop
    takes later, welding replaces every vertex by a vertex that it matches:
    the slot that the new index buffer gives vertex [v] holds, in every
    compacted attribute, the element of the entry [weldMap[v]] as an array
    of the attribute's type stores it, and that entry is [v] itself or a
    vertex that passed the comparison with [v].  When the attribute is well
    typed and has an element for the entry, the slot holds that element as
    it is; when the attribute ends before the entry, the slot holds zeros in
    an array of integers and [NaN] in an array of floats. *)
Theorem welded_vertex_takes_its_representative (prim : Primitive)
    (options : WeldOptions) (run : WeldRun) (v : nat) :
  weldRun prim options = Some run ->
  dense (uniqueIndices run) ->
  takenAscending run ->
  entriesComeEarlier run ->
  v ∈ uniqueIndices run ->
  exists b s,
    weldMap (matched run) !! v = Some b
    /\ (b = v \/ isMatch prim (attributeTolerance run) v (Some b) = true)
    /\ writeMap (matched run) !! v = Some s
    /\ s < dstVertexCount (matched run)
    /\ forall srcAttr,
         let dst := swapAttributes srcAttr (writeMap (matched run))
                      (dstVertexCount (matched run)) in
         getElement dst (Some s) = storedElement srcAttr b
         /\ (wellTyped srcAttr -> b < getCount srcAttr ->
             getElement dst (Some s) = getElement srcAttr (Some b))
         /\ (length (array srcAttr) <= b * elementSize srcAttr ->
             getElement dst (Some s)
             = replicate (elementSize srcAttr) (storedUndefined (arrayType srcAttr))).
Proof.
  intros Hrun Hdense Hasc Hearlier Hv.
  pose proof (weldRun_slotsAgree _ _ _ Hrun Hdense Hearlier) as Hagree.
  pose proof (weldRun_entriesFixed _ _ _ Hrun Hdense Hearlier) as Hfixed.
  pose proof (weldRun_slotsOf _ _ _ Hrun Hdense) as Hslots.
  destruct (weldRun_sound _ _ _ Hrun Hdense) as [_ _ Hmatch _].
  destruct (Hagree v Hv) as (b & s & Hb & Hbu & Hsv & Hsb & Hlt).
  assert (Hbb : weldMap (matched run) !! b = Some b).
  { destruct (Hfixed v Hv) as (b' & Hb' & _ & Hfix). congruence. }
  exists b, s. split; [done|]. split; [by apply Hmatch|].
  split; [done|]. split; [done|].
  intros srcAttr dst.
  assert (Hslot : getElement dst (Some s) = storedElement srcAttr b).
  { unfold dst. rewrite swapAttributes_slot by done.
    rewrite (firstAt_least (writeMap (matched run)) s _ b); [done| |done|].
    - by eapply lookup_lt_Some.
    - intros i' Hi' Hs'.
      assert (Hiu : i' ∈ uniqueIndices run).
      { apply Hdense. apply Hdense in Hbu. lia. }
      destruct (Hagree i' Hiu) as (b2 & s2 & Hb2 & Hb2u & Hs2 & Hs2b & _).
      assert (s2 = s) as -> by congruence.
      assert (Hb2b2 : weldMap (matched run) !! b2 = Some b2).
      { destruct (Hfixed i' Hiu) as (b' & Hb' & _ & Hfix). congruence. }
      assert (b2 = b) as ->.
      { by eapply (slotsOf_injective (matched run) (uniqueIndices run)). }
      destruct (Hearlier i' Hiu) as (b' & Hb' & Hcase).
      assert (b' = b) as -> by congruence.
      destruct Hcase as [->|(i & j & Hij & Hi & Hj)]; [lia|].
      pose proof (Hasc i j b i' Hij Hi Hj). lia. }
  split; [exact Hslot|].
  split; [intros Hwt Hin; rewrite Hslot; by apply storedElement_id|].
  intros Hpast. rewrite Hslot. by apply storedElement_past_end.
Qed.

Lemma welded_vertex_takes_its_representative_witness :
  exists run,
    weldRun quad (optionsAt 0.0001%float) = Some run /\
    dense (uniqueIndices run) /\
    takenAscending run /\
    entriesComeEarlier run /\
    3 ∈ uniqueIndices run /\
    exists b s,
      weldMap (matched run) !! 3 = Some b
      /\ (b = 3 \/ isMatch quad (attributeTolerance run) 3 (Some b) = true)
      /\ writeMap (matched run) !! 3 = Some s
      /\ s < dstVertexCount (matched run)
      /\ forall srcAttr,
           let dst := swapAttributes srcAttr (writeMap (matched run))
                        (dstVertexCount (matched run)) in
           getElement dst (Some s) = storedElement srcAttr b
           /\ (wellTyped srcAttr -> b < getCount srcAttr ->
               getElement dst (Some s) = getElement srcAttr (Some b))
           /\ (length (array srcAttr) <= b * elementSize srcAttr ->
               getElement dst (Some s)
               = replicate (elementSize srcAttr) (storedUndefined (arrayType srcAttr))).
Proof.
  eexists. split; [vm_compute; reflexivity|].
  assert (Hd : dense [0; 1; 2; 3; 4; 5]).
  { apply dense_Forall; by_evaluation. }
  split; [exact Hd|].
  match goal with |- takenAscending ?r /\ _ => assert (Ha : takenAscending r) end.
  { intros i j a b Hij Hi Hj. cbn [uniqueIndices] in Hi, Hj.
    change [0; 1; 2; 3; 4; 5] with (seq 0 6) in Hi, Hj.
    apply lookup_seq in Hi as [-> _]. apply lookup_seq in Hj as [-> _]. lia. }
  split; [exact Ha|].
  match goal with |- entriesComeEarlier ?r /\ _ =>
    assert (He : entriesComeEarlier r) end.
  { intros v Hv. cbn [uniqueIndices] in Hv.
    repeat (apply elem_of_cons in Hv as [->|Hv]); [| | | | | |by apply elem_of_nil in Hv].
    - exists 0. split; [reflexivity|by left].
    - exists 1. split; [reflexivity|by left].
    - exists 2. split; [reflexivity|by left].
    - exists 0. split; [reflexivity|]. right. exists 0, 3.
      split; [lia|]. split; reflexivity.
    - exists 2. split; [reflexivity|]. right. exists 2, 4.
      split; [lia|]. split; reflexivity.
    - exists 5. split; [reflexivity|by left]. }
  split; [exact He|].
  match goal with |- ?H /\ _ => assert (H3 : H) end.
  { cbn [uniqueIndices]. do 3 apply list_elem_of_further. apply list_elem_of_here. }
  split; [exact H3|].
  apply (welded_vertex_takes_its_representative quad (optionsAt 0.0001%float));
    [|exact Hd|exact Ha|exact He|exact H3].
  vm_compute; reflexivity.
Defined.

(** ** The tolerance of the options *)

Lemma getAttributeTolerance_fixed (semantic : string) (attribute attribute' : Accessor)
    (t t' : number) :
  hasFixedTolerance semantic = true ->
  getAttributeTolerance semantic attribute t
  = getAttributeTolerance semantic attribute' t'.
Proof.
  unfold hasFixedTolerance, getAttributeTolerance.
  destruct (String.eqb semantic "NORMAL" || String.eqb semantic "TANGENT"); [done|].
  destruct (startsWith semantic "COLOR_"); [done|].
  destruct (startsWith semantic "TEXCOORD_"); [done|].
  destruct (startsWith semantic "JOINTS_"); [done|].
  destruct (startsWith semantic "WEIGHTS_"); [done|].
  done.
Qed.

(** X20.  The tolerance of the options reaches the comparison only through
    [POSITION] and the semantics that have no constant of their own: for
    [NORMAL], [TANGENT] and the [COLOR_], [TEXCOORD_], [JOINTS_] and
    [WEIGHTS_] attributes the threshold in the table is the same at every
    tolerance, whatever the data of the attribute. *)
Theorem fixed_thresholds_ignore_tolerance (prim : Primitive) (semantic : string)
    (t t' : number) :
  hasFixedTolerance semantic = true ->
  tableGet (attributeToleranceOf prim t) semantic
  = tableGet (attributeToleranceOf prim t') semantic
  /\ forall attribute attribute',
       getAttributeTolerance semantic attribute t
       = getAttributeTolerance semantic attribute' t'.
Proof.
  intros Hfixed. split.
  - destruct (getAttribute (attributes prim) semantic) as [acc|] eqn:Hget.
    + rewrite !(attributeToleranceOf_get prim _ semantic acc Hget).
      by apply getAttributeTolerance_fixed.
    + assert (Hs : semantic ∉ listSemantics (attributes prim)).
      { intros Hin. clear Hfixed. revert Hget Hin. unfold listSemantics.
        induction (attributes prim) as [|[s a] attrs IH]; simpl.
        - intros _ Hin. by apply elem_of_nil in Hin.
        - destruct (String.eqb s semantic) eqn:Heq; [done|].
          intros Hget Hin. apply elem_of_cons in Hin as [->|Hin]; [|by apply IH].
          by rewrite String.eqb_refl in Heq. }
      unfold attributeToleranceOf. by rewrite !tableGet_fold_missing.
  - intros attribute attribute'. by apply getAttributeTolerance_fixed.
Qed.

Lemma fixed_thresholds_ignore_tolerance_witness :
  hasFixedTolerance "NORMAL" = true
  /\ (tableGet (attributeToleranceOf creased 0.1%float) "NORMAL"
      = tableGet (attributeToleranceOf creased 0.0001%float) "NORMAL"
      /\ forall attribute attribute',
           getAttributeTolerance "NORMAL" attribute 0.1%float
           = getAttributeTolerance "NORMAL" attribute' 0.0001%float).
Proof.
  split; [reflexivity|].
  apply (fixed_thresholds_ignore_tolerance creased "NORMAL" 0.1%float 0.0001%float).
  reflexivity.
Defined.

(** A number that is at most [Number.EPSILON] and not below it is
    [Number.EPSILON]. *)
Lemma leb_not_ltb_EPSILON (t : number) :
  (t <=? Js.EPSILON)%float = true -> (t <? Js.EPSILON)%float = false ->
  t = Js.EPSILON.
Proof.
  rewrite leb_spec, ltb_spec. intros Hle Hlt.
  apply SFleb_rank in Hle as (Ht & He & Hr).
  assert (Hnlt : ~ rankLt (rank (Prim2SF t)) (rank (Prim2SF Js.EPSILON))).
  { intros Hr'. assert (SFltb (Prim2SF t) (Prim2SF Js.EPSILON) = true); [|congruence].
    by apply SFltb_rank. }
  destruct Hr as [Hr|Hr]; [done|].
  apply Prim2SF_inj. revert Hr.
  change (Prim2SF Js.EPSILON) with (S754_finite false 4503599627370496 (-104)).
  destruct (Prim2SF t) as [s|s| |s m e]; try destruct s; simpl; try done.
  intros [= -> ->]. done.
Qed.

Lemma Math_max_EPSILON (t : number) :
  (t <=? Js.EPSILON)%float = true -> Js.Math_max t Js.EPSILON = Js.EPSILON.
Proof.
  intros Hle. unfold Js.Math_max.
  assert (Hnan : is_nan t = false).
  { unfold is_nan. rewrite FloatAxioms.eqb_spec. unfold SFeqb. rewrite leb_spec in Hle.
    destruct (Prim2SF t) as [s|s| |s m e]; try done.
    - by destruct s.
    - simpl. destruct s; simpl; by rewrite Z.compare_refl, Pos.compare_cont_refl. }
  rewrite Hnan. change (is_nan Js.EPSILON) with false. cbn [orb].
  destruct (t <? Js.EPSILON)%float eqn:Hlt; [done|].
  rewrite (leb_not_gt _ _ Hle).
  rewrite (leb_not_ltb_EPSILON t Hle Hlt). done.
Qed.

(** X21.  A tolerance at or below [Number.EPSILON] is raised to it before
    anything is computed: the pass over a primitive at such a tolerance is
    the pass at [Number.EPSILON], and so is, at a tolerance other than [0],
    what [weldPrimitive] leaves. *)
Theorem tolerance_is_raised_to_epsilon (prim : Primitive) (options : WeldOptions) :
  (tolerance options <=? Js.EPSILON)%float = true ->
  weldRun prim options = weldRun prim (withTolerance options Js.EPSILON)
  /\ ((tolerance options =? 0)%float = false ->
      weldPrimitive prim options
      = weldPrimitive prim (withTolerance options Js.EPSILON)).
Proof.
  intros Hle.
  assert (Hrun : weldRun prim options
                 = weldRun prim (withTolerance options Js.EPSILON)).
  { unfold weldRun. cbn [withTolerance tolerance].
    rewrite (Math_max_EPSILON _ Hle).
    by rewrite (Math_max_EPSILON Js.EPSILON) by reflexivity. }
  split; [exact Hrun|].
  intros Hzero. unfold weldPrimitive, _weldPrimitive.
  rewrite <- Hrun, Hzero. cbn [withTolerance tolerance overwrite].
  change (Js.EPSILON =? 0)%float with false. done.
Qed.

Lemma tolerance_is_raised_to_epsilon_witness :
  (tolerance (optionsAt 0x1p-60%float) <=? Js.EPSILON)%float = true
  /\ (weldRun quad (optionsAt 0x1p-60%float)
      = weldRun quad (withTolerance (optionsAt 0x1p-60%float) Js.EPSILON)
      /\ ((tolerance (optionsAt 0x1p-60%float) =? 0)%float = false ->
          weldPrimitive quad (optionsAt 0x1p-60%float)
          = weldPrimitive quad (withTolerance (optionsAt 0x1p-60%float) Js.EPSILON))).
Proof.
  split; [reflexivity|].
  apply (tolerance_is_raised_to_epsilon quad (optionsAt 0x1p-60%float)).
  reflexivity.
Defined.

(** ** The anisotropy extension *)

Section AnisotropyFacts.
Variable Texture : Type.
Variable TextureInfo : Type.
Variable TextureInfoDef : Type.
Variable newTextureInfo : string -> TextureInfo.
Variable MathUtils_eq : list number -> list number -> bool.
Variable createTextureInfoDef : Texture -> TextureInfo -> TextureInfoDef.
Variable textureOf : TextureInfoDef -> Texture.
Variable setTextureInfo : TextureInfo -> TextureInfoDef -> TextureInfo.

Local Abbreviation Anisotropy := (MaterialsAnisotropy.Anisotropy Texture TextureInfo).
Local Abbreviation writeDef :=
  (MaterialsAnisotropy.writeDef Texture TextureInfo TextureInfoDef MathUtils_eq
     createTextureInfoDef).
Local Abbreviation readDef :=
  (MaterialsAnisotropy.readDef Texture TextureInfo TextureInfoDef newTextureInfo
     textureOf setTextureInfo).
Local Abbreviation write :=
  (MaterialsAnisotropy.write Texture TextureInfo TextureInfoDef MathUtils_eq
     createTextureInfoDef).
Local Abbreviation read :=
  (MaterialsAnisotropy.read Texture TextureInfo TextureInfoDef newTextureInfo
     textureOf setTextureInfo).

(** What [write] gives a material, property by property. *)
Lemma writeDef_fields (anisotropy : Anisotropy) :
  writeDef anisotropy
  = {| MaterialsAnisotropy.def_anisotropyFactor :=
         if Js.gt (MaterialsAnisotropy.anisotropyFactor _ _ anisotropy) 0
            || negb (MathUtils_eq
                       (MaterialsAnisotropy.anisotropyDirectionFactor _ _ anisotropy)
                       [1; 0; 0]%float)
         then Some (MaterialsAnisotropy.anisotropyFactor _ _ anisotropy)
         else None;
       MaterialsAnisotropy.def_anisotropyTexture :=
         (fun texture =>
            createTextureInfoDef texture
              (MaterialsAnisotropy.anisotropyTextureInfo _ _ anisotropy))
         <$> MaterialsAnisotropy.anisotropyTexture _ _ anisotropy;
       MaterialsAnisotropy.def_anisotropyDirectionFactor := None;
       MaterialsAnisotropy.def_anisotropyDirectionTexture :=
         (fun texture =>
            createTextureInfoDef texture
              (MaterialsAnisotropy.anisotropyDirectionTextureInfo _ _ anisotropy))
         <$> MaterialsAnisotropy.anisotropyDirectionTexture _ _ anisotropy |}.
Proof.
  destruct anisotropy as [f t ti d dt dti].
  unfold MaterialsAnisotropy.writeDef, MaterialsAnisotropy.getAnisotropyFactor,
    MaterialsAnisotropy.getAnisotropyDirectionFactor,
    MaterialsAnisotropy.getAnisotropyTexture,
    MaterialsAnisotropy.getAnisotropyTextureInfo,
    MaterialsAnisotropy.getAnisotropyDirectionTexture,
    MaterialsAnisotropy.getAnisotropyDirectionTextureInfo.
  cbn [MaterialsAnisotropy.anisotropyFactor MaterialsAnisotropy.anisotropyTexture
       MaterialsAnisotropy.anisotropyTextureInfo
       MaterialsAnisotropy.anisotropyDirectionFactor
       MaterialsAnisotropy.anisotropyDirectionTexture
       MaterialsAnisotropy.anisotropyDirectionTextureInfo].
  by destruct (Js.gt f 0), (MathUtils_eq d [1; 0; 0]%float), t, dt.
Qed.

(** The factors of the property that [read] creates. *)
Lemma readDef_factors (def : MaterialsAnisotropy.AnisotropyDef TextureInfoDef) :
  MaterialsAnisotropy.anisotropyFactor _ _ (readDef def)
  = default 0%float (MaterialsAnisotropy.def_anisotropyFactor _ def)
  /\ MaterialsAnisotropy.anisotropyDirectionFactor _ _ (readDef def)
     = default [1; 0; 0]%float (MaterialsAnisotropy.def_anisotropyDirectionFactor _ def)
  /\ MaterialsAnisotropy.anisotropyTexture _ _ (readDef def)
     = textureOf <$> MaterialsAnisotropy.def_anisotropyTexture _ def
  /\ MaterialsAnisotropy.anisotropyDirectionTexture _ _ (readDef def)
     = textureOf <$> MaterialsAnisotropy.def_anisotropyDirectionTexture _ def.
Proof.
  unfold MaterialsAnisotropy.readDef.
  destruct def as [[f|] [t|] [d|] [dt|]]; done.
Qed.

(** X22.  The definition that [write] gives a material never has the
    property [anisotropyDirectionFactor]: the test on the direction assigns
    [anisotropyFactor] a second time.  The factor is written when it is
    positive or the direction is not [[1, 0, 0]], and a texture is written
    exactly when one is attached. *)
Theorem write_omits_the_direction (anisotropy : Anisotropy) :
  let def := writeDef anisotropy in
  MaterialsAnisotropy.def_anisotropyDirectionFactor _ def = None
  /\ MaterialsAnisotropy.def_anisotropyFactor _ def
     = (if Js.gt (MaterialsAnisotropy.getAnisotropyFactor _ _ anisotropy) 0
           || negb (MathUtils_eq
                      (MaterialsAnisotropy.getAnisotropyDirectionFactor _ _ anisotropy)
                      [1; 0; 0]%float)
        then Some (MaterialsAnisotropy.getAnisotropyFactor _ _ anisotropy)
        else None)
  /\ (is_Some (MaterialsAnisotropy.def_anisotropyTexture _ def)
      <-> is_Some (MaterialsAnisotropy.getAnisotropyTexture _ _ anisotropy))
  /\ (is_Some (MaterialsAnisotropy.def_anisotropyDirectionTexture _ def)
      <-> is_Some (MaterialsAnisotropy.getAnisotropyDirectionTexture _ _ anisotropy)).
Proof.
  intros def. unfold def. rewrite writeDef_fields.
  unfold MaterialsAnisotropy.getAnisotropyFactor,
    MaterialsAnisotropy.getAnisotropyDirectionFactor,
    MaterialsAnisotropy.getAnisotropyTexture,
    MaterialsAnisotropy.getAnisotropyDirectionTexture.
  cbn [MaterialsAnisotropy.def_anisotropyFactor MaterialsAnisotropy.def_anisotropyTexture
       MaterialsAnisotropy.def_anisotropyDirectionFactor
       MaterialsAnisotropy.def_anisotropyDirectionTexture].
  split; [done|]. split; [done|]. by rewrite !fmap_is_Some.
Qed.

(** X23.  Writing a property and reading it back loses its direction: the
    property that [read] creates from what [write] wrote has the direction
    [[1, 0, 0]] of the defaults, whatever the direction was.  The factor
    comes back when it is positive; a factor that is not positive comes back
    as it was when the direction was not [[1, 0, 0]], and as [0] otherwise. *)
Theorem direction_is_lost_on_the_round_trip (anisotropy : Anisotropy) :
  let back := readDef (writeDef anisotropy) in
  let factor := MaterialsAnisotropy.getAnisotropyFactor _ _ anisotropy in
  let direction := MaterialsAnisotropy.getAnisotropyDirectionFactor _ _ anisotropy in
  MaterialsAnisotropy.getAnisotropyDirectionFactor _ _ back = [1; 0; 0]%float
  /\ MaterialsAnisotropy.getAnisotropyFactor _ _ back
     = (if Js.gt factor 0 || negb (MathUtils_eq direction [1; 0; 0]%float)
        then factor else 0%float)
  /\ (is_Some (MaterialsAnisotropy.getAnisotropyTexture _ _ back)
      <-> is_Some (MaterialsAnisotropy.getAnisotropyTexture _ _ anisotropy))
  /\ (is_Some (MaterialsAnisotropy.getAnisotropyDirectionTexture _ _ back)
      <-> is_Some (MaterialsAnisotropy.getAnisotropyDirectionTexture _ _ anisotropy)).
Proof.
  intros back factor direction. unfold back, factor, direction.
  unfold MaterialsAnisotropy.getAnisotropyFactor,
    MaterialsAnisotropy.getAnisotropyDirectionFactor,
    MaterialsAnisotropy.getAnisotropyTexture,
    MaterialsAnisotropy.getAnisotropyDirectionTexture.
  destruct (readDef_factors (writeDef anisotropy)) as (-> & -> & -> & ->).
  rewrite writeDef_fields.
  cbn [MaterialsAnisotropy.def_anisotropyFactor MaterialsAnisotropy.def_anisotropyTexture
       MaterialsAnisotropy.def_anisotropyDirectionFactor
       MaterialsAnisotropy.def_anisotropyDirectionTexture].
  split; [done|]. split.
  - by destruct (_ || _).
  - by rewrite !fmap_is_Some.
Qed.
End AnisotropyFacts.
